(** * Nanotext v2: a shallow embedding of the selection-scoped mutation engine

    The engine of [src/nanotext-v2.ts] edits the subtree below the editable
    root (the module variable [editorContent]) through the DOM Selection and
    Range interfaces.  The embedding keeps the tree as an inductive value,
    names nodes by their path from the editable root, and threads the tree
    together with the live selection through every entry point.

    Conventions of the model.
    - The root of the modelled tree is [editorContent], and the selection
      lies in the tree.  Of the page above the root the model keeps what
      the engine asks of it: whether the editor element has a parent, and
      what a call leaves beside the editor element when it works on that
      parent.
    - Elements are HTML elements: [tagName] is stored in upper case, and
      [document.createElement] upper-cases the name it is given.
    - What the browser does on the engine's behalf is a parameter of the
      model, the [host]: the HTML serialiser and parser behind
      [x.innerHTML = block.innerHTML], and the style engine behind
      [block.style.textAlign = value].
    - [querySelectorAll(tagName)] and [getElementsByTagName(tag)] select
      the descendant elements whose tag is the name in upper case.
    - The selection, when present, holds one live range; DOM mutations move
      its boundary points as the DOM standard prescribes for live ranges,
      and node references held across a mutation are followed to the place
      of the node in the new tree. *)

From Stdlib Require Import List String Ascii Arith Lia Bool.
Import ListNotations.
Set Warnings "-register-all".
Local Open Scope string_scope.
Local Open Scope nat_scope.
Local Open Scope list_scope.

(* ===================================================================== *)
(** ** Strings and tag names *)
(* ===================================================================== *)

Definition upper_ascii (c : ascii) : ascii :=
  let n := nat_of_ascii c in
  if (97 <=? n) && (n <=? 122) then ascii_of_nat (n - 32) else c.

Definition lower_ascii (c : ascii) : ascii :=
  let n := nat_of_ascii c in
  if (65 <=? n) && (n <=? 90) then ascii_of_nat (n + 32) else c.

Fixpoint toUpperCase (s : string) : string :=
  match s with
  | EmptyString => EmptyString
  | String c s' => String (upper_ascii c) (toUpperCase s')
  end.

Fixpoint toLowerCase (s : string) : string :=
  match s with
  | EmptyString => EmptyString
  | String c s' => String (lower_ascii c) (toLowerCase s')
  end.

(** [Array.prototype.includes] on an array of strings. *)
Definition includes (l : list string) (s : string) : bool :=
  existsb (String.eqb s) l.

Definition BLOCK_TAGS : list string :=
  ["P"; "H1"; "H2"; "BLOCKQUOTE"; "PRE"; "LI"; "FIGURE"].

Definition INLINE_TAGS : list string :=
  ["STRONG"; "EM"; "U"; "S"; "SUB"; "SUP"; "A"].

(** [substringData]-style helpers on character data. *)
Fixpoint str_take (n : nat) (s : string) : string :=
  match n, s with
  | S n', String c s' => String c (str_take n' s')
  | _, _ => EmptyString
  end.

Fixpoint str_drop (n : nat) (s : string) : string :=
  match n, s with
  | S n', String _ s' => str_drop n' s'
  | _, _ => s
  end.

(* ===================================================================== *)
(** ** The content tree *)
(* ===================================================================== *)

(** A node is a text node or an element with a tag name, attributes, the
    inline [style.textAlign] (empty when unset) and its child nodes. *)
Inductive node : Type :=
| Text (data : string)
| Elem (tagName : string) (attrs : list (string * string))
       (textAlign : string) (childNodes : list node).

Definition path := list nat.

Definition isElement (n : node) : bool :=
  match n with Elem _ _ _ _ => true | Text _ => false end.

Definition tagOf (n : node) : string :=
  match n with Elem t _ _ _ => t | Text _ => EmptyString end.

Definition kidsOf (n : node) : list node :=
  match n with Elem _ _ _ cs => cs | Text _ => [] end.

(** [document.createElement(tagName)]: a fresh element without attributes,
    style or children. *)
Definition createElement (tagName : string) : node :=
  Elem (toUpperCase tagName) [] EmptyString [].

(** [Node.textContent]: the text of the descendants in document order. *)
Fixpoint textContent (n : node) : string :=
  match n with
  | Text s => s
  | Elem _ _ _ cs =>
      (fix go (l : list node) : string :=
         match l with
         | [] => EmptyString
         | c :: l' => (textContent c ++ go l')%string
         end) cs
  end.

Fixpoint textOfList (l : list node) : string :=
  match l with
  | [] => EmptyString
  | c :: l' => (textContent c ++ textOfList l')%string
  end.

(** The node a path leads to, if any. *)
Fixpoint nodeAt (n : node) (p : path) : option node :=
  match p with
  | [] => Some n
  | i :: p' =>
      match n with
      | Elem _ _ _ cs =>
          match nth_error cs i with
          | Some c => nodeAt c p'
          | None => None
          end
      | Text _ => None
      end
  end.

(** Replace the [i]-th entry of a child list by a list of nodes. *)
Definition splice_nth (f : node -> list node) (i : nat) (cs : list node)
  : list node :=
  match nth_error cs i with
  | Some c => firstn i cs ++ f c ++ skipn (S i) cs
  | None => cs
  end.

(** Rewrite the node at a path in place. *)
Fixpoint updateAt (f : node -> node) (p : path) (n : node) : node :=
  match p with
  | [] => f n
  | i :: p' =>
      match n with
      | Elem t a al cs =>
          Elem t a al (splice_nth (fun c => [updateAt f p' c]) i cs)
      | Text _ => n
      end
  end.

(** Replace the node at a non-empty path, inside its parent's child list,
    by a list of nodes: the common shape of [replaceChild], [insertBefore],
    [removeChild] and of moving children out of an element.  The root has
    no parent in the model and is left alone. *)
Fixpoint spliceAt (f : node -> list node) (p : path) (n : node) : node :=
  match p with
  | [] => n
  | i :: p' =>
      match n with
      | Elem t a al cs =>
          match p' with
          | [] => Elem t a al (splice_nth f i cs)
          | _ :: _ =>
              Elem t a al (splice_nth (fun c => [spliceAt f p' c]) i cs)
          end
      | Text _ => n
      end
  end.

(** The parent path and the index below it. *)
Definition parentPath (p : path) : path := removelast p.
Definition indexOf (p : path) : nat := last p 0.

(* ===================================================================== *)
(** ** Selection and editor state *)
(* ===================================================================== *)

(** A boundary point: a node (by path) and an offset in it, a character
    index in a text node and a child index in an element. *)
Record boundary : Type := mkB { container : path; offset : nat }.

(** The single range of the selection and its direction; the anchor is the
    range's start unless the selection was made backwards. *)
Record selection : Type := mkSel {
  rstart : boundary;
  rend : boundary;
  backward : bool
}.

Definition anchor (s : selection) : boundary :=
  if backward s then rend s else rstart s.

Definition anchorNode (s : selection) : path := container (anchor s).

(** The editor: the tree below [editorContent] and [window.getSelection()];
    [None] stands for a null selection or one with [rangeCount === 0]. *)
Record editor : Type := mkEd {
  content : node;
  sel : option selection
}.

Definition nat_list_eqb (a b : list nat) : bool :=
  if list_eq_dec Nat.eq_dec a b then true else false.

Definition boundary_eqb (a b : boundary) : bool :=
  nat_list_eqb (container a) (container b) && (offset a =? offset b).

(** [Range.collapsed]. *)
Definition collapsed (s : selection) : bool :=
  boundary_eqb (rstart s) (rend s).

(* ===================================================================== *)
(** ** DOM helpers: walking up to the editor boundary *)
(* ===================================================================== *)

(** [walkUp]: visit the node and its ancestors, nearest first, stopping
    before [editorContent] (the empty path).  The path is given reversed so
    that the loop [current = current.parentNode] is structural.  The
    callback receives the node together with its path, its identity. *)
Fixpoint walkUpRev (root : node) (rp : list nat)
  (callback : path -> node -> bool) : option path :=
  match rp with
  | [] => None
  | _ :: rp' =>
      match nodeAt root (rev rp) with
      | Some n =>
          if callback (rev rp) n then Some (rev rp)
          else walkUpRev root rp' callback
      | None => None
      end
  end.

Definition walkUp (root : node) (p : path) (callback : path -> node -> bool)
  : option path :=
  walkUpRev root (rev p) callback.

Definition isElementWithTag (n : node) (tagName : string) : bool :=
  isElement n && String.eqb (tagOf n) (toUpperCase tagName).

(** [findAncestor]: nearest inclusive ancestor with the tag, below the
    editor root. *)
Definition findAncestor (root : node) (p : path) (tagName : string)
  : option path :=
  walkUp root p (fun _ n => isElementWithTag n tagName).

(** [findParentBlock] and its alias [getParentBlock]. *)
Definition findParentBlock (root : node) (p : path) : option path :=
  walkUp root p (fun _ n => isElement n && includes BLOCK_TAGS (tagOf n)).

Definition getParentBlock := findParentBlock.

(* ===================================================================== *)
(** ** State detection *)
(* ===================================================================== *)

Definition isInElement (ed : editor) (tagName : string) : bool :=
  match sel ed with
  | None => false
  | Some s =>
      match findAncestor (content ed) (anchorNode s) tagName with
      | Some _ => true
      | None => false
      end
  end.

Definition getBlockType (ed : editor) : option string :=
  match sel ed with
  | None => None
  | Some s =>
      match findParentBlock (content ed) (anchorNode s) with
      | Some b =>
          match nodeAt (content ed) b with
          | Some n => Some (toLowerCase (tagOf n))
          | None => None
          end
      | None => None
      end
  end.

Definition isInListType (ed : editor) (listType : string) : bool :=
  isInElement ed listType.

Definition hasAlignment (ed : editor) : option string :=
  match sel ed with
  | None => None
  | Some s =>
      match findParentBlock (content ed) (anchorNode s) with
      | Some b =>
          match nodeAt (content ed) b with
          | Some (Elem _ _ al _) =>
              if String.eqb al EmptyString then None else Some al
          | _ => None
          end
      | None => None
      end
  end.

(* ===================================================================== *)
(** ** Live boundary points under moving children out of an element *)
(* ===================================================================== *)

(** [strip_prefix p q]: the rest of [q] below [p], when [p] is an inclusive
    ancestor of [q]. *)
Fixpoint strip_prefix (p q : path) : option path :=
  match p, q with
  | [], _ => Some q
  | i :: p', j :: q' => if i =? j then strip_prefix p' q' else None
  | _ :: _, [] => None
  end.

(** The element at path [q] (index [m] below [P]), holding [n] children,
    has each child moved before it with [insertBefore] and is then removed.
    Each move takes a child out of the element, which sends the boundary
    points inside that child to the element; removing the element sends
    them to [(P, m + n)].  Offsets in [P] behind the element and paths
    through later siblings shift by [n - 1]. *)
Definition track_unwrap (q : path) (n : nat) (b : boundary) : boundary :=
  let P := parentPath q in
  let m := indexOf q in
  match strip_prefix P (container b) with
  | Some [] =>
      if offset b <=? m then b else mkB P (offset b + n - 1)
  | Some (k :: r) =>
      if k <? m then b
      else if k =? m then mkB P (m + n)
      else mkB (P ++ (k + n - 1) :: r) (offset b)
  | None => b
  end.

Definition track_sel (f : boundary -> boundary) (s : selection) : selection :=
  mkSel (f (rstart s)) (f (rend s)) (backward s).

(** The node at path [q] (index [m] below [P]) is emptied and replaced by
    another with [replaceChild]: the boundary points at or below it move
    to [(P, m)], and so does the point just behind it. *)
Definition track_replace (q : path) (b : boundary) : boundary :=
  let P := parentPath q in
  let m := indexOf q in
  match strip_prefix P (container b) with
  | Some [] => if offset b =? S m then mkB P m else b
  | Some (k :: _) => if k =? m then mkB P m else b
  | None => b
  end.

(* ===================================================================== *)
(** ** unwrapSelection *)
(* ===================================================================== *)

(** The loop of [unwrapSelection] visits the anchor node and its ancestors
    below the editor root and stops at the first element with the tag: the
    walk of [findAncestor].  The element's children are moved in front of
    it, in order, and the element is removed.  The selection is not set
    again, so it is the live range as the DOM leaves it. *)
Definition unwrapSelection (tagName : string) (ed : editor) : editor :=
  match sel ed with
  | None => ed
  | Some s =>
      match findAncestor (content ed) (anchorNode s) tagName with
      | Some q =>
          match nodeAt (content ed) q with
          | Some el =>
              mkEd (spliceAt kidsOf q (content ed))
                   (Some (track_sel (track_unwrap q (List.length (kidsOf el))) s))
          | None => ed
          end
      | None => ed
      end
  end.

(* ===================================================================== *)
(** ** Block and list structure *)
(* ===================================================================== *)

(** What the engine takes from the page it runs in.  The three block
    operations lean on the browser for steps that are no part of the
    engine: [x.innerHTML = block.innerHTML] serialises the children of the
    block and parses the markup back, [block.style.textAlign = value] keeps
    the value only if the style engine accepts it, and the list operations
    reach for the parent of the list, which for a list that is the editor
    element itself is a node of the page.  The definitions below take these
    as they come; the statements hold for every host. *)
Record host : Type := mkHost {
  (* [x.innerHTML = block.innerHTML] for a fresh element [x] with the given
     tag: the child nodes [x] has afterwards, from the child nodes of
     [block]. *)
  htmlRoundTrip : string -> list node -> list node;
  (* [block.style.textAlign = value]: [Some v] when the declaration is
     accepted, [v] being what [style.textAlign] reads afterwards; [None]
     when it is ignored. *)
  cssTextAlign : string -> option string;
  (* [editorContent.parentNode] is not null. *)
  editorHasParent : bool
}.

(** What [setBlockType] and [toggleList] leave behind.  [Inside ed]: the
    editor afterwards.  [Outside c placed caret]: the list worked on was
    the editor element itself, so the call changed the children of the
    editor element's parent.  [c] is the editor element afterwards,
    [placed] the nodes that stand where the editor element stood among its
    siblings (the editor element among them unless it was replaced), and
    [caret] the collapsed selection the call set, as a path into [placed]
    and an offset ([None]: the call set no selection). *)
Inductive outcome : Type :=
| Inside (ed : editor)
| Outside (c : node) (placed : list node) (caret : option (path * nat)).

(** [Element.children]: the element children only. *)
Definition children (cs : list node) : list node := filter isElement cs.

(** [Array.from(listEl.children).indexOf(block)] for the child at node
    index [k]. *)
Definition childIndex (k : nat) (cs : list node) : nat :=
  List.length (children (firstn k cs)).

(** A range set by [selectNodeContents(n)] and [collapse(false)]. *)
Definition caretAtEnd (p : path) (n : node) : selection :=
  let b := mkB p (List.length (kidsOf n)) in mkSel b b false.

(** The list-item extraction shared, statement for statement, by
    [setBlockType] and the demoting branch of [toggleList]: what takes the
    place of the list element [listEl] among its siblings when the item at
    node index [k] becomes [newBlock], and the position of [newBlock] in
    that replacement. *)
Definition extractItem (newBlock listEl : node) (k : nat)
  : list node * nat :=
  match listEl with
  | Elem lt la lal lkids =>
      let itemIndex := childIndex k lkids in
      let totalItems := List.length (children lkids) in
      let without := firstn k lkids ++ skipn (S k) lkids in
      if totalItems =? 1 then
        (* only item: replace the entire list *)
        ([newBlock], 0)
      else if itemIndex =? 0 then
        (* first item: insert before the list *)
        ([newBlock; Elem lt la lal without], 0)
      else if itemIndex =? totalItems - 1 then
        (* last item: insert after the list *)
        ([Elem lt la lal without; newBlock], 1)
      else
        (* middle item: the following siblings move to a new list *)
        ([Elem lt la lal (firstn k lkids);
          newBlock;
          Elem (toUpperCase lt) [] EmptyString (skipn (S k) lkids)], 1)
  | Text _ => ([listEl], 0)
  end.

(** Extract the item at path [block] from its list, leaving [newBlock];
    the selection is put at the end of [newBlock]. *)
Definition extractFromList (ed : editor) (block : path) (listEl newBlock : node)
  : editor :=
  let listPath := parentPath block in
  let '(repl, pos) := extractItem newBlock listEl (indexOf block) in
  let newPath := parentPath listPath ++ [indexOf listPath + pos] in
  mkEd (spliceAt (fun _ => repl) listPath (content ed))
       (Some (caretAtEnd newPath newBlock)).

(** The list element itself after that extraction: untouched when the
    whole list is replaced (the item is still in it), without the item
    when the item was first or last, cut off behind the item's place when
    the following siblings moved to a new list. *)
Definition listLeft (listEl : node) (k : nat) : node :=
  match listEl with
  | Elem lt la lal lkids =>
      let itemIndex := childIndex k lkids in
      let totalItems := List.length (children lkids) in
      if totalItems =? 1 then listEl
      else if itemIndex =? 0 then
        Elem lt la lal (firstn k lkids ++ skipn (S k) lkids)
      else if itemIndex =? totalItems - 1 then
        Elem lt la lal (firstn k lkids ++ skipn (S k) lkids)
      else Elem lt la lal (firstn k lkids)
  | Text _ => listEl
  end.

(** The same extraction when the list is the editor element: [listParent]
    is the parent of the editor element.  Without one the call returns at
    [if (!listParent) return]; with one the new block lands beside the
    editor element, outside the editor, and the selection goes with it. *)
Definition extractFromEditor (h : host) (ed : editor) (block : path)
  (listEl newBlock : node) : outcome :=
  if editorHasParent h then
    let '(repl, pos) := extractItem newBlock listEl (indexOf block) in
    Outside (listLeft listEl (indexOf block)) repl
            (Some ([pos], List.length (kidsOf newBlock)))
  else Inside ed.

Definition setBlockType (h : host) (tagName : string) (ed : editor)
  : outcome :=
  match sel ed with
  | None => Inside ed
  | Some s =>
      match getParentBlock (content ed) (anchorNode s) with
      | None => Inside ed
      | Some block =>
          match nodeAt (content ed) block with
          | Some (Elem bt ba bal bkids) =>
              if String.eqb (toLowerCase bt) (toLowerCase tagName) then
                Inside ed
              else
                (* newBlock.innerHTML = block.innerHTML *)
                let inner := htmlRoundTrip h (toUpperCase tagName) bkids in
                let standard :=
                  let newBlock := Elem (toUpperCase tagName) [] bal inner in
                  Inside
                    (mkEd (spliceAt (fun _ => [newBlock]) block (content ed))
                          (Some (caretAtEnd block newBlock))) in
                if String.eqb bt "LI" then
                  match nodeAt (content ed) (parentPath block) with
                  | Some listEl =>
                      if String.eqb (tagOf listEl) "UL"
                         || String.eqb (tagOf listEl) "OL" then
                        let newBlock :=
                          Elem (toUpperCase tagName) [] EmptyString inner in
                        match parentPath block with
                        | [] => extractFromEditor h ed block listEl newBlock
                        | _ :: _ =>
                            Inside (extractFromList ed block listEl newBlock)
                        end
                      else standard
                  | None => standard
                  end
                else standard
          | _ => Inside ed
          end
      end
  end.

(** [block.style.textAlign = value]: the style engine keeps the value it
    accepts and ignores any other. *)
Definition setAlignment (h : host) (value : string) (ed : editor) : editor :=
  match sel ed with
  | None => ed
  | Some s =>
      match getParentBlock (content ed) (anchorNode s) with
      | None => ed
      | Some block =>
          match cssTextAlign h value with
          | Some v =>
              mkEd (updateAt (fun n =>
                      match n with
                      | Elem t a _ cs => Elem t a v cs
                      | Text _ => n
                      end) block (content ed))
                   (sel ed)
          | None => ed
          end
      end
  end.

(** [Element.lastElementChild] as a child index. *)
Fixpoint lastElementIndex (cs : list node) (i : nat) : option nat :=
  match cs with
  | [] => None
  | c :: cs' =>
      match lastElementIndex cs' (S i) with
      | Some j => Some j
      | None => if isElement c then Some i else None
      end
  end.

(** The element without its children. *)
Definition emptied (n : node) : node :=
  match n with
  | Elem t a al _ => Elem t a al []
  | Text _ => n
  end.

Definition toggleList (h : host) (type : string) (ed : editor) : outcome :=
  match sel ed with
  | None => Inside ed
  | Some s =>
      match getParentBlock (content ed) (anchorNode s) with
      | None => Inside ed
      | Some block =>
          match nodeAt (content ed) block with
          | Some (Elem bt ba bal bkids) =>
              if String.eqb bt "LI" then
                match nodeAt (content ed) (parentPath block) with
                | Some listEl =>
                    if String.eqb (toLowerCase (tagOf listEl)) type then
                      (* same list type: the item becomes a paragraph;
                         p.innerHTML = block.innerHTML *)
                      let p :=
                        Elem (toUpperCase "p") [] EmptyString
                             (htmlRoundTrip h (toUpperCase "p") bkids) in
                      match parentPath block with
                      | [] => extractFromEditor h ed block listEl p
                      | _ :: _ => Inside (extractFromList ed block listEl p)
                      end
                    else
                      (* different list type: every child moves to a new
                         list, which replaces the old one.  The old list is
                         empty by then, so [indexOf(block)] is [-1] and the
                         item looked up is [newList.lastElementChild]. *)
                      let items := kidsOf listEl in
                      let newList := Elem (toUpperCase type) [] EmptyString items in
                      match parentPath block with
                      | [] =>
                          (* the list is the editor element: its children
                             leave the editor with the new list *)
                          if editorHasParent h then
                            Outside (emptied listEl) [newList]
                              match lastElementIndex items 0 with
                              | Some j =>
                                  match nth_error items j with
                                  | Some newItem =>
                                      Some ([0; j], List.length (kidsOf newItem))
                                  | None => None
                                  end
                              | None => None
                              end
                          else Inside ed
                      | _ :: _ =>
                          let content' :=
                            spliceAt (fun _ => [newList]) (parentPath block)
                                     (content ed) in
                          let live :=
                            Some (track_sel (track_replace (parentPath block)) s) in
                          match lastElementIndex items 0 with
                          | Some j =>
                              match nth_error items j with
                              | Some newItem =>
                                  Inside
                                    (mkEd content'
                                       (Some (caretAtEnd (parentPath block ++ [j])
                                                         newItem)))
                              | None => Inside (mkEd content' live)
                              end
                          | None => Inside (mkEd content' live)
                          end
                      end
                | None => Inside ed
                end
              else
                (* not in a list: the block becomes a one-item list;
                   li.innerHTML = block.innerHTML *)
                let li :=
                  Elem (toUpperCase "li") [] EmptyString
                       (htmlRoundTrip h (toUpperCase "li") bkids) in
                let list := Elem (toUpperCase type) [] EmptyString [li] in
                Inside (mkEd (spliceAt (fun _ => [list]) block (content ed))
                             (Some (caretAtEnd (block ++ [0]) li)))
          | _ => Inside ed
          end
      end
  end.

(* ===================================================================== *)
(** ** Boundary points in document order *)
(* ===================================================================== *)

(** The position of boundary point [(pa, oa)] relative to [(pb, ob)], as
    the DOM defines it: equal nodes compare offsets; when one node is an
    ancestor of the other, the child on the way down is compared with the
    ancestor's offset; otherwise the first differing index decides. *)
Fixpoint pos_cmp (pa : path) (oa : nat) (pb : path) (ob : nat) : comparison :=
  match pa, pb with
  | [], [] => oa ?= ob
  | [], j :: _ => if j <? oa then Gt else Lt
  | i :: _, [] => if i <? ob then Lt else Gt
  | i :: pa', j :: pb' =>
      match i ?= j with
      | Eq => pos_cmp pa' oa pb' ob
      | c => c
      end
  end.

Definition bcmp (a b : boundary) : comparison :=
  pos_cmp (container a) (offset a) (container b) (offset b).

(** Longest common prefix of two paths: the path of the deepest common
    inclusive ancestor. *)
Fixpoint lcp (p q : path) : path :=
  match p, q with
  | i :: p', j :: q' => if i =? j then i :: lcp p' q' else []
  | _, _ => []
  end.

(** [Range.commonAncestorContainer]. *)
Definition commonAncestorContainer (s e : boundary) : path :=
  lcp (container s) (container e).

(** [Range.setEnd] after the start was set: a range never ends before it
    starts, so an earlier end point collapses the range onto it. *)
Definition setStartEnd (s e : boundary) : boundary * boundary :=
  match bcmp e s with
  | Lt => (e, e)
  | _ => (s, e)
  end.

(* ===================================================================== *)
(** ** isSelectionFullyWrapped *)
(* ===================================================================== *)

Definition isSelectionFullyWrapped (tagName : string) (ed : editor) : bool :=
  match sel ed with
  | None => false
  | Some s =>
      let tag := toUpperCase tagName in
      let cac := commonAncestorContainer (rstart s) (rend s) in
      (* a text node hands over to its parent *)
      let ancestor :=
        match nodeAt (content ed) cac with
        | Some (Text _) => parentPath cac
        | _ => cac
        end in
      match walkUp (content ed) ancestor (fun p n =>
              isElement n && String.eqb (tagOf n) tag &&
              (* elRange.selectNodeContents(ancestor) *)
              let startsInside :=
                match pos_cmp p 0 (container (rstart s)) (offset (rstart s)) with
                | Gt => false | _ => true end in
              let endsInside :=
                match pos_cmp p (List.length (kidsOf n))
                              (container (rend s)) (offset (rend s)) with
                | Lt => false | _ => true end in
              startsInside && endsInside) with
      | Some _ => true
      | None => false
      end
  end.

(* ===================================================================== *)
(** ** removeTagsFromFragment and cleanupEmptyElements *)
(* ===================================================================== *)

(** Unwrap every element with the tag: its children, themselves stripped,
    take its place. *)
Fixpoint stripTag (tag : string) (n : node) : list node :=
  match n with
  | Text _ => [n]
  | Elem t a al cs =>
      let cs' := flat_map (stripTag tag) cs in
      if String.eqb t tag then cs' else [Elem t a al cs']
  end.

(** [removeTagsFromFragment(fragment, tagName)] on the fragment's child
    list; [querySelectorAll(tagName)] selects the descendant elements of
    that type. *)
Definition removeTagsFromFragment (fragment : list node) (tagName : string)
  : list node :=
  flat_map (stripTag (toUpperCase tagName)) fragment.

(** An element [cleanupEmptyElements] removes in the pass for [tag]. *)
Definition doomed (tag : string) (n : node) : bool :=
  isElement n && String.eqb (tagOf n) tag
  && String.eqb (textContent n) EmptyString.

(** One pass of [cleanupEmptyElements]: among the descendants of the
    container, drop each element with the tag whose text content is empty.
    The reverse iteration over the live collection removes inner elements
    before outer ones; an element's text does not change when an empty
    descendant goes, so the pass removes exactly the doomed elements. *)
Fixpoint pruneTag (tag : string) (n : node) : node :=
  match n with
  | Text _ => n
  | Elem t a al cs =>
      Elem t a al
        ((fix go (l : list node) : list node :=
            match l with
            | [] => []
            | c :: l' =>
                if doomed tag c then go l' else pruneTag tag c :: go l'
            end) cs)
  end.

Definition pruneKids (tag : string) (l : list node) : list node :=
  map (pruneTag tag) (filter (fun c => negb (doomed tag c)) l).

Definition cleanupEmptyElements (container : node) : node :=
  fold_left (fun acc tag => pruneTag tag acc) INLINE_TAGS container.

(** Children of [l] that survive the pass. *)
Definition survivors (tag : string) (l : list node) : nat :=
  List.length (filter (fun c => negb (doomed tag c)) l).

(** A live boundary point below the container after one pass: a point
    inside a removed element moves to the element's parent, at the index
    the element had; indices and offsets drop by the number of removed
    earlier siblings. *)
Fixpoint trackPrune (tag : string) (bp : path) (bo : nat) (n : node)
  : path * nat :=
  match bp with
  | [] =>
      match n with
      | Elem _ _ _ cs => ([], survivors tag (firstn bo cs))
      | Text _ => ([], bo)
      end
  | k :: r =>
      match n with
      | Elem _ _ _ cs =>
          match nth_error cs k with
          | Some c =>
              let k' := survivors tag (firstn k cs) in
              if doomed tag c then ([], k')
              else let '(r', o') := trackPrune tag r bo c in (k' :: r', o')
          | None => (bp, bo)
          end
      | Text _ => (bp, bo)
      end
  end.

(** A node below the container after one pass; [None] when the node left
    the tree with a removed element. *)
Fixpoint trackPruneNode (tag : string) (q : path) (n : node) : option path :=
  match q with
  | [] => Some []
  | k :: r =>
      match n with
      | Elem _ _ _ cs =>
          match nth_error cs k with
          | Some c =>
              if doomed tag c then None
              else option_map (cons (survivors tag (firstn k cs)))
                              (trackPruneNode tag r c)
          | None => None
          end
      | Text _ => None
      end
  end.

Fixpoint cleanupTrack (tags : list string) (n : node) (b : path * nat)
  : path * nat :=
  match tags with
  | [] => b
  | t :: ts => cleanupTrack ts (pruneTag t n) (trackPrune t (fst b) (snd b) n)
  end.

Fixpoint cleanupTrackNode (tags : list string) (n : node) (q : path)
  : option path :=
  match tags with
  | [] => Some q
  | t :: ts =>
      match trackPruneNode t q n with
      | Some q' => cleanupTrackNode ts (pruneTag t n) q'
      | None => None
      end
  end.

(* ===================================================================== *)
(** ** Range.extractContents *)
(* ===================================================================== *)

(** The first partially contained child: the original keeps what precedes
    the boundary point [(p, off)] below it, a clone receives what follows.
    Returns the truncated original and the clone. *)
Fixpoint extractFrom (p : path) (off : nat) (n : node) : node * node :=
  match n with
  | Text s => (Text (str_take off s), Text (str_drop off s))
  | Elem t a al cs =>
      match p with
      | [] => (Elem t a al (firstn off cs), Elem t a al (skipn off cs))
      | i :: p' =>
          match nth_error cs i with
          | Some c =>
              let '(kept, clone) := extractFrom p' off c in
              (Elem t a al (firstn i cs ++ [kept]),
               Elem t a al (clone :: skipn (S i) cs))
          | None => (n, Elem t a al [])
          end
      end
  end.

(** The last partially contained child: a clone receives what precedes the
    boundary point, the original keeps what follows.  Returns the clone and
    the truncated original. *)
Fixpoint extractTo (p : path) (off : nat) (n : node) : node * node :=
  match n with
  | Text s => (Text (str_take off s), Text (str_drop off s))
  | Elem t a al cs =>
      match p with
      | [] => (Elem t a al (firstn off cs), Elem t a al (skipn off cs))
      | j :: p' =>
          match nth_error cs j with
          | Some c =>
              let '(clone, kept) := extractTo p' off c in
              (Elem t a al (firstn j cs ++ [clone]),
               Elem t a al (kept :: skipn (S j) cs))
          | None => (Elem t a al [], n)
          end
      end
  end.

(** What the start of the range does to the children [cs] of the common
    ancestor: the children kept in front (with the truncated first
    partially contained child), the head of the fragment (its clone), and
    the index [a] of the first child that may be wholly contained. *)
Definition extractHead (sp : path) (so : nat) (cs : list node)
  : list node * list node * nat :=
  match sp with
  | [] => (firstn so cs, [], so)
  | i :: r =>
      match nth_error cs i with
      | Some F =>
          let '(kept, clone) := extractFrom r so F in
          (firstn i cs ++ [kept], [clone], S i)
      | None => (cs, [], List.length cs)
      end
  end.

(** Number of wholly contained children after index [a]. *)
Definition containedCount (ep : path) (eo : nat) (a : nat) : nat :=
  match ep with
  | [] => eo - a
  | j :: _ => j - a
  end.

(** Extraction below an element that is the common ancestor: the children
    left in front of the collapsed range, the fragment, and the children
    left behind it.  [sp] and [ep] are the paths of the boundary nodes
    below the common ancestor. *)
Definition extractKids (sp : path) (so : nat) (ep : path) (eo : nat)
  (cs : list node) : list node * list node * list node :=
  let '(before, fhead, a) := extractHead sp so cs in
  let cnt := containedCount ep eo a in
  let rest := skipn a cs in
  match ep with
  | [] => (before, fhead ++ firstn cnt rest, skipn cnt rest)
  | _ :: r =>
      match skipn cnt rest with
      | L :: after =>
          let '(clone, kept) := extractTo r eo L in
          (before, fhead ++ firstn cnt rest ++ [clone], kept :: after)
      | [] => (before, fhead ++ firstn cnt rest, [])
      end
  end.

(* ===================================================================== *)
(** ** Live boundary points and node references under extraction *)
(* ===================================================================== *)

(** A boundary point below the first partially contained child. *)
Fixpoint trackFrom (sp : path) (so : nat) (bp : path) (bo : nat) (n : node)
  : path * nat :=
  match n with
  | Text _ => (bp, Nat.min bo so)
  | Elem _ _ _ cs =>
      match sp with
      | [] =>
          match bp with
          | [] => ([], Nat.min bo so)
          | k :: _ => if k <? so then (bp, bo) else ([], so)
          end
      | i :: sr =>
          match bp with
          | [] => ([], Nat.min bo (S i))
          | k :: r =>
              if k <? i then (bp, bo)
              else if k =? i then
                match nth_error cs i with
                | Some c =>
                    let '(r', o') := trackFrom sr so r bo c in (i :: r', o')
                | None => (bp, bo)
                end
              else ([], S i)
          end
      end
  end.

(** A boundary point below the last partially contained child. *)
Fixpoint trackTo (ep : path) (eo : nat) (bp : path) (bo : nat) (n : node)
  : path * nat :=
  match n with
  | Text _ => (bp, bo - eo)
  | Elem _ _ _ cs =>
      match ep with
      | [] =>
          match bp with
          | [] => ([], bo - eo)
          | k :: r => if k <? eo then ([], 0) else ((k - eo) :: r, bo)
          end
      | j :: er =>
          match bp with
          | [] => ([], bo - j)
          | k :: r =>
              if k <? j then ([], 0)
              else if k =? j then
                match nth_error cs j with
                | Some c =>
                    let '(r', o') := trackTo er eo r bo c in (0 :: r', o')
                | None => (bp, bo)
                end
              else ((k - j) :: r, bo)
          end
      end
  end.

(** A node below the first partially contained child; [None] when it went
    into the fragment. *)
Fixpoint trackNodeFrom (sp : path) (so : nat) (q : path) (n : node)
  : option path :=
  match q with
  | [] => Some []
  | k :: r =>
      match n with
      | Text _ => Some q
      | Elem _ _ _ cs =>
          match sp with
          | [] => if k <? so then Some q else None
          | i :: sr =>
              if k <? i then Some q
              else if k =? i then
                match nth_error cs i with
                | Some c => option_map (cons i) (trackNodeFrom sr so r c)
                | None => Some q
                end
              else None
          end
      end
  end.

(** A node below the last partially contained child. *)
Fixpoint trackNodeTo (ep : path) (eo : nat) (q : path) (n : node)
  : option path :=
  match q with
  | [] => Some []
  | k :: r =>
      match n with
      | Text _ => Some q
      | Elem _ _ _ cs =>
          match ep with
          | [] => if k <? eo then None else Some ((k - eo) :: r)
          | j :: er =>
              if k <? j then None
              else if k =? j then
                match nth_error cs j with
                | Some c => option_map (cons 0) (trackNodeTo er eo r c)
                | None => Some q
                end
              else Some ((k - j) :: r)
          end
      end
  end.

(** A boundary point [(bp, bo)] below the common ancestor (children [cs])
    after the extraction and the insertion of the wrapper at index [a]:
    removing the [cnt] contained children pulls later offsets back and
    sends the points inside them to [(ancestor, a)]; inserting the wrapper
    pushes the offsets behind [a] on by one. *)
Definition trackKids (sp : path) (so : nat) (ep : path) (eo : nat)
  (cs : list node) (bp : path) (bo : nat) : path * nat :=
  let '(_, _, a) := extractHead sp so cs in
  let cnt := containedCount ep eo a in
  match bp with
  | [] =>
      let bo1 := if bo <=? a then bo
                 else if bo <=? a + cnt then a else bo - cnt in
      ([], if a <? bo1 then S bo1 else bo1)
  | k :: r =>
      match sp, nth_error cs k with
      | i :: sr, Some F =>
          if k =? i then
            let '(r', o') := trackFrom sr so r bo F in (k :: r', o')
          else if k <? a then (bp, bo)
          else if k <? a + cnt then ([], a)
          else
            match ep with
            | j :: er =>
                if k =? a + cnt then
                  let '(r', o') := trackTo er eo r bo F in (S a :: r', o')
                else (S (k - cnt) :: r, bo)
            | [] => (S (k - cnt) :: r, bo)
            end
      | [], Some L =>
          if k <? a then (bp, bo)
          else if k <? a + cnt then ([], a)
          else
            match ep with
            | j :: er =>
                if k =? a + cnt then
                  let '(r', o') := trackTo er eo r bo L in (S a :: r', o')
                else (S (k - cnt) :: r, bo)
            | [] => (S (k - cnt) :: r, bo)
            end
      | _, None => (bp, bo)
      end
  end.

(** A node below the common ancestor, likewise; [None] when the node went
    into the fragment. *)
Definition trackNodeKids (sp : path) (so : nat) (ep : path) (eo : nat)
  (cs : list node) (q : path) : option path :=
  let '(_, _, a) := extractHead sp so cs in
  let cnt := containedCount ep eo a in
  match q with
  | [] => Some []
  | k :: r =>
      match nth_error cs k with
      | None => Some q
      | Some c =>
          let behind :=
            match ep with
            | j :: er =>
                if k =? a + cnt then
                  option_map (cons (S a)) (trackNodeTo er eo r c)
                else Some (S (k - cnt) :: r)
            | [] => Some (S (k - cnt) :: r)
            end in
          match sp with
          | i :: sr =>
              if k =? i then option_map (cons k) (trackNodeFrom sr so r c)
              else if k <? a then Some q
              else if k <? a + cnt then None
              else behind
          | [] =>
              if k <? a then Some q
              else if k <? a + cnt then None
              else behind
          end
      end
  end.

(** The range lies in one text node at path [c]: [replaceData] deletes the
    characters from [so] to [eo], [insertNode] splits the node at [so] and
    puts the wrapper between the halves, so two nodes appear behind [c]. *)
Definition trackText (c : path) (so eo : nat) (b : boundary) : boundary :=
  let P := parentPath c in
  let idx := indexOf c in
  match strip_prefix P (container b) with
  | Some [] => if idx <? offset b then mkB P (offset b + 2) else b
  | Some (k :: r) =>
      if k =? idx then
        let bo := offset b in
        let bo1 := if bo <=? so then bo
                   else if bo <=? so + (eo - so) then so
                   else bo - (eo - so) in
        if so <? bo1 then mkB (P ++ [idx + 2]) (bo1 - so) else mkB c bo1
      else if idx <? k then mkB (P ++ (k + 2) :: r) (offset b)
      else b
  | None => b
  end.

Definition trackTextNode (c : path) (q : path) : option path :=
  let P := parentPath c in
  let idx := indexOf c in
  match strip_prefix P q with
  | Some (k :: r) => if idx <? k then Some (P ++ (k + 2) :: r) else Some q
  | _ => Some q
  end.

(** Apply a tracker of points below [P] to a boundary point of the tree. *)
Definition underB (P : path) (f : path -> nat -> path * nat) (b : boundary)
  : boundary :=
  match strip_prefix P (container b) with
  | Some rel => let '(r, o) := f rel (offset b) in mkB (P ++ r) o
  | None => b
  end.

Definition underN (P : path) (f : path -> option path) (q : path)
  : option path :=
  match strip_prefix P q with
  | Some rel => option_map (app P) (f rel)
  | None => Some q
  end.

(* ===================================================================== *)
(** ** wrapRange *)
(* ===================================================================== *)

(** What [wrapRange] leaves behind: the tree, where the wrapper sits
    ([None] when [cleanupEmptyElements] removed it again), and how live
    boundary points and node references of the old tree read in the new
    one ([None]: the node is no longer in the tree where it was). *)
Record wrapped : Type := mkWrapped {
  w_tree : node;
  w_wrapper : option path;
  w_trackB : boundary -> boundary;
  w_trackN : path -> option path
}.

Definition attrsOf (attributes : option (list (string * string)))
  : list (string * string) :=
  match attributes with Some l => l | None => [] end.

(** The new wrapper element around the extracted fragment. *)
Definition makeWrapper (tagName : string)
  (attributes : option (list (string * string))) (fragment : list node)
  : node :=
  Elem (toUpperCase tagName) (attrsOf attributes) EmptyString
       (removeTagsFromFragment fragment tagName).

(** [cleanupEmptyElements(wrapper.parentElement)] for the parent at [P]. *)
Definition cleanupAt (P : path) (wrapper : path) (t1 : node)
  (trB : boundary -> boundary) (trN : path -> option path) : wrapped :=
  match nodeAt t1 P with
  | Some parent =>
      let cB := underB P (fun r o => cleanupTrack INLINE_TAGS parent (r, o)) in
      let cN := underN P (cleanupTrackNode INLINE_TAGS parent) in
      mkWrapped (updateAt cleanupEmptyElements P t1)
                (cN wrapper)
                (fun b => cB (trB b))
                (fun q => match trN q with Some q' => cN q' | None => None end)
  | None => mkWrapped t1 (Some wrapper) trB trN
  end.

Definition wrapRange (root : node) (s e : boundary) (tagName : string)
  (attributes : option (list (string * string))) : wrapped :=
  let c := commonAncestorContainer s e in
  match nodeAt root c with
  | Some (Text data) =>
      (* start and end in the same text node *)
      let so := offset s in
      let eo := offset e in
      let pre := str_take so data in
      let mid := str_take (eo - so) (str_drop so data) in
      let suf := str_drop (eo - so) (str_drop so data) in
      let wrapper := makeWrapper tagName attributes [Text mid] in
      let t1 := spliceAt (fun _ => [Text pre; wrapper; Text suf]) c root in
      cleanupAt (parentPath c) (parentPath c ++ [S (indexOf c)]) t1
                (trackText c so eo) (trackTextNode c)
  | Some (Elem t a al cs) =>
      let sp := skipn (List.length c) (container s) in
      let ep := skipn (List.length c) (container e) in
      let '(before, fragment, after) :=
        extractKids sp (offset s) ep (offset e) cs in
      let wrapper := makeWrapper tagName attributes fragment in
      let t1 := updateAt (fun _ => Elem t a al (before ++ wrapper :: after))
                         c root in
      cleanupAt c (c ++ [List.length before]) t1
                (underB c (trackKids sp (offset s) ep (offset e) cs))
                (underN c (trackNodeKids sp (offset s) ep (offset e) cs))
  | None => mkWrapped root None (fun b => b) (fun q => Some q)
  end.

(* ===================================================================== *)
(** ** getBlocksInSelection *)
(* ===================================================================== *)

(** The proper descendants of a node in document order, with their paths:
    the nodes a [TreeWalker] rooted at the node visits with [nextNode]. *)
Fixpoint descendants (p : path) (n : node) : list (path * node) :=
  match n with
  | Text _ => []
  | Elem _ _ _ cs =>
      (fix go (i : nat) (l : list node) : list (path * node) :=
         match l with
         | [] => []
         | c :: l' =>
             (p ++ [i], c) :: descendants (p ++ [i]) c ++ go (S i) l'
         end) 0 cs
  end.

(** [Range.intersectsNode] for a node that has a parent. *)
Definition intersectsNode (s e : boundary) (q : path) : bool :=
  let parent := parentPath q in
  let i := indexOf q in
  match pos_cmp parent i (container e) (offset e),
        pos_cmp parent (S i) (container s) (offset s) with
  | Lt, Gt => true
  | _, _ => false
  end.

Definition blockTags : list string :=
  ["P"; "H1"; "H2"; "BLOCKQUOTE"; "PRE"; "LI"].

Definition getBlocksInSelection (root : node) (s e : boundary) : list path :=
  let c := commonAncestorContainer s e in
  let walkerRoot :=
    match nodeAt root c with
    | Some (Text _) => parentPath c
    | _ => c
    end in
  match nodeAt root walkerRoot with
  | Some r =>
      map fst
        (filter (fun pn =>
                   isElement (snd pn)
                   && includes blockTags (tagOf (snd pn))
                   && intersectsNode s e (fst pn))
                (descendants walkerRoot r))
  | None => []
  end.

(* ===================================================================== *)
(** ** wrapSelectionPerBlock *)
(* ===================================================================== *)

(** The variables of the loop over the blocks: the tree, the selection's
    live range, how the block references collected before the loop read in
    the current tree, and the two wrappers kept for the new selection
    ([None]: still [null]; [Some None]: created but no longer in the
    tree). *)
Record loopState : Type := mkLoop {
  l_tree : node;
  l_start : boundary;
  l_end : boundary;
  l_trackN : path -> option path;
  l_first : option (option path);
  l_last : option (option path)
}.

Definition bindPath (o : option path) (f : path -> option path)
  : option path :=
  match o with Some q => f q | None => None end.

(** The range built for block [i] of [n]: from the selection start to the
    end of the first block, from the start of the last block to the
    selection end, and the whole content of a block in between. *)
Definition blockRange (st : loopState) (i n : nat) (block : path) (bn : node)
  : boundary * boundary :=
  if i =? 0 then
    setStartEnd (l_start st) (mkB block (List.length (kidsOf bn)))
  else if i =? n - 1 then
    setStartEnd (mkB block 0) (l_end st)
  else (mkB block 0, mkB block (List.length (kidsOf bn))).

(** One turn of the loop for block [i], given by its path in the tree the
    blocks were collected from.  A block that is no longer in the tree
    gives a range outside the document; nothing in the tree changes.  (A
    block still to be visited starts before the range of the turn at hand,
    so it is never carried off in that turn's fragment.) *)
Definition wrapBlock (tagName : string)
  (attributes : option (list (string * string))) (n : nat)
  (i : nat) (block0 : path) (st : loopState) : loopState :=
  match l_trackN st block0 with
  | None => st
  | Some block =>
      match nodeAt (l_tree st) block with
      | None => st
      | Some bn =>
          let '(bs, be) := blockRange st i n block bn in
          if boundary_eqb bs be then st
          else
            let r := wrapRange (l_tree st) bs be tagName attributes in
            mkLoop (w_tree r)
                   (w_trackB r (l_start st))
                   (w_trackB r (l_end st))
                   (fun q => bindPath (l_trackN st q) (w_trackN r))
                   (if i =? 0 then Some (w_wrapper r)
                    else option_map (fun w => bindPath w (w_trackN r))
                                    (l_first st))
                   (if i =? n - 1 then Some (w_wrapper r)
                    else option_map (fun w => bindPath w (w_trackN r))
                                    (l_last st))
      end
  end.

(** The loop [for (i = blocks.length - 1; i >= 0; i--)]: [todo] lists the
    blocks with their indices, last block first. *)
Fixpoint wrapBlocks (tagName : string)
  (attributes : option (list (string * string))) (n : nat)
  (todo : list (nat * path)) (st : loopState) : loopState :=
  match todo with
  | [] => st
  | (i, block0) :: rest =>
      wrapBlocks tagName attributes n rest
        (wrapBlock tagName attributes n i block0 st)
  end.

(** Blocks paired with their indices, in reverse order. *)
Definition indexedRev (blocks : list path) : list (nat * path) :=
  rev (combine (seq 0 (List.length blocks)) blocks).

(** The selection put back after wrapping: from the start of the first
    wrapper to the end of the last.  A boundary point outside the document
    gives a range [addRange] ignores, after [removeAllRanges] emptied the
    selection. *)
Definition restoreSelection (t : node) (firstWrapper lastWrapper : option path)
  : option selection :=
  match lastWrapper with
  | None => None
  | Some l =>
      match nodeAt t l with
      | None => None
      | Some ln =>
          let e := mkB l (List.length (kidsOf ln)) in
          match firstWrapper with
          | Some f =>
              let '(a, b) := setStartEnd (mkB f 0) e in
              Some (mkSel a b false)
          | None => Some (mkSel e e false)
          end
      end
  end.

Definition wrapSelectionPerBlock (tagName : string)
  (attributes : option (list (string * string))) (ed : editor) : editor :=
  match sel ed with
  | None => ed
  | Some s =>
      if collapsed s then ed
      else
        let blocks := getBlocksInSelection (content ed) (rstart s) (rend s) in
        if List.length blocks <=? 1 then
          (* single block or no blocks: wrap the selection itself *)
          let r := wrapRange (content ed) (rstart s) (rend s)
                             tagName attributes in
          mkEd (w_tree r)
               (restoreSelection (w_tree r) (w_wrapper r) (w_wrapper r))
        else
          let st := wrapBlocks tagName attributes (List.length blocks)
                      (indexedRev blocks)
                      (mkLoop (content ed) (rstart s) (rend s)
                              (fun q => Some q) None None) in
          match l_first st, l_last st with
          | Some f, Some l =>
              mkEd (l_tree st) (restoreSelection (l_tree st) f l)
          | _, _ =>
              mkEd (l_tree st)
                   (Some (mkSel (l_start st) (l_end st) (backward s)))
          end
  end.

(* ===================================================================== *)
(** ** toggleElement *)
(* ===================================================================== *)

Definition toggleElement (tagName : string) (ed : editor) : editor :=
  match sel ed with
  | None => ed
  | Some s =>
      if collapsed s then
        (* a cursor: toggle on its position; nothing to wrap *)
        if isInElement ed tagName then unwrapSelection tagName ed else ed
      else if isSelectionFullyWrapped tagName ed then
        unwrapSelection tagName ed
      else wrapSelectionPerBlock tagName None ed
  end.

(* ===================================================================== *)
(** ** insertFigure *)
(* ===================================================================== *)

(** [Range.insertNode] at a boundary point: a text node is split at the
    offset, an element receives the node at the child index.  Returns the
    tree and the path of the inserted node. *)
Definition insertNode (root : node) (b : boundary) (n : node) : node * path :=
  match nodeAt root (container b) with
  | Some (Text data) =>
      (spliceAt (fun _ => [Text (str_take (offset b) data); n;
                           Text (str_drop (offset b) data)])
                (container b) root,
       parentPath (container b) ++ [S (indexOf (container b))])
  | Some (Elem _ _ _ _) =>
      (updateAt (fun el =>
                   match el with
                   | Elem t a al cs =>
                       Elem t a al (firstn (offset b) cs ++ n :: skipn (offset b) cs)
                   | Text _ => el
                   end) (container b) root,
       container b ++ [offset b])
  | None => (root, container b)
  end.

Definition insertFigure (url : string) (ed : editor) : editor :=
  match sel ed with
  | None => ed
  | Some s =>
      let img := Elem (toUpperCase "img") [("src", url)] EmptyString [] in
      let caption :=
        Elem (toUpperCase "figcaption") [("contenteditable", "true")]
             EmptyString [] in
      let figure := Elem (toUpperCase "figure") [] EmptyString [img; caption] in
      let caret p := let b := mkB (p ++ [1]) 0 in Some (mkSel b b false) in
      match getParentBlock (content ed) (anchorNode s) with
      | Some block =>
          (* insert after the current block *)
          mkEd (spliceAt (fun b => [b; figure]) block (content ed))
               (caret (parentPath block ++ [S (indexOf block)]))
      | None =>
          let '(t, p) := insertNode (content ed) (rstart s) figure in
          mkEd t (caret p)
      end
  end.

(* ===================================================================== *)
(** ** Vocabulary of the statements *)
(* ===================================================================== *)

(** A list without its [i]-th entry. *)
Definition removeNth {A : Type} (i : nat) (l : list A) : list A :=
  firstn i l ++ skipn (S i) l.

Definition isListContainer (t : string) : bool :=
  String.eqb (toLowerCase t) "ul" || String.eqb (toLowerCase t) "ol".

Definition isListItem (n : node) : bool :=
  isElement n && String.eqb (tagOf n) "LI".

(** Invariant I2 of the data model: the children of every list container
    are list items and nothing else. *)
Fixpoint listsHoldItems (n : node) : bool :=
  match n with
  | Text _ => true
  | Elem t _ _ cs =>
      (if isListContainer t then forallb isListItem cs else true)
      && forallb listsHoldItems cs
  end.

(** No element below the node is removed by the cleanup pass for [tag]:
    none has that tag and empty text. *)
Fixpoint noDoomed (tag : string) (n : node) : bool :=
  match n with
  | Text _ => true
  | Elem _ _ _ cs => forallb (fun c => negb (doomed tag c) && noDoomed tag c) cs
  end.

(** Invariant I3 below a node: no inline/semantic element there has empty
    text content. *)
Definition noEmptyInline (n : node) : bool :=
  forallb (fun tag => noDoomed tag n) INLINE_TAGS.

(** The node is not an element of the tag and has no such descendant. *)
Fixpoint noTag (tag : string) (n : node) : bool :=
  match n with
  | Text _ => true
  | Elem t _ _ cs => negb (String.eqb t tag) && forallb (noTag tag) cs
  end.

(** [wrapper.parentElement] for the range from [s] to [e]: the common
    ancestor container, or its parent when that is a text node.  This is
    the subtree [wrapRange] works in and cleans up. *)
Definition wrapperParent (root : node) (s e : boundary) : path :=
  match nodeAt root (commonAncestorContainer s e) with
  | Some (Text _) => parentPath (commonAncestorContainer s e)
  | _ => commonAncestorContainer s e
  end.

(** [n] applications of a mutation. *)
Fixpoint iterate (n : nat) (f : editor -> editor) (ed : editor) : editor :=
  match n with
  | 0 => ed
  | S n' => iterate n' f (f ed)
  end.

(** A boundary point of the tree: the node exists and the offset does not
    exceed its length. *)
Definition validBoundary (root : node) (b : boundary) : bool :=
  match nodeAt root (container b) with
  | Some (Text data) => offset b <=? String.length data
  | Some (Elem _ _ _ cs) => offset b <=? List.length cs
  | None => false
  end.

(** Character [i] of the text node at [q] lies inside the selection: the
    selection starts at or before it and ends at or after it. *)
Definition charInSelection (s : selection) (q : path) (i : nat) : bool :=
  match bcmp (rstart s) (mkB q i), bcmp (mkB q (S i)) (rend s) with
  | Gt, _ => false
  | _, Gt => false
  | _, _ => true
  end.

Definition isSome {A : Type} (o : option A) : bool :=
  match o with Some _ => true | None => false end.

(** The full-coverage reading of the specification, word for word: every
    leaf text position in the selection has an ancestor element of the
    tag. *)
Definition spec_everyPositionWrapped (tagName : string) (ed : editor) : bool :=
  match sel ed with
  | None => false
  | Some s =>
      forallb (fun pn =>
                 match snd pn with
                 | Text data =>
                     forallb (fun i =>
                                implb (charInSelection s (fst pn) i)
                                      (isSome (findAncestor (content ed) (fst pn)
                                                            tagName)))
                             (seq 0 (String.length data))
                 | Elem _ _ _ _ => true
                 end)
              (descendants [] (content ed))
  end.

(** [q] is an inclusive ancestor of [p]. *)
Definition isPrefix (q p : path) : Prop := exists r, p = q ++ r.

(** An element without attributes or style, as markup gives it. *)
Definition el (t : string) (cs : list node) : node := Elem t [] EmptyString cs.

(** A forward selection from one boundary point to another. *)
Definition select (a : path) (ao : nat) (b : path) (bo : nat)
  : option selection :=
  Some (mkSel (mkB a ao) (mkB b bo) false).






(** The innerHTML round trip keeps the text of the anchor's block,
    whatever element receives the markup. *)
Definition blockKeepsText (h : host) (ed : editor) : Prop :=
  forall s block n t,
    sel ed = Some s ->
    getParentBlock (content ed) (anchorNode s) = Some block ->
    nodeAt (content ed) block = Some n ->
    textOfList (htmlRoundTrip h t (kidsOf n)) = textContent n.

(** The editor an outcome leaves, when the call stayed inside it. *)
Definition inside (o : outcome) : option editor :=
  match o with
  | Inside ed => Some ed
  | Outside _ _ _ => None
  end.

(** Newline normalisation of the HTML parser's input: a carriage return,
    with a line feed behind it or not, becomes one line feed. *)
Fixpoint normalizeNewlines (s : string) : string :=
  match s with
  | EmptyString => EmptyString
  | String c s' =>
      if Ascii.eqb c "013"%char then
        match s' with
        | String c' s'' =>
            if Ascii.eqb c' "010"%char
            then String "010"%char (normalizeNewlines s'')
            else String "010"%char (normalizeNewlines s')
        | EmptyString => String "010"%char EmptyString
        end
      else String c (normalizeNewlines s')
  end.

(** Text nodes next to each other serialise without a gap and parse back
    as one. *)
Fixpoint joinText (l : list node) : list node :=
  match l with
  | [] => []
  | Text a :: rest =>
      match joinText rest with
      | Text b :: rest' => Text (a ++ b) :: rest'
      | r => Text a :: r
      end
  | n :: rest => n :: joinText rest
  end.

Definition isEmptyText (n : node) : bool :=
  match n with
  | Text d => String.eqb d EmptyString
  | Elem _ _ _ _ => false
  end.

(** A child list as the parser rebuilds it from its serialisation: runs of
    text joined, empty text gone, newlines normalised. *)
Definition parsedChildren (l : list node) : list node :=
  map (fun n => match n with
                | Text d => Text (normalizeNewlines d)
                | Elem _ _ _ _ => n
                end)
      (filter (fun n => negb (isEmptyText n)) (joinText l)).

Fixpoint reparsed (n : node) : node :=
  match n with
  | Text _ => n
  | Elem t a al cs => Elem t a al (parsedChildren (map reparsed cs))
  end.

(** Sample documents, written as the markup below [editorContent]. *)
Module Sample.

(** The host of the sample documents: a browser page with the editor
    element attached to it, as [init] leaves it.  The innerHTML round trip
    is the one of content made of text and of elements the HTML parser
    neither moves nor reads as raw text, which covers the samples.  Of the
    style engine it has the alignment keywords left, right, center,
    justify, start and end, accepted in any letter case and read back in
    lower case, and the empty string, which unsets the property; any other
    value counts as ignored. *)
Definition browser : host :=
  mkHost (fun _ cs => parsedChildren (map reparsed cs))
         (fun value =>
            if String.eqb value EmptyString then Some EmptyString
            else if includes ["left"; "right"; "center"; "justify";
                              "start"; "end"] (toLowerCase value)
                 then Some (toLowerCase value)
                 else None)
         true.

(** [<ul><li>item one</li><li>item two</li></ul>], the selection
    covering "item" in the first item. *)
Definition twoItems : editor :=
  mkEd (el "DIV" [el "UL" [el "LI" [Text "item one"];
                           el "LI" [Text "item two"]]])
       (select [0; 0; 0] 0 [0; 0; 0] 4).

(** [<ul><li>item one</li><li>item two</li><li>item three</li></ul>],
    the selection covering the second item's text. *)
Definition threeItems : editor :=
  mkEd (el "DIV" [el "UL" [el "LI" [Text "item one"];
                           el "LI" [Text "item two"];
                           el "LI" [Text "item three"]]])
       (select [0; 1; 0] 0 [0; 1; 0] 8).

(** [<p>hello <strong>world</strong></p>], the cursor inside "world". *)
Definition cursorInStrong : editor :=
  mkEd (el "DIV" [el "P" [Text "hello "; el "STRONG" [Text "world"]]])
       (select [0; 1; 0] 2 [0; 1; 0] 2).

(** The same paragraph with "world" selected. *)
Definition worldSelected : editor :=
  mkEd (el "DIV" [el "P" [Text "hello "; el "STRONG" [Text "world"]]])
       (select [0; 1; 0] 0 [0; 1; 0] 5).

(** [<p>hello world</p>] with "world" selected. *)
Definition plainWorld : editor :=
  mkEd (el "DIV" [el "P" [Text "hello world"]])
       (select [0; 0] 6 [0; 0] 11).

(** [<p><strong>a</strong><strong>b</strong></p>], the selection running
    from the start of "a" to the end of "b". *)
Definition twoStrongs : editor :=
  mkEd (el "DIV" [el "P" [el "STRONG" [Text "a"]; el "STRONG" [Text "b"]]])
       (select [0; 0; 0] 0 [0; 1; 0] 1).

(** [<p><strong><strong>x</strong></strong></p>] with "x" selected. *)
Definition nestedStrong : editor :=
  mkEd (el "DIV" [el "P" [el "STRONG" [el "STRONG" [Text "x"]]]])
       (select [0; 0; 0; 0] 0 [0; 0; 0; 0] 1).

(** [<p><strong>hello</strong> world</p>], selected from offset 2 of
    "hello" to offset 3 of " world". *)
Definition crossBoundary : editor :=
  mkEd (el "DIV" [el "P" [el "STRONG" [Text "hello"]; Text " world"]])
       (select [0; 0; 0] 2 [0; 1] 3).

(** The three-item list, selected from offset 5 of the first item to
    offset 4 of the third. *)
Definition acrossItems : editor :=
  mkEd (el "DIV" [el "UL" [el "LI" [Text "item one"];
                           el "LI" [Text "item two"];
                           el "LI" [Text "item three"]]])
       (select [0; 0; 0] 5 [0; 2; 0] 4).

(** [<ul><li>only item</li></ul>], the selection in the item. *)
Definition onlyItem : editor :=
  mkEd (el "DIV" [el "UL" [el "LI" [Text "only item"]]])
       (select [0; 0; 0] 0 [0; 0; 0] 4).

(** [<p>a&#13;b</p>], the cursor behind the "a": the text holds a
    carriage return between the two letters. *)
Definition carriageReturn : editor :=
  mkEd (el "DIV" [el "P" [Text (String "a" (String "013" (String "b" EmptyString)))]])
       (select [0; 0] 1 [0; 0] 1).

(** [<p>hello <strong>world</strong></p>], selected from the start of the
    paragraph to the end of "world", the end point lying in the text of
    the STRONG. *)
Definition throughStrong : editor :=
  mkEd (el "DIV" [el "P" [Text "hello "; el "STRONG" [Text "world"]]])
       (select [0] 0 [0; 1; 0] 5).



End Sample.

(* ===================================================================== *)
(** ** wrapSelection and createLink *)
(* ===================================================================== *)

(** [wrapSelection] wraps the selection's own range.  When [wrapRange]
    returns, that range starts where the content was taken out and ends
    behind the inserted wrapper, both inside the wrapper's parent, which
    the cleanup never removes; so [range.commonAncestorContainer] is the
    wrapper's parent, and [selectNodeContents] puts the new selection
    around all of its children. *)
Definition wrapSelection (tagName : string)
  (attributes : option (list (string * string))) (ed : editor) : editor :=
  match sel ed with
  | None => ed
  | Some s =>
      if collapsed s then ed
      else
        let r := wrapRange (content ed) (rstart s) (rend s)
                           tagName attributes in
        let P := wrapperParent (content ed) (rstart s) (rend s) in
        let len := match nodeAt (w_tree r) P with
                   | Some n => List.length (kidsOf n)
                   | None => 0
                   end in
        mkEd (w_tree r) (Some (mkSel (mkB P 0) (mkB P len) false))
  end.

Definition createLink (url : string) (ed : editor) : editor :=
  wrapSelection "a" (Some [("href", url)]) ed.

(* ===================================================================== *)
(** ** Further vocabulary *)
(* ===================================================================== *)


(** Number of elements, the node included, whose tag satisfies [p]. *)
Fixpoint countElems (p : string -> bool) (n : node) : nat :=
  match n with
  | Text _ => 0
  | Elem t _ _ cs =>
      (if p t then 1 else 0)
      + (fix go (l : list node) : nat :=
           match l with
           | [] => 0
           | c :: l' => countElems p c + go l'
           end) cs
  end.

Fixpoint countList (p : string -> bool) (l : list node) : nat :=
  match l with
  | [] => 0
  | c :: l' => countElems p c + countList p l'
  end.

(* ===================================================================== *)
(** * Properties *)
(* ===================================================================== *)

(** ** Induction on nodes and basic facts *)

Section NodeInduction.
Variable P : node -> Prop.
Hypothesis HText : forall s, P (Text s).
Hypothesis HElem : forall t a al cs, Forall P cs -> P (Elem t a al cs).

Fixpoint node_rect' (n : node) : P n :=
  match n with
  | Text s => HText s
  | Elem t a al cs =>
      HElem t a al cs
        ((fix go (l : list node) : Forall P l :=
            match l with
            | [] => Forall_nil P
            | c :: l' => Forall_cons c (node_rect' c) (go l')
            end) cs)
  end.
End NodeInduction.

Lemma textContent_Elem t a al cs :
  textContent (Elem t a al cs) = textOfList cs.
Proof. induction cs as [|c cs IH]; simpl in *; [reflexivity | now rewrite IH]. Qed.

Lemma str_app_assoc (a b c : string) :
  ((a ++ b) ++ c)%string = (a ++ (b ++ c))%string.
Proof. induction a as [|x a IH]; simpl; [reflexivity | now rewrite IH]. Qed.

Lemma str_app_nil_r (a : string) : (a ++ "")%string = a.
Proof. induction a as [|x a IH]; simpl; [reflexivity | now rewrite IH]. Qed.

Lemma str_take_drop n s : (str_take n s ++ str_drop n s)%string = s.
Proof.
  revert s; induction n as [|n IH]; intros [|c s]; simpl; try reflexivity.
  now rewrite IH.
Qed.

Lemma textOfList_app l1 l2 :
  textOfList (l1 ++ l2) = (textOfList l1 ++ textOfList l2)%string.
Proof.
  induction l1 as [|c l1 IH]; simpl; [reflexivity|].
  now rewrite IH, str_app_assoc.
Qed.

Lemma textOfList_firstn_skipn n l :
  (textOfList (firstn n l) ++ textOfList (skipn n l))%string = textOfList l.
Proof. now rewrite <- textOfList_app, firstn_skipn. Qed.

Lemma nth_error_split_at {A} (l : list A) i c :
  nth_error l i = Some c -> l = firstn i l ++ c :: skipn (S i) l.
Proof.
  revert l; induction i as [|i IH]; intros [|x l] H; simpl in *; try discriminate.
  - now inversion H.
  - f_equal. now apply IH.
Qed.

Lemma textOfList_splice_nth f i cs :
  (forall c, nth_error cs i = Some c -> textOfList (f c) = textContent c) ->
  textOfList (splice_nth f i cs) = textOfList cs.
Proof.
  intros H. unfold splice_nth.
  destruct (nth_error cs i) as [c|] eqn:E; [|reflexivity].
  rewrite (nth_error_split_at cs i c E) at 3.
  rewrite !textOfList_app. simpl. now rewrite (H c eq_refl).
Qed.

(** Rewriting a node in place or among its siblings keeps the text of the
    whole tree when it keeps the text at that node. *)
Lemma textContent_updateAt f p : forall n,
  (forall c, nodeAt n p = Some c -> textContent (f c) = textContent c) ->
  textContent (updateAt f p n) = textContent n.
Proof.
  induction p as [|i p IH]; intros n H; simpl.
  - now apply H.
  - destruct n as [s|t a al cs]; [reflexivity|].
    rewrite !textContent_Elem. apply textOfList_splice_nth.
    intros c Hc. simpl. rewrite str_app_nil_r. apply IH.
    intros c' Hc'. apply H. simpl. now rewrite Hc.
Qed.

Lemma textContent_spliceAt f p : forall n,
  (forall c, nodeAt n p = Some c -> textOfList (f c) = textContent c) ->
  textContent (spliceAt f p n) = textContent n.
Proof.
  induction p as [|i p IH]; intros n H; simpl; [reflexivity|].
  destruct n as [s|t a al cs]; [reflexivity|].
  destruct p as [|j p'].
  - rewrite !textContent_Elem. apply textOfList_splice_nth.
    intros c Hc. apply H. simpl. now rewrite Hc.
  - rewrite !textContent_Elem. apply textOfList_splice_nth.
    intros c Hc. cbn [textOfList]. rewrite str_app_nil_r. apply IH.
    intros c' Hc'. apply H. cbn [nodeAt]. now rewrite Hc.
Qed.

(** What the walk towards the editor root returns. *)
Lemma walkUpRev_Some root cb : forall rp q,
  walkUpRev root rp cb = Some q ->
  exists n, nodeAt root q = Some n /\ cb q n = true /\ q <> [].
Proof.
  induction rp as [|i rp IH]; intros q H; simpl in H; [discriminate|].
  destruct (nodeAt root (rev rp ++ [i])) as [n|] eqn:E; [|discriminate].
  destruct (cb (rev rp ++ [i]) n) eqn:C.
  - inversion H; subst. exists n. repeat split; auto.
    destruct (rev rp); discriminate.
  - now apply IH.
Qed.

Lemma walkUp_Some root p cb q :
  walkUp root p cb = Some q ->
  exists n, nodeAt root q = Some n /\ cb q n = true /\ q <> [].
Proof. apply walkUpRev_Some. Qed.

Lemma findAncestor_Some root p tagName q :
  findAncestor root p tagName = Some q ->
  exists t a al cs,
    nodeAt root q = Some (Elem t a al cs) /\ t = toUpperCase tagName /\ q <> [].
Proof.
  intros H. apply walkUp_Some in H as (n & Hn & Hc & Hq).
  unfold isElementWithTag in Hc. apply andb_prop in Hc as [He Ht].
  destruct n as [s|t a al cs]; [discriminate|].
  apply String.eqb_eq in Ht. simpl in Ht. now exists t, a, al, cs.
Qed.

Lemma parent_index (q : path) : q <> [] -> q = parentPath q ++ [indexOf q].
Proof. intros H. unfold parentPath, indexOf. now apply app_removelast_last. Qed.

Lemma nodeAt_app root p q :
  nodeAt root (p ++ q) =
  match nodeAt root p with Some n => nodeAt n q | None => None end.
Proof.
  revert root; induction p as [|i p IH]; intros root; simpl; [reflexivity|].
  destruct root as [s|t a al cs]; [reflexivity|].
  destruct (nth_error cs i); [apply IH | reflexivity].
Qed.

Lemma nth_error_splice_single g i cs c :
  nth_error cs i = Some c ->
  nth_error (splice_nth (fun x => [g x]) i cs) i = Some (g c).
Proof.
  intros H. unfold splice_nth. rewrite H.
  assert (Hl : List.length (firstn i cs) = i).
  { apply firstn_length_le. apply Nat.lt_le_incl.
    apply nth_error_Some. now rewrite H. }
  rewrite nth_error_app2 by lia. rewrite Hl, Nat.sub_diag. reflexivity.
Qed.

Lemma spliceAt_deep f i p t a al cs :
  p <> [] ->
  spliceAt f (i :: p) (Elem t a al cs)
  = Elem t a al (splice_nth (fun c => [spliceAt f p c]) i cs).
Proof. destruct p; [congruence | reflexivity]. Qed.

(** The parent of a spliced node afterwards. *)
Lemma nodeAt_spliceAt f m : forall P root t a al cs,
  nodeAt root P = Some (Elem t a al cs) ->
  nodeAt (spliceAt f (P ++ [m]) root) P
  = Some (Elem t a al (splice_nth f m cs)).
Proof.
  induction P as [|i P IH]; intros root t a al cs H.
  - simpl in *. inversion H; subst. reflexivity.
  - simpl in H. destruct root as [s|t0 a0 al0 cs0]; [discriminate|].
    destruct (nth_error cs0 i) as [c0|] eqn:E; [|discriminate].
    change ((i :: P) ++ [m]) with (i :: (P ++ [m])).
    rewrite spliceAt_deep by (destruct P; discriminate).
    cbn [nodeAt]. rewrite (nth_error_splice_single _ _ _ _ E).
    now apply IH.
Qed.

(** ** C8: no selection, no effect *)

(** C8.  With no active selection (a null selection or one without
    ranges) each entry point, [toggleElement], [setBlockType],
    [setAlignment], [toggleList] and [insertFigure], returns normally and
    hands back the editor it was given, tree and selection unchanged,
    whatever the host. *)
Theorem C8_no_selection_is_noop :
  forall (h : host) (t : node) (arg : string),
    toggleElement arg (mkEd t None) = mkEd t None /\
    setBlockType h arg (mkEd t None) = Inside (mkEd t None) /\
    setAlignment h arg (mkEd t None) = mkEd t None /\
    toggleList h arg (mkEd t None) = Inside (mkEd t None) /\
    insertFigure arg (mkEd t None) = mkEd t None.
Proof. intros h t arg. repeat split; reflexivity. Qed.

(** ** C9: toggling with a collapsed selection *)

Lemma isInElement_findAncestor ed s tagName :
  sel ed = Some s ->
  isInElement ed tagName =
  match findAncestor (content ed) (anchorNode s) tagName with
  | Some _ => true | None => false end.
Proof. intros H. unfold isInElement. now rewrite H. Qed.

(** C9.  With a collapsed selection, [toggleElement] looks for the nearest
    element of the tag at or above the cursor, below the editor root.  If
    there is one (ON), the tree changes exactly there: among the children
    of its parent that element is replaced by its own children, in order,
    and the text of the tree is the same; if there is none (OFF), the
    editor comes back unchanged. *)
Theorem C9_collapsed_toggle :
  forall (ed : editor) (s : selection) (tagName : string),
    sel ed = Some s ->
    collapsed s = true ->
    (forall q, findAncestor (content ed) (anchorNode s) tagName = Some q ->
       exists t a al cs et ea eal ekids,
         nodeAt (content ed) (parentPath q) = Some (Elem t a al cs) /\
         nth_error cs (indexOf q) = Some (Elem et ea eal ekids) /\
         et = toUpperCase tagName /\
         content (toggleElement tagName ed)
           = spliceAt kidsOf q (content ed) /\
         nodeAt (content (toggleElement tagName ed)) (parentPath q)
           = Some (Elem t a al (firstn (indexOf q) cs ++ ekids
                                  ++ skipn (S (indexOf q)) cs)) /\
         textContent (content (toggleElement tagName ed))
           = textContent (content ed)) /\
    (findAncestor (content ed) (anchorNode s) tagName = None ->
       toggleElement tagName ed = ed).
Proof.
  intros ed s tagName Hs Hc. split.
  - intros q Hq.
    destruct (findAncestor_Some _ _ _ _ Hq) as (et & ea & eal & ekids & Hn & Ht & Hne).
    pose proof (parent_index q Hne) as Hpi.
    assert (Hn' := Hn). rewrite Hpi, nodeAt_app in Hn'.
    destruct (nodeAt (content ed) (parentPath q)) as [par|] eqn:Hp; [|discriminate].
    destruct par as [x|t a al cs]; [discriminate|].
    simpl in Hn'.
    destruct (nth_error cs (indexOf q)) as [c|] eqn:Hc'; [|discriminate].
    inversion Hn'; subst c. clear Hn'.
    assert (Htog : content (toggleElement tagName ed) = spliceAt kidsOf q (content ed)).
    { unfold toggleElement. rewrite Hs, Hc.
      rewrite (isInElement_findAncestor ed s tagName Hs), Hq.
      unfold unwrapSelection. rewrite Hs, Hq, Hn. reflexivity. }
    exists t, a, al, cs, et, ea, eal, ekids.
    repeat split; auto.
    + rewrite Htog. rewrite Hpi at 1.
      rewrite (nodeAt_spliceAt kidsOf (indexOf q) (parentPath q) _ _ _ _ _ Hp).
      unfold splice_nth. rewrite Hc'. reflexivity.
    + rewrite Htog. apply textContent_spliceAt.
      intros c Hcn. rewrite Hn in Hcn. inversion Hcn; subst c.
      simpl kidsOf. now rewrite textContent_Elem.
  - intros Hnone. unfold toggleElement. rewrite Hs, Hc.
    rewrite (isInElement_findAncestor ed s tagName Hs), Hnone. reflexivity.
Qed.

(** ** C10: the blocks found in a selection *)

(** The nodes the tree walker visits are the proper descendants, each at
    the path it is listed with. *)
Lemma descendants_spec : forall n p q m,
  In (q, m) (descendants p n) ->
  exists rel, rel <> [] /\ q = p ++ rel /\ nodeAt n rel = Some m.
Proof.
  induction n as [s|t a al cs IH] using node_rect'; intros p q m H.
  - destruct H.
  - simpl in H.
    assert (G : forall l i,
      Forall (fun n => forall p q m, In (q, m) (descendants p n) ->
                exists rel, rel <> [] /\ q = p ++ rel /\ nodeAt n rel = Some m) l ->
      (forall k c, nth_error l k = Some c -> nth_error cs (i + k) = Some c) ->
      In (q, m)
        ((fix go (i : nat) (l : list node) : list (path * node) :=
            match l with
            | [] => []
            | c :: l' => (p ++ [i], c) :: descendants (p ++ [i]) c ++ go (S i) l'
            end) i l) ->
      exists rel, rel <> [] /\ q = p ++ rel /\
                  nodeAt (Elem t a al cs) rel = Some m).
    { induction l as [|c l IHl]; intros i HF Hnth HIn; [destruct HIn|].
      inversion HF as [|? ? Hc HF']; subst.
      destruct HIn as [HIn|HIn].
      - inversion HIn; subst. exists [i]. repeat split; [discriminate|].
        simpl. specialize (Hnth 0 _ eq_refl). rewrite Nat.add_0_r in Hnth.
        now rewrite Hnth.
      - apply in_app_or in HIn as [HIn|HIn].
        + destruct (Hc _ _ _ HIn) as (rel & Hne & Hq & Hrel).
          exists (i :: rel). repeat split; [discriminate| |].
          * rewrite Hq, <- app_assoc. reflexivity.
          * simpl. specialize (Hnth 0 c eq_refl). rewrite Nat.add_0_r in Hnth.
            now rewrite Hnth.
        + apply (IHl (S i)); auto.
          intros k c' Hk. specialize (Hnth (S k) c' Hk).
          now rewrite Nat.add_succ_r in Hnth. }
    apply (G cs 0 IH); auto.
Qed.

Lemma includes_In l s : includes l s = true -> In s l.
Proof.
  unfold includes. intros H. apply existsb_exists in H as (x & Hx & He).
  apply String.eqb_eq in He. now subst.
Qed.


(** ** C3: extracting an item from its list *)

Lemma nodeAt_parent root q n :
  nodeAt root q = Some n -> q <> [] ->
  exists t a al cs,
    nodeAt root (parentPath q) = Some (Elem t a al cs) /\
    nth_error cs (indexOf q) = Some n.
Proof.
  intros H Hne. rewrite (parent_index q Hne), nodeAt_app in H.
  destruct (nodeAt root (parentPath q)) as [[x|t a al cs]|]; try discriminate.
  simpl in H. destruct (nth_error cs (indexOf q)) as [c|] eqn:E; [|discriminate].
  inversion H; subst. now exists t, a, al, cs.
Qed.

Lemma children_split cs k c :
  nth_error cs k = Some c -> isElement c = true ->
  children cs = children (firstn k cs) ++ c :: children (skipn (S k) cs).
Proof.
  intros H He. rewrite (nth_error_split_at cs k c H) at 1.
  unfold children. rewrite filter_app. simpl. now rewrite He.
Qed.

Lemma removeNth_middle {A} (l1 l2 : list A) x :
  removeNth (List.length l1) (l1 ++ x :: l2) = l1 ++ l2.
Proof.
  unfold removeNth.
  rewrite firstn_app, firstn_all, Nat.sub_diag, firstn_O, app_nil_r.
  replace (S (List.length l1)) with (List.length l1 + 1) by lia.
  rewrite skipn_app, skipn_all2 by lia.
  replace (List.length l1 + 1 - List.length l1) with 1 by lia.
  reflexivity.
Qed.

Lemma nth_error_middle {A} (l1 l2 : list A) x :
  nth_error (l1 ++ x :: l2) (List.length l1) = Some x.
Proof. rewrite nth_error_app2, Nat.sub_diag by lia. reflexivity. Qed.

Lemma string_eqb_neq a b : a <> b -> String.eqb a b = false.
Proof. intros H. now apply String.eqb_neq. Qed.

(** C3.  The selection is anchored in a list item (the item is the
    nearest block of the anchor) whose list, a UL or OL with [N] element
    children, is not the editor root, and the requested tag is not the
    item's own.  Then [setBlockType] stays inside the editor and replaces
    the list, among its siblings, by: the new block alone when [N = 1];
    the new block and the list for the first item; the list and the new
    block for the last item; the list, the new block and a second list of
    the same kind for an item in between.  The new block carries the
    item's inner content: its children are what the host parses from the
    item's [innerHTML].  The lists left hold, together and in order, the
    [N - 1] other items unchanged. *)
Theorem C3_list_item_extraction :
  forall (h : host) (ed : editor) (s : selection) (tagName : string)
         (block : path) ba bal bkids lt la lal lkids,
    sel ed = Some s ->
    getParentBlock (content ed) (anchorNode s) = Some block ->
    nodeAt (content ed) block = Some (Elem "LI" ba bal bkids) ->
    nodeAt (content ed) (parentPath block) = Some (Elem lt la lal lkids) ->
    lt = "UL" \/ lt = "OL" ->
    parentPath block <> [] ->
    toLowerCase tagName <> "li" ->
    let items := children lkids in
    let N := List.length items in
    let i := childIndex (indexOf block) lkids in
    let newBlock :=
      Elem (toUpperCase tagName) [] EmptyString
           (htmlRoundTrip h (toUpperCase tagName) bkids) in
    exists repl ed',
      setBlockType h tagName ed = Inside ed' /\
      content ed'
        = spliceAt (fun _ => repl) (parentPath block) (content ed) /\
      (exists pt pa pal pcs,
          nodeAt (content ed) (parentPath (parentPath block))
            = Some (Elem pt pa pal pcs) /\
          nth_error pcs (indexOf (parentPath block))
            = Some (Elem lt la lal lkids) /\
          nodeAt (content ed')
                 (parentPath (parentPath block))
            = Some (Elem pt pa pal
                      (firstn (indexOf (parentPath block)) pcs ++ repl
                       ++ skipn (S (indexOf (parentPath block))) pcs))) /\
      1 <= N /\
      nth_error items i = Some (Elem "LI" ba bal bkids) /\
      List.length (removeNth i items) = N - 1 /\
      ((N = 1 /\ repl = [newBlock]) \/
       (1 < N /\ i = 0 /\
        exists rest, repl = [newBlock; Elem lt la lal rest] /\
                     children rest = removeNth i items) \/
       (1 < N /\ i = N - 1 /\
        exists rest, repl = [Elem lt la lal rest; newBlock] /\
                     children rest = removeNth i items) \/
       (0 < i /\ i < N - 1 /\
        exists l1 l2,
          repl = [Elem lt la lal l1; newBlock; Elem lt [] EmptyString l2] /\
          children l1 ++ children l2 = removeNth i items /\
          children l1 <> [] /\ children l2 <> [])).
Proof.
  intros h ed s tagName block ba bal bkids lt la lal lkids
         Hs Hb Hn Hl Hlt Hpp Htag items N i newBlock.
  assert (Hbne : block <> []).
  { unfold getParentBlock, findParentBlock in Hb.
    apply walkUp_Some in Hb as (? & _ & _ & ?). assumption. }
  destruct (nodeAt_parent _ _ _ Hn Hbne) as (t' & a' & al' & cs' & Hp' & Hk).
  rewrite Hl in Hp'. inversion Hp'; subst t' a' al' cs'. clear Hp'.
  set (k := indexOf block) in *.
  pose proof (children_split lkids k _ Hk eq_refl) as Hsplit.
  fold items in Hsplit.
  assert (Hi : i = List.length (children (firstn k lkids))) by reflexivity.
  assert (HN : N = i + 1 + List.length (children (skipn (S k) lkids))).
  { unfold N. rewrite Hsplit, length_app. simpl. lia. }
  assert (Hrem : removeNth i items
                 = children (firstn k lkids) ++ children (skipn (S k) lkids)).
  { rewrite Hsplit, Hi. apply removeNth_middle. }
  assert (Hwithout : children (firstn k lkids ++ skipn (S k) lkids)
                     = removeNth i items).
  { rewrite Hrem. unfold children. now rewrite filter_app. }
  destruct (nodeAt_parent _ _ _ Hl Hpp) as (pt & pa & pal & pcs & Hgp & Hm).
  assert (Hlist : String.eqb lt "UL" || String.eqb lt "OL" = true).
  { destruct Hlt; subst; reflexivity. }
  assert (Hup : toUpperCase lt = lt) by (destruct Hlt; subst; reflexivity).
  assert (Hres : exists ed',
            setBlockType h tagName ed = Inside ed' /\
            content ed'
            = spliceAt (fun _ => fst (extractItem newBlock (Elem lt la lal lkids) k))
                       (parentPath block) (content ed)).
  { unfold setBlockType. rewrite Hs, Hb, Hn.
    change (toLowerCase "LI") with "li".
    rewrite (string_eqb_neq "li" (toLowerCase tagName)) by congruence.
    change (String.eqb "LI" "LI") with true. cbv iota.
    rewrite Hl. cbn [tagOf]. rewrite Hlist.
    destruct (parentPath block) as [|x r] eqn:Epp; [congruence|].
    unfold extractFromList. rewrite Epp. fold newBlock. fold k.
    destruct (extractItem newBlock (Elem lt la lal lkids) k) as [repl pos].
    eexists. split; reflexivity. }
  destruct Hres as (ed' & Hin & Hres).
  exists (fst (extractItem newBlock (Elem lt la lal lkids) k)), ed'.
  split; [exact Hin|]. split; [exact Hres|]. split.
  { exists pt, pa, pal, pcs. repeat split; auto.
    rewrite Hres. rewrite (parent_index _ Hpp) at 1.
    rewrite (nodeAt_spliceAt _ _ _ _ _ _ _ _ Hgp).
    unfold splice_nth. now rewrite Hm. }
  split; [lia|]. split.
  { rewrite Hsplit, Hi. apply nth_error_middle. }
  split.
  { rewrite Hrem, length_app. lia. }
  unfold extractItem.
  change (List.length (children lkids)) with N.
  change (childIndex k lkids) with i.
  destruct (N =? 1) eqn:E1.
  { apply Nat.eqb_eq in E1. left. now split. }
  apply Nat.eqb_neq in E1.
  destruct (i =? 0) eqn:E2.
  { apply Nat.eqb_eq in E2. right; left. repeat split; [lia|auto|].
    eexists. split; [reflexivity | exact Hwithout]. }
  apply Nat.eqb_neq in E2.
  destruct (i =? N - 1) eqn:E3.
  { apply Nat.eqb_eq in E3. right; right; left. repeat split; [lia|auto|].
    eexists. split; [reflexivity | exact Hwithout]. }
  apply Nat.eqb_neq in E3.
  right; right; right. repeat split; try lia.
  exists (firstn k lkids), (skipn (S k) lkids). rewrite Hup.
  repeat split; auto.
  - intros Hnil. rewrite Hnil in Hi. simpl in Hi. lia.
  - intros Hnil. rewrite Hnil in HN. simpl in HN. lia.
Qed.

(** ** C4: converting a list to the other kind *)

Lemma lastElementIndex_None : forall cs i k c,
  lastElementIndex cs i = None -> nth_error cs k = Some c ->
  isElement c = false.
Proof.
  induction cs as [|x cs IH]; intros i k c E Hk; [destruct k; discriminate|].
  simpl in E. destruct (lastElementIndex cs (S i)) eqn:E2; [discriminate|].
  destruct k as [|k]; simpl in Hk.
  - inversion Hk; subst x. destruct (isElement c); [discriminate | reflexivity].
  - now apply (IH (S i) k).
Qed.

Lemma lastElementIndex_spec : forall cs i j,
  lastElementIndex cs i = Some j ->
  i <= j /\
  exists c, nth_error cs (j - i) = Some c /\ isElement c = true /\
    forall k c', j - i < k -> nth_error cs k = Some c' -> isElement c' = false.
Proof.
  induction cs as [|c cs IH]; intros i j H; simpl in H; [discriminate|].
  destruct (lastElementIndex cs (S i)) as [j'|] eqn:E.
  - inversion H; subst j'. destruct (IH _ _ E) as (Hle & c0 & Hn & He & Hlast).
    split; [lia|]. exists c0.
    replace (j - i) with (S (j - S i)) by lia. repeat split; auto.
    intros k c' Hk Hc'. destruct k as [|k]; [lia|].
    simpl in Hc'. apply (Hlast k c'); [lia | assumption].
  - destruct (isElement c) eqn:He; [|discriminate].
    inversion H; subst j. split; [lia|]. exists c.
    rewrite Nat.sub_diag. repeat split; auto.
    intros k c' Hk Hc'. destruct k as [|k]; [lia|]. simpl in Hc'.
    now apply (lastElementIndex_None cs (S i) k).
Qed.

(** In the converting branch every child of the old list moves to the new
    one, unchanged and in order, and the selection is put at the end of
    the new list's last element child, whichever item held the anchor. *)
Lemma toggleList_convert :
  forall (h : host) (ed : editor) (s : selection) (type : string)
         (block : path) ba bal bkids lt la lal lkids,
    sel ed = Some s ->
    getParentBlock (content ed) (anchorNode s) = Some block ->
    nodeAt (content ed) block = Some (Elem "LI" ba bal bkids) ->
    nodeAt (content ed) (parentPath block) = Some (Elem lt la lal lkids) ->
    parentPath block <> [] ->
    toLowerCase lt <> type ->
    exists j item,
      lastElementIndex lkids 0 = Some j /\
      nth_error lkids j = Some item /\
      (forall k c, j < k -> nth_error lkids k = Some c -> isElement c = false) /\
      toggleList h type ed
      = Inside
          (mkEd (spliceAt
                   (fun _ => [Elem (toUpperCase type) [] EmptyString lkids])
                   (parentPath block) (content ed))
                (Some (caretAtEnd (parentPath block ++ [j]) item))).
Proof.
  intros h ed s type block ba bal bkids lt la lal lkids Hs Hb Hn Hl Hpp Hty.
  assert (Hbne : block <> []).
  { unfold getParentBlock, findParentBlock in Hb.
    apply walkUp_Some in Hb as (? & _ & _ & ?). assumption. }
  destruct (nodeAt_parent _ _ _ Hn Hbne) as (t' & a' & al' & cs' & Hp' & Hk).
  rewrite Hl in Hp'. inversion Hp'; subst t' a' al' cs'. clear Hp'.
  assert (Hex : exists j, lastElementIndex lkids 0 = Some j).
  { clear - Hk. revert Hk. generalize (indexOf block) as k. generalize 0 as i.
    induction lkids as [|c cs IH]; intros i k Hk; [destruct k; discriminate|].
    simpl. destruct k as [|k]; simpl in Hk.
    - inversion Hk; subst c. destruct (lastElementIndex cs (S i)); simpl; eauto.
    - destruct (IH (S i) k Hk) as [j Hj]. rewrite Hj. eauto. }
  destruct Hex as [j Hj].
  destruct (lastElementIndex_spec _ _ _ Hj) as (_ & item & Hitem & _ & Hlast).
  rewrite Nat.sub_0_r in Hitem, Hlast.
  exists j, item. repeat split; auto.
  unfold toggleList. rewrite Hs, Hb, Hn.
  change (String.eqb "LI" "LI") with true. cbv iota.
  rewrite Hl. cbn [tagOf kidsOf].
  rewrite (string_eqb_neq _ _ Hty).
  destruct (parentPath block) as [|x r] eqn:Epp; [congruence|].
  now rewrite Hj, Hitem.
Qed.

(** C4 (the code at the failing input).  In
    [<ul><li>item one</li><li>item two</li></ul>] with the selection in
    the first item, [toggleList('ol')] turns the list into an OL holding
    the same two items, and puts the selection at the end of the second
    item, index 1, while the anchor's item had index 0; so on every
    host. *)
Theorem C4_convert_reanchors_to_last_item :
  forall h : host,
    getParentBlock (content Sample.twoItems) [0; 0; 0] = Some [0; 0] /\
    toggleList h "ol" Sample.twoItems
    = Inside (mkEd (el "DIV" [el "OL" [el "LI" [Text "item one"];
                                       el "LI" [Text "item two"]]])
                   (select [0; 1] 1 [0; 1] 1)).
Proof. intros h. split; reflexivity. Qed.

(** ** Text conservation of the pieces of wrapRange *)

Lemma textOfList_flat_map (f : node -> list node) l :
  Forall (fun c => textOfList (f c) = textContent c) l ->
  textOfList (flat_map f l) = textOfList l.
Proof.
  induction 1 as [|c l Hc _ IH]; simpl; [reflexivity|].
  now rewrite textOfList_app, Hc, IH.
Qed.

Lemma textOfList_stripTag tag : forall n,
  textOfList (stripTag tag n) = textContent n.
Proof.
  induction n as [s|t a al cs IH] using node_rect'; simpl.
  - now rewrite str_app_nil_r.
  - fold (textOfList cs). rewrite <- (textOfList_flat_map (stripTag tag) cs IH).
    destruct (String.eqb t tag); simpl; [reflexivity|].
    rewrite str_app_nil_r.
    change (textContent (Elem t a al (flat_map (stripTag tag) cs))
            = textOfList (flat_map (stripTag tag) cs)).
    apply textContent_Elem.
Qed.

Lemma textOfList_removeTags frag tagName :
  textOfList (removeTagsFromFragment frag tagName) = textOfList frag.
Proof.
  apply textOfList_flat_map, Forall_forall. intros c _.
  apply textOfList_stripTag.
Qed.

Lemma pruneTag_Elem tag t a al cs :
  pruneTag tag (Elem t a al cs) = Elem t a al (pruneKids tag cs).
Proof.
  simpl. f_equal. unfold pruneKids.
  induction cs as [|c cs IH]; simpl; [reflexivity|].
  destruct (doomed tag c); simpl; now rewrite IH.
Qed.

Lemma doomed_text tag c : doomed tag c = true -> textContent c = EmptyString.
Proof.
  unfold doomed. intros H. apply andb_prop in H as [_ H].
  now apply String.eqb_eq in H.
Qed.

Lemma textContent_pruneTag tag : forall n,
  textContent (pruneTag tag n) = textContent n.
Proof.
  induction n as [s|t a al cs IH] using node_rect'; [reflexivity|].
  rewrite pruneTag_Elem, !textContent_Elem. unfold pruneKids.
  induction IH as [|c cs Hc _ IHcs]; simpl; [reflexivity|].
  destruct (doomed tag c) eqn:D; simpl.
  - now rewrite IHcs, (doomed_text _ _ D).
  - now rewrite Hc, IHcs.
Qed.

Lemma textContent_cleanup n :
  textContent (cleanupEmptyElements n) = textContent n.
Proof.
  unfold cleanupEmptyElements. generalize INLINE_TAGS as tags. intros tags.
  revert n. induction tags as [|t ts IH]; intros n; simpl; [reflexivity|].
  now rewrite IH, textContent_pruneTag.
Qed.

Lemma textContent_extractFrom : forall p off n,
  (textContent (fst (extractFrom p off n))
   ++ textContent (snd (extractFrom p off n)))%string = textContent n.
Proof.
  induction p as [|i p IH]; intros off [s|t a al cs]; cbn [extractFrom fst snd];
    try (cbn [textContent]; apply str_take_drop).
  - rewrite !textContent_Elem. apply textOfList_firstn_skipn.
  - destruct (nth_error cs i) as [c|] eqn:E.
    + specialize (IH off c). destruct (extractFrom p off c) as [kept clone].
      cbn [fst snd] in *. rewrite !textContent_Elem.
      rewrite (nth_error_split_at cs i c E) at 3.
      rewrite !textOfList_app. cbn [textOfList].
      rewrite <- IH, !str_app_nil_r, !str_app_assoc. reflexivity.
    + cbn [fst snd]. rewrite (textContent_Elem t a al []). simpl.
      apply str_app_nil_r.
Qed.

Lemma textContent_extractTo : forall p off n,
  (textContent (fst (extractTo p off n))
   ++ textContent (snd (extractTo p off n)))%string = textContent n.
Proof.
  induction p as [|i p IH]; intros off [s|t a al cs]; cbn [extractTo fst snd];
    try (cbn [textContent]; apply str_take_drop).
  - rewrite !textContent_Elem. apply textOfList_firstn_skipn.
  - destruct (nth_error cs i) as [c|] eqn:E.
    + specialize (IH off c). destruct (extractTo p off c) as [clone kept].
      cbn [fst snd] in *. rewrite !textContent_Elem.
      rewrite (nth_error_split_at cs i c E) at 3.
      rewrite !textOfList_app. cbn [textOfList].
      rewrite <- IH, !str_app_nil_r, !str_app_assoc. reflexivity.
    + cbn [fst snd]. rewrite (textContent_Elem t a al []). reflexivity.
Qed.

Lemma textOfList_extractHead sp so cs :
  let '(before, fhead, a) := extractHead sp so cs in
  (textOfList before ++ textOfList fhead ++ textOfList (skipn a cs))%string
  = textOfList cs.
Proof.
  unfold extractHead. destruct sp as [|i r].
  - simpl. apply textOfList_firstn_skipn.
  - destruct (nth_error cs i) as [F|] eqn:E.
    + pose proof (textContent_extractFrom r so F) as H.
      destruct (extractFrom r so F) as [kept clone]. cbn [fst snd] in H.
      rewrite (nth_error_split_at cs i F E) at 3.
      rewrite !textOfList_app. cbn [textOfList].
      rewrite <- H, !str_app_nil_r, !str_app_assoc. reflexivity.
    + rewrite skipn_all. simpl. now rewrite str_app_nil_r.
Qed.

(** Extraction splits the text of the children in three, in order. *)
Lemma textOfList_extractKids sp so ep eo cs :
  let '(before, fragment, after) := extractKids sp so ep eo cs in
  (textOfList before ++ textOfList fragment ++ textOfList after)%string
  = textOfList cs.
Proof.
  unfold extractKids.
  pose proof (textOfList_extractHead sp so cs) as H.
  destruct (extractHead sp so cs) as [[before fhead] a].
  set (cnt := containedCount ep eo a).
  rewrite <- (textOfList_firstn_skipn cnt (skipn a cs)) in H.
  destruct ep as [|j r].
  - rewrite textOfList_app, !str_app_assoc. exact H.
  - destruct (skipn cnt (skipn a cs)) as [|L after] eqn:E.
    + rewrite textOfList_app. simpl in *. rewrite !str_app_assoc. exact H.
    + pose proof (textContent_extractTo r eo L) as HL.
      destruct (extractTo r eo L) as [clone kept]. cbn [fst snd] in HL.
      rewrite !textOfList_app. cbn [textOfList] in *.
      rewrite <- HL in H. rewrite str_app_nil_r, !str_app_assoc in *. exact H.
Qed.

Lemma textContent_makeWrapper tagName attributes fragment :
  textContent (makeWrapper tagName attributes fragment) = textOfList fragment.
Proof.
  unfold makeWrapper. rewrite textContent_Elem. apply textOfList_removeTags.
Qed.

Lemma textContent_cleanupAt P w t1 trB trN :
  textContent (w_tree (cleanupAt P w t1 trB trN)) = textContent t1.
Proof.
  unfold cleanupAt. destruct (nodeAt t1 P) as [parent|]; [|reflexivity].
  cbn [w_tree]. apply textContent_updateAt.
  intros c _. apply textContent_cleanup.
Qed.

(** [wrapRange] conserves the text of the tree, whatever the range. *)
Lemma textContent_wrapRange root s e tagName attributes :
  textContent (w_tree (wrapRange root s e tagName attributes))
  = textContent root.
Proof.
  unfold wrapRange.
  destruct (nodeAt root (commonAncestorContainer s e)) as [[data|t a al cs]|] eqn:E;
    [| |reflexivity].
  - rewrite textContent_cleanupAt. apply textContent_spliceAt.
    intros c Hc. rewrite E in Hc. inversion Hc; subst c.
    cbn [textOfList]. rewrite textContent_makeWrapper. cbn [textOfList textContent].
    rewrite !str_app_nil_r.
    rewrite <- (str_take_drop (offset s) data) at 4.
    rewrite <- (str_take_drop (offset e - offset s) (str_drop (offset s) data)) at 3.
    reflexivity.
  - pose proof (textOfList_extractKids
                  (skipn (List.length (commonAncestorContainer s e)) (container s))
                  (offset s)
                  (skipn (List.length (commonAncestorContainer s e)) (container e))
                  (offset e) cs) as H.
    destruct (extractKids _ _ _ _ cs) as [[before fragment] after].
    rewrite textContent_cleanupAt. apply textContent_updateAt.
    intros c Hc. rewrite E in Hc. inversion Hc; subst c.
    rewrite !textContent_Elem, textOfList_app. cbn [textOfList].
    rewrite textContent_makeWrapper. exact H.
Qed.

(** ** C1: text conservation of the mutations *)

Lemma textContent_wrapBlock tagName attributes n i block0 st :
  textContent (l_tree (wrapBlock tagName attributes n i block0 st))
  = textContent (l_tree st).
Proof.
  unfold wrapBlock.
  destruct (l_trackN st block0) as [block|]; [|reflexivity].
  destruct (nodeAt (l_tree st) block) as [bn|]; [|reflexivity].
  destruct (blockRange st i n block bn) as [bs be].
  destruct (boundary_eqb bs be); [reflexivity|].
  cbn [l_tree]. apply textContent_wrapRange.
Qed.

Lemma textContent_wrapBlocks tagName attributes n : forall todo st,
  textContent (l_tree (wrapBlocks tagName attributes n todo st))
  = textContent (l_tree st).
Proof.
  induction todo as [|[i b] todo IH]; intros st; simpl; [reflexivity|].
  now rewrite IH, textContent_wrapBlock.
Qed.

Lemma textContent_wrapSelectionPerBlock tagName attributes ed :
  textContent (content (wrapSelectionPerBlock tagName attributes ed))
  = textContent (content ed).
Proof.
  unfold wrapSelectionPerBlock.
  destruct (sel ed) as [s|]; [|reflexivity].
  destruct (collapsed s); [reflexivity|].
  destruct (List.length (getBlocksInSelection (content ed) (rstart s) (rend s)) <=? 1).
  - cbn [content]. apply textContent_wrapRange.
  - match goal with
    | |- context [wrapBlocks ?a ?b ?c ?d ?e] =>
        pose proof (textContent_wrapBlocks a b c d e) as H;
        destruct (wrapBlocks a b c d e) as [t ls le tr lf ll]
    end.
    cbn [l_tree l_first l_last] in *.
    destruct lf, ll; exact H.
Qed.

Lemma textContent_unwrapSelection tagName ed :
  textContent (content (unwrapSelection tagName ed)) = textContent (content ed).
Proof.
  unfold unwrapSelection.
  destruct (sel ed) as [s|]; [|reflexivity].
  destruct (findAncestor (content ed) (anchorNode s) tagName) as [q|] eqn:Hq;
    [|reflexivity].
  destruct (findAncestor_Some _ _ _ _ Hq) as (t & a & al & cs & Hn & _ & _).
  rewrite Hn. cbn [content]. apply textContent_spliceAt.
  intros c Hc. rewrite Hn in Hc. inversion Hc; subst c.
  cbn [kidsOf]. now rewrite textContent_Elem.
Qed.

Lemma textContent_toggleElement tagName ed :
  textContent (content (toggleElement tagName ed)) = textContent (content ed).
Proof.
  unfold toggleElement.
  destruct (sel ed) as [s|]; [|reflexivity].
  destruct (collapsed s).
  - destruct (isInElement ed tagName);
      [apply textContent_unwrapSelection | reflexivity].
  - destruct (isSelectionFullyWrapped tagName ed);
      [apply textContent_unwrapSelection
      | apply textContent_wrapSelectionPerBlock].
Qed.

Lemma listsHoldItems_nodeAt : forall p root n,
  listsHoldItems root = true -> nodeAt root p = Some n ->
  listsHoldItems n = true.
Proof.
  induction p as [|i p IH]; intros root n H Hn; simpl in Hn.
  - now inversion Hn; subst.
  - destruct root as [s|t a al cs]; [discriminate|].
    destruct (nth_error cs i) as [c|] eqn:E; [|discriminate].
    apply (IH c); auto. simpl in H. apply andb_prop in H as [_ H].
    rewrite forallb_forall in H. apply H. eapply nth_error_In; eauto.
Qed.

Lemma children_all_elements cs :
  forallb isListItem cs = true -> children cs = cs.
Proof.
  induction cs as [|c cs IH]; simpl; intros H; [reflexivity|].
  apply andb_prop in H as [Hc H]. unfold isListItem in Hc.
  apply andb_prop in Hc as [Hc _]. rewrite Hc. now rewrite IH.
Qed.

Lemma forallb_firstn {A} (f : A -> bool) k l :
  forallb f l = true -> forallb f (firstn k l) = true.
Proof.
  intros H. rewrite <- (firstn_skipn k l), forallb_app in H.
  now apply andb_prop in H as [H _].
Qed.

(** Under I2 the replacement of the list reads the same as the list. *)
Lemma textOfList_extractItem newBlock lt la lal lkids k li :
  forallb isListItem lkids = true ->
  nth_error lkids k = Some li ->
  textContent newBlock = textContent li ->
  textOfList (fst (extractItem newBlock (Elem lt la lal lkids) k))
  = textOfList lkids.
Proof.
  intros HI Hk Ht. unfold extractItem.
  rewrite (children_all_elements _ HI).
  unfold childIndex. rewrite (children_all_elements _ (forallb_firstn _ k _ HI)).
  assert (Hlt : k < List.length lkids) by (apply nth_error_Some; congruence).
  rewrite firstn_length_le by lia.
  pose proof (nth_error_split_at lkids k li Hk) as Hsplit.
  destruct (List.length lkids =? 1) eqn:E1.
  { apply Nat.eqb_eq in E1. cbn [fst textOfList].
    destruct lkids as [|x [|y l]]; simpl in E1; try discriminate.
    destruct k; [|simpl in Hlt; lia]. simpl in Hk. inversion Hk; subst.
    now rewrite Ht. }
  assert (Hall : textOfList lkids
                 = (textOfList (firstn k lkids) ++ textContent li
                    ++ textOfList (skipn (S k) lkids))%string).
  { rewrite Hsplit at 1. now rewrite textOfList_app. }
  destruct (k =? 0) eqn:E2.
  { apply Nat.eqb_eq in E2. subst k. cbn [fst textOfList].
    rewrite textContent_Elem, Ht, str_app_nil_r, Hall. reflexivity. }
  destruct (k =? List.length lkids - 1) eqn:E3.
  { apply Nat.eqb_eq in E3. cbn [fst textOfList].
    rewrite textContent_Elem, Ht, str_app_nil_r, Hall.
    rewrite (skipn_all2 lkids) by lia. rewrite app_nil_r.
    cbn [textOfList]. now rewrite str_app_nil_r. }
  cbn [fst textOfList]. rewrite !textContent_Elem, Ht, str_app_nil_r, Hall.
  reflexivity.
Qed.

Lemma textContent_extractFromList ed block lt la lal lkids li newBlock :
  nodeAt (content ed) (parentPath block) = Some (Elem lt la lal lkids) ->
  forallb isListItem lkids = true ->
  nth_error lkids (indexOf block) = Some li ->
  textContent newBlock = textContent li ->
  textContent (content (extractFromList ed block (Elem lt la lal lkids) newBlock))
  = textContent (content ed).
Proof.
  intros Hl HI Hk Ht. unfold extractFromList.
  pose proof (textOfList_extractItem newBlock lt la lal lkids _ li HI Hk Ht) as H.
  destruct (extractItem newBlock (Elem lt la lal lkids) (indexOf block)) as [repl pos].
  cbn [content]. apply textContent_spliceAt.
  intros c Hc. rewrite Hl in Hc. inversion Hc; subst c.
  cbn [fst] in H. now rewrite textContent_Elem.
Qed.

Lemma list_items_of root p lt la lal lkids :
  listsHoldItems root = true ->
  nodeAt root p = Some (Elem lt la lal lkids) ->
  isListContainer lt = true ->
  forallb isListItem lkids = true.
Proof.
  intros H Hn Hc. pose proof (listsHoldItems_nodeAt _ _ _ H Hn) as H'.
  simpl in H'. rewrite Hc in H'. now apply andb_prop in H' as [H' _].
Qed.

Lemma textContent_setBlockType h tagName ed ed' :
  listsHoldItems (content ed) = true ->
  blockKeepsText h ed ->
  setBlockType h tagName ed = Inside ed' ->
  textContent (content ed') = textContent (content ed).
Proof.
  intros HI HK. unfold setBlockType.
  destruct (sel ed) as [s|] eqn:Hs; [|now intros [= <-]].
  destruct (getParentBlock (content ed) (anchorNode s)) as [block|] eqn:Hb;
    [|now intros [= <-]].
  assert (Hbne : block <> []).
  { unfold getParentBlock, findParentBlock in Hb.
    apply walkUp_Some in Hb as (? & _ & _ & ?). assumption. }
  destruct (nodeAt (content ed) block) as [[x|bt ba bal bkids]|] eqn:Hn;
    try (now intros [= <-]).
  pose proof (HK s block _ (toUpperCase tagName) Hs Hb Hn) as Hkeep.
  cbn [kidsOf] in Hkeep. rewrite textContent_Elem in Hkeep.
  destruct (String.eqb (toLowerCase bt) (toLowerCase tagName));
    [now intros [= <-]|].
  assert (Hstd :
    Inside (mkEd (spliceAt
                    (fun _ => [Elem (toUpperCase tagName) [] bal
                                 (htmlRoundTrip h (toUpperCase tagName) bkids)])
                    block (content ed))
                 (Some (caretAtEnd block
                          (Elem (toUpperCase tagName) [] bal
                             (htmlRoundTrip h (toUpperCase tagName) bkids)))))
    = Inside ed' ->
    textContent (content ed') = textContent (content ed)).
  { intros [= <-]. cbn [content]. apply textContent_spliceAt.
    intros c Hc. rewrite Hn in Hc. inversion Hc; subst c. cbn [textOfList].
    rewrite !textContent_Elem, str_app_nil_r. exact Hkeep. }
  destruct (String.eqb bt "LI"); [|exact Hstd].
  destruct (nodeAt (content ed) (parentPath block)) as [listEl|] eqn:Hl;
    [|exact Hstd].
  destruct (String.eqb (tagOf listEl) "UL" || String.eqb (tagOf listEl) "OL")
    eqn:Htag; [|exact Hstd].
  destruct (parentPath block) as [|x r] eqn:Epp.
  - unfold extractFromEditor. destruct (editorHasParent h).
    + destruct (extractItem _ listEl (indexOf block)). discriminate.
    + now intros [= <-].
  - rewrite <- Epp in *. intros [= <-].
    destruct listEl as [d|lt la lal lkids]; [discriminate|].
    destruct (nodeAt_parent _ _ _ Hn Hbne) as (t' & a' & al' & cs' & Hp' & Hk).
    rewrite Hl in Hp'. inversion Hp'; subst t' a' al' cs'. clear Hp'.
    apply (textContent_extractFromList ed block lt la lal lkids
                 (Elem bt ba bal bkids) _ Hl).
    + apply (list_items_of _ _ _ _ _ _ HI Hl).
      cbn [tagOf] in Htag. apply orb_prop in Htag as [E|E];
        apply String.eqb_eq in E; subst; reflexivity.
    + exact Hk.
    + now rewrite !textContent_Elem.
Qed.

Lemma textContent_toggleList h type ed ed' :
  listsHoldItems (content ed) = true ->
  blockKeepsText h ed ->
  type = "ul" \/ type = "ol" ->
  toggleList h type ed = Inside ed' ->
  textContent (content ed') = textContent (content ed).
Proof.
  intros HI HK Hty. unfold toggleList.
  destruct (sel ed) as [s|] eqn:Hs; [|now intros [= <-]].
  destruct (getParentBlock (content ed) (anchorNode s)) as [block|] eqn:Hb;
    [|now intros [= <-]].
  assert (Hbne : block <> []).
  { unfold getParentBlock, findParentBlock in Hb.
    apply walkUp_Some in Hb as (? & _ & _ & ?). assumption. }
  destruct (nodeAt (content ed) block) as [[x|bt ba bal bkids]|] eqn:Hn;
    try (now intros [= <-]).
  assert (Hkeep : forall t, textOfList (htmlRoundTrip h t bkids)
                            = textOfList bkids).
  { intros t. pose proof (HK s block _ t Hs Hb Hn) as H.
    cbn [kidsOf] in H. now rewrite textContent_Elem in H. }
  destruct (String.eqb bt "LI").
  - destruct (nodeAt (content ed) (parentPath block)) as [listEl|] eqn:Hl;
      [|now intros [= <-]].
    destruct (nodeAt_parent _ _ _ Hn Hbne) as (lt & la & lal & lkids & Hp' & Hk).
    rewrite Hl in Hp'. inversion Hp'; subst listEl. clear Hp'.
    cbn [tagOf kidsOf].
    destruct (String.eqb (toLowerCase lt) type) eqn:Esame.
    + apply String.eqb_eq in Esame.
      destruct (parentPath block) as [|x r] eqn:Epp.
      * unfold extractFromEditor. destruct (editorHasParent h).
        -- destruct (extractItem _ _ (indexOf block)). discriminate.
        -- now intros [= <-].
      * rewrite <- Epp in *. intros [= <-].
        apply (textContent_extractFromList ed block lt la lal lkids
                 (Elem bt ba bal bkids) _ Hl).
        -- apply (list_items_of _ _ _ _ _ _ HI Hl).
           unfold isListContainer. rewrite Esame.
           destruct Hty; subst type; reflexivity.
        -- exact Hk.
        -- rewrite !textContent_Elem. apply Hkeep.
    + destruct (parentPath block) as [|x r] eqn:Epp.
      * destruct (editorHasParent h); [discriminate | now intros [= <-]].
      * rewrite <- Epp in *.
        assert (Hconv : textContent
                  (spliceAt (fun _ => [Elem (toUpperCase type) [] EmptyString lkids])
                            (parentPath block) (content ed))
                = textContent (content ed)).
        { apply textContent_spliceAt. intros c Hc. rewrite Hl in Hc.
          inversion Hc; subst c. cbn [textOfList].
          now rewrite !textContent_Elem, str_app_nil_r. }
        destruct (lastElementIndex lkids 0) as [j|];
          [|now intros [= <-]].
        destruct (nth_error lkids j); now intros [= <-].
  - intros [= <-]. cbn [content]. apply textContent_spliceAt.
    intros c Hc. rewrite Hn in Hc. inversion Hc; subst c.
    cbn [textOfList]. rewrite !textContent_Elem. cbn [textOfList].
    rewrite !textContent_Elem, !str_app_nil_r. apply Hkeep.
Qed.

(** C1 (as amended).  After [toggleElement], [wrapSelectionPerBlock] and
    [unwrapSelection] the text content of the tree, in document order, is
    what it was, for every editor state.  [setBlockType] and [toggleList]
    (of kind 'ul' or 'ol') copy the content of the anchor's block with
    [x.innerHTML = block.innerHTML]: the text is what it was whenever that
    round trip keeps the text of the block, the tree meets invariant I2 of
    the data model (the children of a list container are list items) and
    the call stays inside the editor (the list worked on is not the editor
    element itself). *)
Theorem C1_text_content_conserved :
  forall (h : host) (ed : editor) (tagName : string)
         (attributes : option (list (string * string))),
    textContent (content (toggleElement tagName ed))
      = textContent (content ed) /\
    textContent (content (wrapSelectionPerBlock tagName attributes ed))
      = textContent (content ed) /\
    textContent (content (unwrapSelection tagName ed))
      = textContent (content ed) /\
    (forall ed',
        listsHoldItems (content ed) = true ->
        blockKeepsText h ed ->
        setBlockType h tagName ed = Inside ed' ->
        textContent (content ed') = textContent (content ed)) /\
    (forall ed',
        listsHoldItems (content ed) = true ->
        blockKeepsText h ed ->
        tagName = "ul" \/ tagName = "ol" ->
        toggleList h tagName ed = Inside ed' ->
        textContent (content ed') = textContent (content ed)).
Proof.
  intros h ed tagName attributes. repeat split.
  - apply textContent_toggleElement.
  - apply textContent_wrapSelectionPerBlock.
  - apply textContent_unwrapSelection.
  - intros ed'. apply textContent_setBlockType.
  - intros ed'. apply textContent_toggleList.
Qed.

(** C1 as stated fails for the block operations.  In [<p>a&#13;b</p>],
    which meets every invariant of the data model, [setBlockType('h1')]
    builds the heading from the paragraph's [innerHTML]; the parser reads
    the carriage return as a line feed, and the text of the editor is no
    longer what it was. *)
Lemma C1_carriage_return_is_not_conserved :
  listsHoldItems (content Sample.carriageReturn) = true /\
  noEmptyInline (content Sample.carriageReturn) = true /\
  textContent (content Sample.carriageReturn)
  = String "a" (String "013" (String "b" EmptyString)) /\
  setBlockType Sample.browser "h1" Sample.carriageReturn
  = Inside (mkEd (el "DIV" [el "H1" [Text (String "a" (String "010"
                                            (String "b" EmptyString)))]])
                 (select [0] 1 [0] 1)) /\
  String "a" (String "010" (String "b" EmptyString))
  <> String "a" (String "013" (String "b" EmptyString)).
Proof. repeat split; try reflexivity. discriminate. Qed.

(** ** The theorems at sample documents *)

Lemma C1_text_content_conserved_witness :
  listsHoldItems (content Sample.threeItems) = true /\
  (exists ed',
      setBlockType Sample.browser "p" Sample.threeItems = Inside ed' /\
      textContent (content ed') = textContent (content Sample.threeItems)) /\
  (exists ed',
      toggleList Sample.browser "ul" Sample.threeItems = Inside ed' /\
      textContent (content ed') = textContent (content Sample.threeItems)).
Proof.
  assert (HK : blockKeepsText Sample.browser Sample.threeItems).
  { intros s block n t Hs Hb Hn. injection Hs as <-.
    injection Hb as <-. injection Hn as <-. reflexivity. }
  destruct (C1_text_content_conserved Sample.browser Sample.threeItems "p" None)
    as (_ & _ & _ & Hset & _).
  destruct (C1_text_content_conserved Sample.browser Sample.threeItems "ul" None)
    as (_ & _ & _ & _ & Hlist).
  split; [reflexivity|]. split.
  - eexists. split; [reflexivity|].
    apply Hset; [reflexivity | exact HK | reflexivity].
  - eexists. split; [reflexivity|].
    apply Hlist; [reflexivity | exact HK | left; reflexivity | reflexivity].
Defined.

Lemma C3_list_item_extraction_witness :
  sel Sample.threeItems = select [0; 1; 0] 0 [0; 1; 0] 8 /\
  getParentBlock (content Sample.threeItems) [0; 1; 0] = Some [0; 1] /\
  exists repl ed',
    setBlockType Sample.browser "p" Sample.threeItems = Inside ed' /\
    content ed' = spliceAt (fun _ => repl) [0] (content Sample.threeItems).
Proof.
  split; [reflexivity|]. split; [reflexivity|].
  destruct (C3_list_item_extraction Sample.browser Sample.threeItems
              (mkSel (mkB [0; 1; 0] 0) (mkB [0; 1; 0] 8) false) "p" [0; 1]
              [] EmptyString [Text "item two"]
              "UL" [] EmptyString
              [el "LI" [Text "item one"]; el "LI" [Text "item two"];
               el "LI" [Text "item three"]])
    as (repl & ed' & Hin & H & _).
  - reflexivity.
  - reflexivity.
  - reflexivity.
  - reflexivity.
  - left; reflexivity.
  - discriminate.
  - discriminate.
  - exists repl, ed'. split; [exact Hin | exact H].
Defined.

Lemma C9_collapsed_toggle_witness :
  sel Sample.cursorInStrong = select [0; 1; 0] 2 [0; 1; 0] 2 /\
  findAncestor (content Sample.cursorInStrong) [0; 1; 0] "strong" = Some [0; 1] /\
  textContent (content (toggleElement "strong" Sample.cursorInStrong))
    = textContent (content Sample.cursorInStrong).
Proof.
  split; [reflexivity|]. split; [reflexivity|].
  destruct (C9_collapsed_toggle Sample.cursorInStrong
              (mkSel (mkB [0; 1; 0] 2) (mkB [0; 1; 0] 2) false) "strong"
              eq_refl eq_refl) as [Hon _].
  destruct (Hon [0; 1] eq_refl) as (t & a & al & cs & et & ea & eal & ek & H).
  apply H.
Defined.


(** ** The wrapper in the tree: no element of its tag inside it *)

Lemma forallb_flat_map {A B} (g : B -> bool) (f : A -> list B) l :
  Forall (fun x => forallb g (f x) = true) l ->
  forallb g (flat_map f l) = true.
Proof.
  induction 1 as [|x l Hx _ IH]; simpl; [reflexivity|].
  now rewrite forallb_app, Hx, IH.
Qed.

Lemma noTag_stripTag tag : forall n, forallb (noTag tag) (stripTag tag n) = true.
Proof.
  induction n as [s|t a al cs IH] using node_rect'; [reflexivity|].
  cbn [stripTag]. pose proof (forallb_flat_map (noTag tag) (stripTag tag) cs IH) as H.
  destruct (String.eqb t tag) eqn:E; [exact H|].
  cbn [forallb noTag]. now rewrite E, H.
Qed.

Lemma noTag_removeTags frag tagName :
  forallb (noTag (toUpperCase tagName)) (removeTagsFromFragment frag tagName)
  = true.
Proof.
  apply forallb_flat_map, Forall_forall. intros c _. apply noTag_stripTag.
Qed.

Lemma noTag_pruneTag tag t' : forall n,
  noTag tag n = true -> noTag tag (pruneTag t' n) = true.
Proof.
  induction n as [s|t a al cs IH] using node_rect'; intros H; [exact H|].
  rewrite pruneTag_Elem. cbn [noTag] in *.
  apply andb_prop in H as [Ht Hcs]. rewrite Ht. cbn [andb]. unfold pruneKids.
  induction IH as [|c cs Hc _ IHcs]; [reflexivity|].
  cbn [forallb] in Hcs. apply andb_prop in Hcs as [H1 H2].
  cbn [filter]. destruct (negb (doomed t' c)); cbn [map forallb]; auto.
  now rewrite (Hc H1), (IHcs H2).
Qed.

(** Cleanup keeps an element's tag, attributes and style and rewrites its
    children only. *)
Lemma cleanup_Elem t a al cs :
  exists cs', cleanupEmptyElements (Elem t a al cs) = Elem t a al cs' /\
    forall tag, forallb (noTag tag) cs = true -> forallb (noTag tag) cs' = true.
Proof.
  unfold cleanupEmptyElements. generalize INLINE_TAGS as tags. intros tags.
  revert cs. induction tags as [|x tags IH]; intros cs; cbn [fold_left].
  - exists cs. split; auto.
  - rewrite pruneTag_Elem.
    destruct (IH (pruneKids x cs)) as (cs' & E & H). exists cs'. split; auto.
    intros tag Hcs. apply H. unfold pruneKids.
    clear - Hcs. induction cs as [|c cs IHc]; [reflexivity|].
    cbn [forallb] in Hcs. apply andb_prop in Hcs as [H1 H2].
    cbn [filter]. destruct (negb (doomed x c)); cbn [map forallb]; auto.
    now rewrite (noTag_pruneTag tag x c H1), (IHc H2).
Qed.

Lemma strip_prefix_app P r : strip_prefix P (P ++ r) = Some r.
Proof.
  induction P as [|i P IH]; simpl; [reflexivity|].
  now rewrite Nat.eqb_refl.
Qed.

Lemma nodeAt_updateAt f : forall P root par r,
  nodeAt root P = Some par ->
  nodeAt (updateAt f P root) (P ++ r) = nodeAt (f par) r.
Proof.
  induction P as [|i P IH]; intros root par r H; simpl in *.
  - now inversion H; subst.
  - destruct root as [s|t a al cs]; [discriminate|].
    destruct (nth_error cs i) as [c|] eqn:E; [|discriminate].
    rewrite (nth_error_splice_single _ _ _ _ E). now apply IH.
Qed.

Lemma nth_error_pruneKids tag cs k c :
  nth_error cs k = Some c -> doomed tag c = false ->
  nth_error (pruneKids tag cs) (survivors tag (firstn k cs))
  = Some (pruneTag tag c).
Proof.
  revert k. unfold pruneKids, survivors.
  induction cs as [|x cs IH]; intros k Hk Hd; [destruct k; discriminate|].
  destruct k as [|k]; simpl in Hk.
  - inversion Hk; subst x. cbn [firstn filter]. now rewrite Hd.
  - cbn [firstn filter]. destruct (negb (doomed tag x)); cbn [map List.length];
      now apply IH.
Qed.

(** A node reference that survives a pass points to the pruned node. *)
Lemma trackPruneNode_nodeAt tag : forall q n q',
  trackPruneNode tag q n = Some q' ->
  exists c, nodeAt n q = Some c /\
            nodeAt (pruneTag tag n) q' = Some (pruneTag tag c).
Proof.
  induction q as [|k r IH]; intros n q' H; simpl in H.
  - inversion H; subst. exists n. split; reflexivity.
  - destruct n as [s|t a al cs]; [discriminate|].
    destruct (nth_error cs k) as [c|] eqn:E; [|discriminate].
    destruct (doomed tag c) eqn:D; [discriminate|].
    destruct (trackPruneNode tag r c) as [r'|] eqn:T; [|discriminate].
    inversion H; subst q'. destruct (IH c r' T) as (d & Hd & Hp).
    exists d. split; [simpl; now rewrite E|].
    rewrite pruneTag_Elem. cbn [nodeAt].
    now rewrite (nth_error_pruneKids tag cs k c E D).
Qed.

Lemma cleanupTrackNode_nodeAt : forall tags n q q' c,
  cleanupTrackNode tags n q = Some q' ->
  nodeAt n q = Some c ->
  nodeAt (fold_left (fun acc tag => pruneTag tag acc) tags n) q'
  = Some (fold_left (fun acc tag => pruneTag tag acc) tags c).
Proof.
  induction tags as [|t ts IH]; intros n q q' c H Hn; simpl in H.
  - inversion H; subst. exact Hn.
  - destruct (trackPruneNode t q n) as [q1|] eqn:T; [|discriminate].
    destruct (trackPruneNode_nodeAt t q n q1 T) as (c' & Hc & Hp).
    rewrite Hn in Hc. inversion Hc; subst c'.
    simpl. now apply (IH _ _ _ _ H).
Qed.

(** Where [cleanupAt] reports the wrapper, the cleaned-up wrapper is. *)
Lemma cleanupAt_wrapper P i t1 trB trN par W w :
  nodeAt t1 P = Some par ->
  nodeAt par [i] = Some W ->
  w_wrapper (cleanupAt P (P ++ [i]) t1 trB trN) = Some w ->
  nodeAt (w_tree (cleanupAt P (P ++ [i]) t1 trB trN)) w
  = Some (cleanupEmptyElements W).
Proof.
  intros HP HW Hw. unfold cleanupAt in *. rewrite HP in *.
  cbn [w_wrapper w_tree] in *. unfold underN in Hw.
  rewrite strip_prefix_app in Hw.
  destruct (cleanupTrackNode INLINE_TAGS par [i]) as [q'|] eqn:T; [|discriminate].
  simpl in Hw. inversion Hw; subst w.
  rewrite (nodeAt_updateAt _ _ _ _ _ HP).
  apply (cleanupTrackNode_nodeAt _ _ _ _ _ T HW).
Qed.

Lemma nodeAt_updateAt_self f P root par :
  nodeAt root P = Some par -> nodeAt (updateAt f P root) P = Some (f par).
Proof.
  intros H. pose proof (nodeAt_updateAt f P root par [] H) as E.
  now rewrite app_nil_r in E.
Qed.

(** Where [wrapRange] reports the wrapper, the node there is the wrapper:
    an element of the requested tag with the given attributes, holding no
    element of that tag. *)
Lemma wrapRange_wrapper_node root s e tagName attributes w :
  w_wrapper (wrapRange root s e tagName attributes) = Some w ->
  exists kids,
    nodeAt (w_tree (wrapRange root s e tagName attributes)) w
    = Some (Elem (toUpperCase tagName) (attrsOf attributes)
                 EmptyString kids) /\
    forallb (noTag (toUpperCase tagName)) kids = true.
Proof.
  intros Hw.
  assert (Hfin : forall fragment,
    exists kids,
      cleanupEmptyElements (makeWrapper tagName attributes fragment)
      = Elem (toUpperCase tagName) (attrsOf attributes) EmptyString kids /\
      forallb (noTag (toUpperCase tagName)) kids = true).
  { intros fragment. unfold makeWrapper.
    destruct (cleanup_Elem (toUpperCase tagName) (attrsOf attributes) EmptyString
                (removeTagsFromFragment fragment tagName)) as (cs' & E & H).
    exists cs'. split; [exact E|]. apply H, noTag_removeTags. }
  unfold wrapRange in *.
  remember (commonAncestorContainer s e) as c eqn:Hc. clear Hc.
  destruct (nodeAt root c) as [[data|t a al cs]|] eqn:E; [| |discriminate].
  - (* one text node *)
    destruct c as [|c0 cr] eqn:Ec.
    { (* the root itself: nothing is reported *)
      simpl in E. inversion E; subst root. cbn in Hw. discriminate. }
    rewrite <- Ec in *. assert (Hne : c <> []) by (rewrite Ec; discriminate).
    destruct (nodeAt_parent _ _ _ E Hne) as (pt & pa & pal & pcs & HP & Hi).
    set (W := makeWrapper tagName attributes
                [Text (str_take (offset e - offset s) (str_drop (offset s) data))]) in *.
    set (f := fun _ : node =>
                [Text (str_take (offset s) data); W;
                 Text (str_drop (offset e - offset s) (str_drop (offset s) data))]) in *.
    assert (HP1 : nodeAt (spliceAt f c root) (parentPath c)
                  = Some (Elem pt pa pal (splice_nth f (indexOf c) pcs))).
    { pose proof (nodeAt_spliceAt f (indexOf c) (parentPath c) root _ _ _ _ HP) as X.
      now rewrite <- (parent_index c Hne) in X. }
    assert (HW : nodeAt (Elem pt pa pal (splice_nth f (indexOf c) pcs))
                        [S (indexOf c)] = Some W).
    { cbn [nodeAt]. unfold splice_nth. rewrite Hi.
      assert (Hl : List.length (firstn (indexOf c) pcs) = indexOf c).
      { apply firstn_length_le, Nat.lt_le_incl, nth_error_Some. congruence. }
      rewrite nth_error_app2 by lia. rewrite Hl.
      replace (S (indexOf c) - indexOf c) with 1 by lia. reflexivity. }
    rewrite (cleanupAt_wrapper _ _ _ _ _ _ _ _ HP1 HW Hw).
    subst W.
    match goal with
    | |- context [cleanupEmptyElements (makeWrapper _ _ ?fr)] =>
        destruct (Hfin fr) as (kids & Ek & Hk)
    end.
    exists kids. rewrite Ek. split; [reflexivity | exact Hk].
  - (* an element is the common ancestor *)
    destruct (extractKids _ _ _ _ cs) as [[before fragment] after].
    set (W := makeWrapper tagName attributes fragment) in *.
    set (g := fun _ : node => Elem t a al (before ++ W :: after)) in *.
    assert (HP1 : nodeAt (updateAt g c root) c
                  = Some (Elem t a al (before ++ W :: after))).
    { now rewrite (nodeAt_updateAt_self g c root _ E). }
    assert (HW : nodeAt (Elem t a al (before ++ W :: after))
                        [List.length before] = Some W).
    { cbn [nodeAt]. now rewrite nth_error_middle. }
    rewrite (cleanupAt_wrapper _ _ _ _ _ _ _ _ HP1 HW Hw).
    subst W.
    match goal with
    | |- context [cleanupEmptyElements (makeWrapper _ _ ?fr)] =>
        destruct (Hfin fr) as (kids & Ek & Hk)
    end.
    exists kids. rewrite Ek. split; [reflexivity | exact Hk].
Qed.

(** ** The tree after wrapRange, in one step *)

Lemma updateAt_invalid f : forall P n,
  nodeAt n P = None -> updateAt f P n = n.
Proof.
  induction P as [|i P IH]; intros n H; simpl in *; [discriminate|].
  destruct n as [s|t a al cs]; [reflexivity|].
  unfold splice_nth. destruct (nth_error cs i) as [c|] eqn:E; [|reflexivity].
  rewrite (IH c H). f_equal. symmetry. exact (nth_error_split_at cs i c E).
Qed.

Lemma firstn_middle {A} (l1 l2 : list A) x :
  firstn (List.length l1) (l1 ++ x :: l2) = l1.
Proof.
  now rewrite firstn_app, firstn_all, Nat.sub_diag, firstn_O, app_nil_r.
Qed.

Lemma skipn_middle {A} (l1 l2 : list A) x :
  skipn (S (List.length l1)) (l1 ++ x :: l2) = l2.
Proof.
  induction l1 as [|y l1 IH]; simpl; [reflexivity | exact IH].
Qed.

Lemma splice_nth_middle f l1 c l2 :
  splice_nth f (List.length l1) (l1 ++ c :: l2) = l1 ++ f c ++ l2.
Proof.
  unfold splice_nth. now rewrite nth_error_middle, firstn_middle, skipn_middle.
Qed.

Lemma nth_error_decompose {A} (l : list A) i c :
  nth_error l i = Some c ->
  exists l1 l2, l = l1 ++ c :: l2 /\ List.length l1 = i.
Proof.
  intros H. exists (firstn i l), (skipn (S i) l).
  split; [now apply nth_error_split_at|].
  apply firstn_length_le, Nat.lt_le_incl, nth_error_Some. congruence.
Qed.

Lemma splice_nth_single_twice (h g : node -> node) i cs :
  splice_nth (fun c => [h c]) i (splice_nth (fun c => [g c]) i cs)
  = splice_nth (fun c => [h (g c)]) i cs.
Proof.
  destruct (nth_error cs i) as [c|] eqn:E.
  - destruct (nth_error_decompose cs i c E) as (l1 & l2 & -> & <-).
    rewrite !splice_nth_middle. simpl. now rewrite splice_nth_middle.
  - unfold splice_nth. rewrite E, E. reflexivity.
Qed.

Lemma updateAt_twice h g : forall P n,
  updateAt h P (updateAt g P n) = updateAt (fun x => h (g x)) P n.
Proof.
  induction P as [|i P IH]; intros n; simpl; [reflexivity|].
  destruct n as [s|t a al cs]; [reflexivity|]. simpl. f_equal.
  rewrite splice_nth_single_twice. unfold splice_nth.
  destruct (nth_error cs i); [|reflexivity]. now rewrite IH.
Qed.

Lemma spliceAt_as_updateAt f i : forall P n,
  spliceAt f (P ++ [i]) n
  = updateAt (fun par => match par with
                         | Elem t a al cs => Elem t a al (splice_nth f i cs)
                         | Text _ => par
                         end) P n.
Proof.
  induction P as [|j P IH]; intros n.
  - destruct n; reflexivity.
  - destruct n as [s|t a al cs]; [reflexivity|].
    change ((j :: P) ++ [i]) with (j :: (P ++ [i])).
    rewrite spliceAt_deep by (destruct P; discriminate).
    simpl. f_equal. unfold splice_nth.
    destruct (nth_error cs j); [|reflexivity]. now rewrite IH.
Qed.

Lemma w_tree_cleanupAt P w t1 trB trN :
  w_tree (cleanupAt P w t1 trB trN) = updateAt cleanupEmptyElements P t1.
Proof.
  unfold cleanupAt. destruct (nodeAt t1 P) eqn:E; [reflexivity|].
  cbn [w_tree]. now rewrite updateAt_invalid.
Qed.

(** [wrapRange] rewrites the wrapper's parent and cleans it up; what it
    does to the parent before the cleanup keeps the parent's kind, tag and
    text. *)
Lemma w_tree_normal root s e tagName attributes :
  exists G,
    w_tree (wrapRange root s e tagName attributes)
    = updateAt (fun x => cleanupEmptyElements (G x)) (wrapperParent root s e) root
    /\ forall x, nodeAt root (wrapperParent root s e) = Some x ->
         isElement (G x) = isElement x /\ tagOf (G x) = tagOf x /\
         textContent (G x) = textContent x.
Proof.
  unfold wrapRange, wrapperParent.
  remember (commonAncestorContainer s e) as c eqn:Hc. clear Hc.
  destruct (nodeAt root c) as [[data|t a al cs]|] eqn:E.
  - (* one text node *)
    rewrite w_tree_cleanupAt.
    destruct c as [|c0 cr] eqn:Ec.
    { exists (fun x => x). split; [reflexivity | auto]. }
    rewrite <- Ec in *. assert (Hne : c <> []) by (rewrite Ec; discriminate).
    destruct (nodeAt_parent _ _ _ E Hne) as (pt & pa & pal & pcs & HP & Hi).
    match goal with
    | |- context [spliceAt ?f0 c root] => set (f := f0)
    end.
    exists (fun par => match par with
                       | Elem t a al cs => Elem t a al (splice_nth f (indexOf c) cs)
                       | Text _ => par
                       end).
    split.
    + rewrite (parent_index c Hne) at 2.
      now rewrite spliceAt_as_updateAt, updateAt_twice.
    + intros x Hx. rewrite HP in Hx. inversion Hx; subst x.
      repeat split. rewrite !textContent_Elem.
      apply textOfList_splice_nth. intros c' Hc'. rewrite Hi in Hc'.
      inversion Hc'; subst c'. unfold f. cbn [textOfList].
      rewrite textContent_makeWrapper. cbn [textOfList textContent].
      rewrite !str_app_nil_r.
      rewrite <- (str_take_drop (offset s) data) at 4.
      rewrite <- (str_take_drop (offset e - offset s) (str_drop (offset s) data)) at 3.
      reflexivity.
  - (* an element is the common ancestor *)
    pose proof (textOfList_extractKids
                  (skipn (List.length c) (container s)) (offset s)
                  (skipn (List.length c) (container e)) (offset e) cs) as H.
    destruct (extractKids _ _ _ _ cs) as [[before fragment] after].
    rewrite w_tree_cleanupAt, updateAt_twice.
    eexists. split; [reflexivity|].
    intros x Hx. rewrite E in Hx. inversion Hx; subst x.
    repeat split. rewrite !textContent_Elem, textOfList_app. cbn [textOfList].
    now rewrite textContent_makeWrapper.
  - exists (fun x => x). cbn [w_tree]. split; [|auto].
    now rewrite updateAt_invalid.
Qed.

(** ** C7: empty inline elements *)

Lemma noDoomed_Elem tag t a al cs :
  noDoomed tag (Elem t a al cs)
  = forallb (fun c => negb (doomed tag c) && noDoomed tag c) cs.
Proof. reflexivity. Qed.

Lemma pruneTag_kind tag n :
  isElement (pruneTag tag n) = isElement n /\ tagOf (pruneTag tag n) = tagOf n.
Proof. destruct n; split; reflexivity. Qed.

Lemma doomed_same tag n m :
  isElement m = isElement n -> tagOf m = tagOf n ->
  textContent m = textContent n -> doomed tag m = doomed tag n.
Proof. unfold doomed. now intros -> -> ->. Qed.

Lemma doomed_pruneTag tag t' n : doomed tag (pruneTag t' n) = doomed tag n.
Proof.
  apply doomed_same; try apply pruneTag_kind. apply textContent_pruneTag.
Qed.

(** A pass leaves nothing of its own tag to remove ... *)
Lemma noDoomed_pruneTag_same tag : forall n, noDoomed tag (pruneTag tag n) = true.
Proof.
  induction n as [s|t a al cs IH] using node_rect'; [reflexivity|].
  rewrite pruneTag_Elem, noDoomed_Elem. unfold pruneKids.
  induction IH as [|c cs Hc _ IHcs]; [reflexivity|].
  cbn [filter]. destruct (doomed tag c) eqn:D; cbn [negb]; [exact IHcs|].
  cbn [map forallb]. now rewrite doomed_pruneTag, D, Hc, IHcs.
Qed.

(** ... and does not undo an earlier pass. *)
Lemma noDoomed_pruneTag_other tag t' : forall n,
  noDoomed tag n = true -> noDoomed tag (pruneTag t' n) = true.
Proof.
  induction n as [s|t a al cs IH] using node_rect'; intros H; [exact H|].
  rewrite pruneTag_Elem, noDoomed_Elem in *. unfold pruneKids.
  induction IH as [|c cs Hc _ IHcs]; [reflexivity|].
  cbn [forallb] in H. apply andb_prop in H as [H1 H2].
  apply andb_prop in H1 as [Hd Hn].
  cbn [filter]. destruct (negb (doomed t' c)); cbn [map forallb]; auto.
  now rewrite doomed_pruneTag, Hd, (Hc Hn), (IHcs H2).
Qed.

Lemma noDoomed_passes tag : forall tags n,
  noDoomed tag n = true ->
  noDoomed tag (fold_left (fun acc t => pruneTag t acc) tags n) = true.
Proof.
  induction tags as [|t ts IH]; intros n H; simpl; [exact H|].
  apply IH. now apply noDoomed_pruneTag_other.
Qed.

Lemma noDoomed_after_passes tag : forall tags n,
  In tag tags ->
  noDoomed tag (fold_left (fun acc t => pruneTag t acc) tags n) = true.
Proof.
  induction tags as [|t ts IH]; intros n Hin; [destruct Hin|].
  destruct Hin as [->|Hin]; simpl.
  - apply noDoomed_passes, noDoomed_pruneTag_same.
  - now apply IH.
Qed.

(** After [cleanupEmptyElements] no inline element below the container has
    empty text. *)
Lemma noEmptyInline_cleanup n : noEmptyInline (cleanupEmptyElements n) = true.
Proof.
  unfold noEmptyInline. apply forallb_forall. intros tag Hin.
  now apply noDoomed_after_passes.
Qed.

Lemma cleanup_kind n :
  isElement (cleanupEmptyElements n) = isElement n /\
  tagOf (cleanupEmptyElements n) = tagOf n.
Proof.
  destruct n as [s|t a al cs].
  - unfold cleanupEmptyElements. generalize INLINE_TAGS. intros l.
    induction l as [|x l IH]; simpl; auto.
  - destruct (cleanup_Elem t a al cs) as (cs' & E & _). rewrite E. auto.
Qed.

Lemma updateAt_kind f : forall P n,
  (forall c, nodeAt n P = Some c ->
     isElement (f c) = isElement c /\ tagOf (f c) = tagOf c) ->
  isElement (updateAt f P n) = isElement n /\ tagOf (updateAt f P n) = tagOf n.
Proof.
  intros [|i P] n H; [now apply H|]. destruct n; simpl; auto.
Qed.

(** Rewriting one node keeps the rest of the tree free of removable
    elements, if the rewritten node keeps its kind, tag and text and is
    itself free of them below. *)
Lemma noDoomed_updateAt tag f : forall P n,
  noDoomed tag n = true ->
  (forall c, nodeAt n P = Some c ->
     isElement (f c) = isElement c /\ tagOf (f c) = tagOf c /\
     textContent (f c) = textContent c /\ noDoomed tag (f c) = true) ->
  noDoomed tag (updateAt f P n) = true.
Proof.
  induction P as [|i P IH]; intros n Hn Hf.
  - simpl. now apply Hf.
  - destruct n as [s|t a al cs]; [exact Hn|].
    cbn [updateAt]. rewrite noDoomed_Elem in *. unfold splice_nth.
    destruct (nth_error cs i) as [c|] eqn:E; [|exact Hn].
    rewrite (nth_error_split_at cs i c E), forallb_app in Hn.
    apply andb_prop in Hn as [H1 H2]. cbn [forallb] in H2.
    apply andb_prop in H2 as [Hc H3]. apply andb_prop in Hc as [Hd Hc].
    assert (Hsub : forall c', nodeAt c P = Some c' ->
              isElement (f c') = isElement c' /\ tagOf (f c') = tagOf c' /\
              textContent (f c') = textContent c' /\ noDoomed tag (f c') = true).
    { intros c' Hc'. apply Hf. cbn [nodeAt]. now rewrite E. }
    rewrite !forallb_app. cbn [forallb]. rewrite H1, H3.
    rewrite (IH c Hc Hsub).
    rewrite (doomed_same tag c (updateAt f P c)), Hd; [reflexivity| | |].
    + apply updateAt_kind. intros c' Hc'. now destruct (Hsub c' Hc') as (?&?&_).
    + apply updateAt_kind. intros c' Hc'. now destruct (Hsub c' Hc') as (?&?&_).
    + apply textContent_updateAt. intros c' Hc'.
      now destruct (Hsub c' Hc') as (_&_&?&_).
Qed.

Lemma noDoomed_wrapRange tag root s e tagName attributes :
  In tag INLINE_TAGS ->
  noDoomed tag root = true ->
  noDoomed tag (w_tree (wrapRange root s e tagName attributes)) = true.
Proof.
  intros Hin H.
  destruct (w_tree_normal root s e tagName attributes) as (G & -> & HG).
  apply noDoomed_updateAt; [exact H|].
  intros c Hc. destruct (HG c Hc) as (Hk & Ht & Hx).
  destruct (cleanup_kind (G c)) as [Ck Ct].
  repeat split; try congruence.
  - now rewrite textContent_cleanup.
  - unfold cleanupEmptyElements. now apply noDoomed_after_passes.
Qed.

Lemma noEmptyInline_wrapRange root s e tagName attributes :
  noEmptyInline root = true ->
  noEmptyInline (w_tree (wrapRange root s e tagName attributes)) = true.
Proof.
  unfold noEmptyInline. rewrite !forallb_forall. intros H tag Hin.
  apply noDoomed_wrapRange; auto.
Qed.

Lemma noDoomed_nodeAt tag : forall P n c,
  noDoomed tag n = true -> nodeAt n P = Some c -> noDoomed tag c = true.
Proof.
  induction P as [|i P IH]; intros n c H Hc; simpl in Hc.
  - now inversion Hc; subst.
  - destruct n as [s|t a al cs]; [discriminate|].
    destruct (nth_error cs i) as [x|] eqn:E; [|discriminate].
    apply (IH x); auto. rewrite noDoomed_Elem, forallb_forall in H.
    specialize (H x (nth_error_In _ _ E)). now apply andb_prop in H as [_ H].
Qed.

Lemma noDoomed_unwrapSelection tag tagName ed :
  noDoomed tag (content ed) = true ->
  noDoomed tag (content (unwrapSelection tagName ed)) = true.
Proof.
  intros H. unfold unwrapSelection.
  destruct (sel ed) as [s|]; [|exact H].
  destruct (findAncestor (content ed) (anchorNode s) tagName) as [q|] eqn:Hq;
    [|exact H].
  destruct (findAncestor_Some _ _ _ _ Hq) as (t & a & al & cs & Hn & _ & Hne).
  rewrite Hn. cbn [content].
  destruct (nodeAt_parent _ _ _ Hn Hne) as (pt & pa & pal & pcs & HP & Hi).
  rewrite (parent_index q Hne), spliceAt_as_updateAt.
  apply noDoomed_updateAt; [exact H|].
  intros c Hc. rewrite HP in Hc. inversion Hc; subst c.
  pose proof (noDoomed_nodeAt tag _ _ _ H HP) as Hpar.
  pose proof (noDoomed_nodeAt tag _ _ _ H Hn) as Hel.
  destruct (nth_error_decompose pcs _ _ Hi) as (l1 & l2 & -> & <-).
  rewrite splice_nth_middle. cbn [kidsOf].
  repeat split.
  - rewrite !textContent_Elem, !textOfList_app. cbn [textOfList].
    now rewrite textContent_Elem.
  - rewrite noDoomed_Elem in *. rewrite !forallb_app in *.
    cbn [forallb] in Hpar.
    apply andb_prop in Hpar as [H1 H2]. apply andb_prop in H2 as [_ H2].
    now rewrite H1, H2, Hel.
Qed.

Lemma noEmptyInline_unwrapSelection tagName ed :
  noEmptyInline (content ed) = true ->
  noEmptyInline (content (unwrapSelection tagName ed)) = true.
Proof.
  unfold noEmptyInline. rewrite !forallb_forall. intros H tag Hin.
  apply noDoomed_unwrapSelection; auto.
Qed.

Lemma noEmptyInline_wrapBlock tagName attributes n i block0 st :
  noEmptyInline (l_tree st) = true ->
  noEmptyInline (l_tree (wrapBlock tagName attributes n i block0 st)) = true.
Proof.
  intros H. unfold wrapBlock.
  destruct (l_trackN st block0) as [block|]; [|exact H].
  destruct (nodeAt (l_tree st) block) as [bn|]; [|exact H].
  destruct (blockRange st i n block bn) as [bs be].
  destruct (boundary_eqb bs be); [exact H|].
  cbn [l_tree]. now apply noEmptyInline_wrapRange.
Qed.

Lemma noEmptyInline_wrapBlocks tagName attributes n : forall todo st,
  noEmptyInline (l_tree st) = true ->
  noEmptyInline (l_tree (wrapBlocks tagName attributes n todo st)) = true.
Proof.
  induction todo as [|[i b] todo IH]; intros st H; simpl; [exact H|].
  now apply IH, noEmptyInline_wrapBlock.
Qed.

Lemma noEmptyInline_wrapSelectionPerBlock tagName attributes ed :
  noEmptyInline (content ed) = true ->
  noEmptyInline (content (wrapSelectionPerBlock tagName attributes ed)) = true.
Proof.
  intros H. unfold wrapSelectionPerBlock.
  destruct (sel ed) as [s|]; [|exact H].
  destruct (collapsed s); [exact H|].
  destruct (List.length (getBlocksInSelection (content ed) (rstart s) (rend s)) <=? 1).
  - cbn [content]. now apply noEmptyInline_wrapRange.
  - match goal with
    | |- context [wrapBlocks ?a ?b ?c ?d ?e] =>
        pose proof (noEmptyInline_wrapBlocks a b c d e H) as H';
        destruct (wrapBlocks a b c d e) as [t ls le tr lf ll]
    end.
    cbn [l_tree l_first l_last] in *.
    destruct lf, ll; exact H'.
Qed.

Lemma noEmptyInline_toggleElement tagName ed :
  noEmptyInline (content ed) = true ->
  noEmptyInline (content (toggleElement tagName ed)) = true.
Proof.
  intros H. unfold toggleElement.
  destruct (sel ed) as [s|]; [|exact H].
  destruct (collapsed s).
  - destruct (isInElement ed tagName);
      [now apply noEmptyInline_unwrapSelection | exact H].
  - destruct (isSelectionFullyWrapped tagName ed);
      [now apply noEmptyInline_unwrapSelection
      | now apply noEmptyInline_wrapSelectionPerBlock].
Qed.

(** C7.  Every [wrapRange], and so every wrap made by
    [wrapSelectionPerBlock] or [toggleElement], ends with the wrapper's
    parent cleaned up: below it no inline/semantic element (STRONG, EM, U,
    S, SUB, SUP, A) has empty text content, so an element the extraction
    emptied is gone when the call returns.  Unwrapping empties no element.
    On a tree that meets invariant I3, as the data model has it before
    every mutation, [toggleElement] in either direction,
    [wrapSelectionPerBlock] and [unwrapSelection] leave no inline element
    with empty text content anywhere in the tree. *)
Theorem C7_empty_inline_elements :
  forall (ed : editor) (tagName : string)
         (attributes : option (list (string * string))),
    (forall root s e par,
        nodeAt (w_tree (wrapRange root s e tagName attributes))
               (wrapperParent root s e) = Some par ->
        noEmptyInline par = true) /\
    (noEmptyInline (content ed) = true ->
     noEmptyInline (content (toggleElement tagName ed)) = true /\
     noEmptyInline (content (wrapSelectionPerBlock tagName attributes ed)) = true /\
     noEmptyInline (content (unwrapSelection tagName ed)) = true).
Proof.
  intros ed tagName attributes. split.
  - intros root s e par Hpar.
    destruct (w_tree_normal root s e tagName attributes) as (G & E & _).
    rewrite E in Hpar.
    destruct (nodeAt root (wrapperParent root s e)) as [x|] eqn:Hx.
    + rewrite (nodeAt_updateAt_self _ _ _ _ Hx) in Hpar.
      inversion Hpar; subst par. apply noEmptyInline_cleanup.
    + rewrite updateAt_invalid in Hpar by exact Hx. congruence.
  - intros H. repeat split.
    + now apply noEmptyInline_toggleElement.
    + now apply noEmptyInline_wrapSelectionPerBlock.
    + now apply noEmptyInline_unwrapSelection.
Qed.

(** ** C2: what isSelectionFullyWrapped decides *)

Lemma isPrefix_refl p : isPrefix p p.
Proof. exists []. now rewrite app_nil_r. Qed.

Lemma isPrefix_trans a b c : isPrefix a b -> isPrefix b c -> isPrefix a c.
Proof. intros [r ->] [r' ->]. exists (r ++ r'). now rewrite app_assoc. Qed.

Lemma isPrefix_parent p : isPrefix (parentPath p) p.
Proof.
  destruct p as [|i p]; [apply isPrefix_refl|].
  exists [indexOf (i :: p)]. apply parent_index. discriminate.
Qed.

Lemma lcp_prefix_l : forall p q, isPrefix (lcp p q) p.
Proof.
  induction p as [|i p IH]; intros q; [apply isPrefix_refl|].
  destruct q as [|j q]; simpl; [now exists (i :: p)|].
  destruct (i =? j); [|now exists (i :: p)].
  destruct (IH q) as [r Hr]. exists r. simpl. now rewrite <- Hr.
Qed.

Lemma lcp_prefix_r : forall p q, isPrefix (lcp p q) q.
Proof.
  induction p as [|i p IH]; intros q; [now exists q|].
  destruct q as [|j q]; simpl; [apply isPrefix_refl|].
  destruct (i =? j) eqn:E; [|now exists (j :: q)].
  apply Nat.eqb_eq in E. subst j.
  destruct (IH q) as [r Hr]. exists r. simpl. now rewrite <- Hr.
Qed.

(** The walk gives the same answer for two callbacks that agree on the
    nodes it visits. *)
Lemma walkUpRev_ext root cb1 cb2 : forall rp,
  (forall q n, isPrefix q (rev rp) -> nodeAt root q = Some n ->
               cb1 q n = cb2 q n) ->
  walkUpRev root rp cb1 = walkUpRev root rp cb2.
Proof.
  induction rp as [|i rp IH]; intros H; [reflexivity|].
  cbn [walkUpRev]. destruct (nodeAt root (rev (i :: rp))) as [n|] eqn:E;
    [|reflexivity].
  rewrite (H _ n (isPrefix_refl _) E).
  destruct (cb2 (rev (i :: rp)) n); [reflexivity|].
  apply IH. intros q m Hq Hm. apply H; auto.
  eapply isPrefix_trans; [exact Hq|]. exists [i]. reflexivity.
Qed.

(** A walk that finds something from a node finds something from every
    node of the tree below it. *)
Lemma walkUp_extend root cb p : forall r a,
  walkUp root p cb = Some a ->
  nodeAt root (p ++ r) <> None ->
  exists a', walkUp root (p ++ r) cb = Some a'.
Proof.
  unfold walkUp. intros r.
  induction r as [|i r IH] using rev_ind; intros a Ha Hv.
  - rewrite app_nil_r. eauto.
  - rewrite app_assoc, rev_unit. cbn [walkUpRev rev].
    rewrite rev_involutive.
    rewrite app_assoc in Hv.
    destruct (nodeAt root ((p ++ r) ++ [i])) as [n|] eqn:E; [|congruence].
    destruct (cb ((p ++ r) ++ [i]) n); [eauto|].
    apply (IH a Ha). rewrite nodeAt_app in E.
    destruct (nodeAt root (p ++ r)); congruence.
Qed.

Lemma pos_cmp_prefix_start : forall q r o, pos_cmp q 0 (q ++ r) o <> Gt.
Proof.
  induction q as [|i q IH]; intros r o; simpl.
  - destruct r as [|j r]; [destruct o; discriminate|].
    discriminate.
  - rewrite Nat.compare_refl. apply IH.
Qed.

Lemma pos_cmp_prefix_end root : forall q r o t a al cs,
  nodeAt root q = Some (Elem t a al cs) ->
  validBoundary root (mkB (q ++ r) o) = true ->
  pos_cmp q (List.length cs) (q ++ r) o <> Lt.
Proof.
  intros q r o t a al cs Hq Hv. unfold validBoundary in Hv. cbn in Hv.
  rewrite nodeAt_app, Hq in Hv.
  assert (H : pos_cmp [] (List.length cs) r o <> Lt).
  { destruct r as [|j r]; simpl.
    - simpl in Hv. apply Nat.leb_le in Hv.
      intros C. apply Nat.compare_lt_iff in C. lia.
    - simpl in Hv. destruct (nth_error cs j) as [c|] eqn:E; [|discriminate].
      assert (j < List.length cs) by (apply nth_error_Some; congruence).
      destruct (j <? List.length cs) eqn:L; [discriminate|].
      apply Nat.ltb_ge in L. lia. }
  clear Hq Hv. induction q as [|i q IH]; simpl; [exact H|].
  now rewrite Nat.compare_refl.
Qed.

Lemma walkUpRev_prefix root cb : forall rp q,
  walkUpRev root rp cb = Some q -> isPrefix q (rev rp).
Proof.
  induction rp as [|i rp IH]; intros q H; simpl in H; [discriminate|].
  destruct (nodeAt root (rev rp ++ [i])) as [n|]; [|discriminate].
  destruct (cb (rev rp ++ [i]) n).
  - inversion H; subst. apply isPrefix_refl.
  - eapply isPrefix_trans; [apply IH, H|]. exists [i]. reflexivity.
Qed.

Lemma findAncestor_prefix root p tagName q :
  findAncestor root p tagName = Some q -> isPrefix q p.
Proof.
  intros H. apply walkUpRev_prefix in H. now rewrite rev_involutive in H.
Qed.

Lemma wrapperParent_prefix root s e :
  isPrefix (wrapperParent root s e) (container s) /\
  isPrefix (wrapperParent root s e) (container e).
Proof.
  unfold wrapperParent, commonAncestorContainer.
  pose proof (lcp_prefix_l (container s) (container e)) as Hl.
  pose proof (lcp_prefix_r (container s) (container e)) as Hr.
  pose proof (isPrefix_parent (lcp (container s) (container e))) as Hp.
  destruct (nodeAt root (lcp (container s) (container e))) as [[d|t a al cs]|];
    split; eauto using isPrefix_trans.
Qed.

(** For a selection of the tree, the containment test inside the loop
    never fails: [isSelectionFullyWrapped] answers whether an element of
    the tag lies at or above the common ancestor, below the root. *)
Lemma isSelectionFullyWrapped_findAncestor ed s tagName :
  sel ed = Some s ->
  validBoundary (content ed) (rstart s) = true ->
  validBoundary (content ed) (rend s) = true ->
  isSelectionFullyWrapped tagName ed
  = isSome (findAncestor (content ed)
              (wrapperParent (content ed) (rstart s) (rend s)) tagName).
Proof.
  intros Hs Hvs Hve. unfold isSelectionFullyWrapped. rewrite Hs.
  fold (wrapperParent (content ed) (rstart s) (rend s)).
  set (anc := wrapperParent (content ed) (rstart s) (rend s)).
  unfold findAncestor, walkUp.
  rewrite (walkUpRev_ext (content ed) _ (fun _ n => isElementWithTag n tagName)).
  { destruct (walkUpRev _ _ _); reflexivity. }
  intros q n Hq Hn. rewrite rev_involutive in Hq.
  unfold isElementWithTag.
  destruct (isElement n && String.eqb (tagOf n) (toUpperCase tagName)) eqn:E;
    [|reflexivity].
  destruct n as [d|t a al cs]; [discriminate|]. cbn [kidsOf].
  destruct (wrapperParent_prefix (content ed) (rstart s) (rend s)) as [Ps Pe].
  fold anc in Ps, Pe.
  destruct (isPrefix_trans _ _ _ Hq Ps) as [rs Hrs].
  destruct (isPrefix_trans _ _ _ Hq Pe) as [re Hre].
  rewrite Hrs, Hre.
  pose proof (pos_cmp_prefix_start q rs (offset (rstart s))) as H1.
  assert (H2 : pos_cmp q (List.length cs) (q ++ re) (offset (rend s)) <> Lt).
  { apply (pos_cmp_prefix_end (content ed) q re _ t a al cs Hn).
    rewrite <- Hre. now destruct (rend s). }
  destruct (pos_cmp q 0 (q ++ rs) (offset (rstart s))); try congruence;
    destruct (pos_cmp q (List.length cs) (q ++ re) (offset (rend s)));
    try congruence; reflexivity.
Qed.

(** A position between the two boundary points lies below their common
    ancestor. *)
Lemma between_lcp : forall sp so ep eo q i,
  pos_cmp sp so q i <> Gt -> pos_cmp q (S i) ep eo <> Gt ->
  isPrefix (lcp sp ep) q.
Proof.
  induction sp as [|a sp IH]; intros so ep eo q i H1 H2; [now exists q|].
  destruct ep as [|b ep]; [now exists q|].
  cbn [lcp]. destruct (a =? b) eqn:E; [|now exists q].
  apply Nat.eqb_eq in E. subst b.
  destruct q as [|k q].
  - exfalso. simpl in H1, H2.
    destruct (a <? i) eqn:L1; [|congruence].
    destruct (a <? S i) eqn:L2; [congruence|].
    apply Nat.ltb_lt in L1. apply Nat.ltb_ge in L2. lia.
  - simpl in H1, H2.
    destruct (a ?= k) eqn:C1; try congruence.
    + apply Nat.compare_eq in C1. subst k. rewrite Nat.compare_refl in H2.
      destruct (IH so ep eo q i H1 H2) as [r Hr]. exists r. simpl. now rewrite <- Hr.
    + exfalso. apply Nat.compare_lt_iff in C1.
      destruct (k ?= a) eqn:C2; try congruence.
      * apply Nat.compare_eq in C2. lia.
      * apply Nat.compare_lt_iff in C2. lia.
Qed.

Lemma nodeAt_below_text root c d r :
  nodeAt root c = Some (Text d) -> nodeAt root (c ++ r) <> None -> r = [].
Proof.
  intros Hc Hr. rewrite nodeAt_app, Hc in Hr.
  destruct r; [reflexivity | simpl in Hr; congruence].
Qed.

(** C2 (as amended).  For a selection of the tree,
    [isSelectionFullyWrapped(tag)] is true exactly when one element of the
    tag, below the editor root, lies at or above the range's common
    ancestor container (a text node counting as its parent); such an
    element is an inclusive ancestor of both boundary nodes, and the
    closed-interval containment test holds for it without further
    condition.  In that case every leaf text position in the selection has
    an ancestor of the tag; the converse does not hold. *)
Theorem C2_fully_wrapped_is_one_enclosing_element :
  forall (ed : editor) (s : selection) (tagName : string),
    sel ed = Some s ->
    validBoundary (content ed) (rstart s) = true ->
    validBoundary (content ed) (rend s) = true ->
    (isSelectionFullyWrapped tagName ed = true <->
     exists q,
       findAncestor (content ed)
         (wrapperParent (content ed) (rstart s) (rend s)) tagName = Some q) /\
    (forall q,
       findAncestor (content ed)
         (wrapperParent (content ed) (rstart s) (rend s)) tagName = Some q ->
       q <> [] /\
       isPrefix q (container (rstart s)) /\ isPrefix q (container (rend s)) /\
       exists a al cs,
         nodeAt (content ed) q = Some (Elem (toUpperCase tagName) a al cs)) /\
    (isSelectionFullyWrapped tagName ed = true ->
     spec_everyPositionWrapped tagName ed = true).
Proof.
  intros ed s tagName Hs Hvs Hve.
  pose proof (isSelectionFullyWrapped_findAncestor ed s tagName Hs Hvs Hve) as Hiff.
  destruct (wrapperParent_prefix (content ed) (rstart s) (rend s)) as [Ps Pe].
  split; [|split].
  - rewrite Hiff. destruct (findAncestor _ _ _) as [q|]; simpl; split.
    + eauto.
    + reflexivity.
    + discriminate.
    + intros [q Hq]. discriminate.
  - intros q Hq. pose proof (findAncestor_prefix _ _ _ _ Hq) as Hp.
    destruct (findAncestor_Some _ _ _ _ Hq) as (t & a & al & cs & Hn & Ht & Hne).
    subst t. repeat split; eauto using isPrefix_trans.
  - rewrite Hiff. intros Hfa.
    destruct (findAncestor (content ed)
                (wrapperParent (content ed) (rstart s) (rend s)) tagName)
      as [qa|] eqn:Hqa; [|discriminate].
    unfold spec_everyPositionWrapped. rewrite Hs.
    apply forallb_forall. intros [q n] Hin. cbn [fst snd].
    destruct n as [data|]; [|reflexivity].
    apply forallb_forall. intros i _.
    destruct (charInSelection s q i) eqn:Hc; [|reflexivity]. cbn [implb].
    destruct (descendants_spec _ _ _ _ Hin) as (rel & _ & Hq & Hn).
    simpl in Hq. subst rel.
    assert (Hcac : isPrefix (commonAncestorContainer (rstart s) (rend s)) q).
    { unfold charInSelection, bcmp in Hc. cbn [container offset] in Hc.
      apply (between_lcp _ (offset (rstart s)) _ (offset (rend s)) q i).
      - destruct (pos_cmp (container (rstart s)) (offset (rstart s)) q i);
          congruence.
      - destruct (pos_cmp (container (rstart s)) (offset (rstart s)) q i);
          destruct (pos_cmp q (S i) (container (rend s)) (offset (rend s)));
          congruence. }
    assert (Hanc : isPrefix (wrapperParent (content ed) (rstart s) (rend s)) q).
    { unfold wrapperParent.
      destruct (nodeAt (content ed) (commonAncestorContainer (rstart s) (rend s)))
        as [[d|t a al cs]|] eqn:E; auto.
      destruct Hcac as [r Hr].
      assert (r = []).
      { apply (nodeAt_below_text (content ed) _ d r E). rewrite <- Hr. congruence. }
      subst r. rewrite app_nil_r in Hr. rewrite Hr. apply isPrefix_parent. }
    destruct Hanc as [r Hr].
    destruct (walkUp_extend (content ed)
                (fun _ n => isElementWithTag n tagName) _ r qa Hqa) as [a' Ha'].
    { rewrite <- Hr. congruence. }
    unfold findAncestor. rewrite Hr, Ha'. reflexivity.
Qed.

(** C2 as stated fails: in [<p><strong>a</strong><strong>b</strong></p>],
    selected from the start of "a" to the end of "b", every leaf text
    position of the selection has a STRONG ancestor, yet
    [isSelectionFullyWrapped('strong')] is false, no single STRONG holding
    both ends. *)
Lemma C2_every_position_wrapped_yet_false :
  spec_everyPositionWrapped "strong" Sample.twoStrongs = true /\
  isSelectionFullyWrapped "strong" Sample.twoStrongs = false.
Proof. split; reflexivity. Qed.

(** ** C5: toggling repeatedly *)

Lemma textContent_iterate_toggle tagName : forall n ed,
  textContent (content (iterate n (toggleElement tagName) ed))
  = textContent (content ed).
Proof.
  induction n as [|n IH]; intros ed; simpl; [reflexivity|].
  now rewrite IH, textContent_toggleElement.
Qed.

(** C5 as stated fails: in [<p><strong><strong>x</strong></strong></p>]
    with "x" selected the selection is not collapsed and fully wrapped;
    the first [toggleElement('strong')] unwraps the inner STRONG, the
    second the outer one, and the selection is no longer fully wrapped.
    In [<p>hello <strong>world</strong></p>] with "world" selected the
    unwrap leaves the live selection collapsed, the second call wraps
    nothing, and the answer stays false as well. *)
Lemma C5_two_toggles_do_not_restore :
  (collapsed (mkSel (mkB [0; 0; 0; 0] 0) (mkB [0; 0; 0; 0] 1) false) = false /\
   isSelectionFullyWrapped "strong" Sample.nestedStrong = true /\
   isSelectionFullyWrapped "strong"
     (iterate 2 (toggleElement "strong") Sample.nestedStrong) = false) /\
  (isSelectionFullyWrapped "strong" Sample.worldSelected = true /\
   isSelectionFullyWrapped "strong"
     (iterate 2 (toggleElement "strong") Sample.worldSelected) = false).
Proof. repeat split; reflexivity. Qed.

(** ** The theorems at sample documents, continued *)

Lemma C2_fully_wrapped_is_one_enclosing_element_witness :
  validBoundary (content Sample.worldSelected) (mkB [0; 1; 0] 0) = true /\
  validBoundary (content Sample.worldSelected) (mkB [0; 1; 0] 5) = true /\
  (isSelectionFullyWrapped "strong" Sample.worldSelected = true <->
   exists q,
     findAncestor (content Sample.worldSelected)
       (wrapperParent (content Sample.worldSelected)
                      (mkB [0; 1; 0] 0) (mkB [0; 1; 0] 5)) "strong" = Some q).
Proof.
  split; [reflexivity|]. split; [reflexivity|].
  apply (C2_fully_wrapped_is_one_enclosing_element Sample.worldSelected
           (mkSel (mkB [0; 1; 0] 0) (mkB [0; 1; 0] 5) false) "strong");
    reflexivity.
Defined.

(** In [<p>hello <strong>world</strong></p>], selected from the start of
    the paragraph to the end of "world", the extraction moves "world" to a
    clone of the STRONG and leaves the original STRONG with an empty text
    node; the cleanup removes it before [toggleElement('em')] returns. *)
Lemma C7_empty_inline_elements_witness :
  noEmptyInline (content Sample.throughStrong) = true /\
  content (toggleElement "em" Sample.throughStrong)
  = el "DIV" [el "P" [el "EM" [Text "hello "; el "STRONG" [Text "world"]]]] /\
  noEmptyInline (content (toggleElement "em" Sample.throughStrong)) = true /\
  noEmptyInline (content (unwrapSelection "strong" Sample.cursorInStrong))
    = true.
Proof.
  split; [reflexivity|]. split; [reflexivity|].
  destruct (C7_empty_inline_elements Sample.throughStrong "em" None)
    as [_ H1].
  destruct (C7_empty_inline_elements Sample.cursorInStrong "strong" None)
    as [_ H2].
  split; [apply H1; reflexivity | apply H2; reflexivity].
Defined.

(** ** C5, continued: wrap, then unwrap, in a single block *)

Lemma lcp_same p : lcp p p = p.
Proof. induction p as [|i p IH]; simpl; [reflexivity|]. now rewrite Nat.eqb_refl, IH. Qed.

Lemma pos_cmp_same p a b : pos_cmp p a p b = (a ?= b).
Proof. induction p as [|i p IH]; simpl; [reflexivity|]. now rewrite Nat.compare_refl. Qed.

Lemma trackPruneNode_single tag i n q' :
  trackPruneNode tag [i] n = Some q' -> exists k, q' = [k].
Proof.
  simpl. destruct n as [d|t a al cs]; [discriminate|].
  destruct (nth_error cs i) as [c|]; [|discriminate].
  destruct (doomed tag c); [discriminate|].
  simpl. intros H. inversion H. eauto.
Qed.

Lemma cleanupTrackNode_single : forall tags n i q',
  cleanupTrackNode tags n [i] = Some q' -> exists k, q' = [k].
Proof.
  induction tags as [|t ts IH]; intros n i q' H; cbn [cleanupTrackNode] in H.
  - inversion H. eauto.
  - destruct (trackPruneNode t [i] n) as [q1|] eqn:T; [|discriminate].
    destruct (trackPruneNode_single _ _ _ _ T) as [k ->]. eauto.
Qed.

Lemma cleanupAt_wrapper_child P i t1 trB trN w :
  w_wrapper (cleanupAt P (P ++ [i]) t1 trB trN) = Some w ->
  exists k, w = P ++ [k].
Proof.
  unfold cleanupAt. destruct (nodeAt t1 P) as [par|]; cbn [w_wrapper].
  - unfold underN. rewrite strip_prefix_app.
    destruct (cleanupTrackNode INLINE_TAGS par [i]) as [q'|] eqn:T; [|discriminate].
    destruct (cleanupTrackNode_single _ _ _ _ T) as [k ->].
    simpl. intros H. inversion H. eauto.
  - intros H. inversion H. eauto.
Qed.

(** The wrapper, where reported, is a child of the wrapper's parent. *)
Lemma w_wrapper_child root s e tagName attributes w :
  w_wrapper (wrapRange root s e tagName attributes) = Some w ->
  exists k, w = wrapperParent root s e ++ [k].
Proof.
  unfold wrapRange, wrapperParent.
  destruct (nodeAt root (commonAncestorContainer s e)) as [[data|t a al cs]|];
    [| |discriminate].
  - apply cleanupAt_wrapper_child.
  - destruct (extractKids _ _ _ _ cs) as [[before fragment] after].
    apply cleanupAt_wrapper_child.
Qed.

(** When the walk finds nothing from a node of the tree, the callback
    fails on every node it passes, and conversely. *)
Lemma walkUpRev_None_all root cb : forall rp,
  walkUpRev root rp cb = None ->
  nodeAt root (rev rp) <> None ->
  forall q n, isPrefix q (rev rp) -> q <> [] -> nodeAt root q = Some n ->
              cb q n = false.
Proof.
  induction rp as [|i rp IH]; intros H Hv q n Hq Hne Hn.
  - destruct Hq as [r Hr]. destruct q; [congruence | simpl in Hr; discriminate].
  - cbn [walkUpRev] in H. cbn [rev] in *.
    destruct (nodeAt root (rev rp ++ [i])) as [m|] eqn:E; [|congruence].
    destruct (cb (rev rp ++ [i]) m) eqn:C; [discriminate|].
    destruct Hq as [r Hr].
    destruct r as [|x r] using rev_ind.
    + rewrite app_nil_r in Hr. subst q. rewrite E in Hn. now inversion Hn; subst.
    + clear IHr. rewrite app_assoc in Hr. apply app_inj_tail in Hr as [Hr _].
      apply (IH H); auto.
      * rewrite nodeAt_app in E. destruct (nodeAt root (rev rp)); congruence.
      * now exists r.
Qed.

Lemma walkUpRev_all_None root cb : forall rp,
  (forall q n, isPrefix q (rev rp) -> q <> [] -> nodeAt root q = Some n ->
               cb q n = false) ->
  walkUpRev root rp cb = None.
Proof.
  induction rp as [|i rp IH]; intros H; [reflexivity|].
  cbn [walkUpRev]. destruct (nodeAt root (rev (i :: rp))) as [m|] eqn:E;
    [|reflexivity].
  rewrite (H _ m (isPrefix_refl _)); auto.
  - apply IH. intros q n Hq Hne Hn. apply H; auto.
    eapply isPrefix_trans; [exact Hq|]. exists [i]. reflexivity.
  - simpl. destruct (rev rp); discriminate.
Qed.

(** Rewriting the node at [P] without changing its kind or tag leaves kind
    and tag of every node on the way to [P] as they were. *)
Lemma updateAt_path_kind f : forall P n q m',
  (forall c, nodeAt n P = Some c ->
     isElement (f c) = isElement c /\ tagOf (f c) = tagOf c) ->
  isPrefix q P ->
  nodeAt (updateAt f P n) q = Some m' ->
  exists m, nodeAt n q = Some m /\
            isElement m' = isElement m /\ tagOf m' = tagOf m.
Proof.
  induction P as [|i P IH]; intros n q m' Hf [r Hr] Hm.
  - destruct q; [|discriminate]. simpl in *. inversion Hm; subst m'.
    exists n. split; [reflexivity|]. now apply Hf.
  - destruct q as [|j q].
    + assert (Hm' : m' = updateAt f (i :: P) n) by (cbn [nodeAt] in Hm; congruence).
      subst m'. exists n. split; [reflexivity|]. apply updateAt_kind. exact Hf.
    + simpl in Hr. inversion Hr; subst j. clear Hr.
      destruct n as [d|t a al cs]; [simpl in Hm; discriminate|].
      cbn [updateAt nodeAt] in Hm.
      destruct (nth_error cs i) as [c|] eqn:E.
      * rewrite (nth_error_splice_single _ _ _ _ E) in Hm.
        destruct (IH c q m') as (m & Hm1 & Hk); auto.
        { intros c' Hc'. apply Hf. cbn [nodeAt]. now rewrite E. }
        { now exists r. }
        exists m. split; [|exact Hk]. cbn [nodeAt]. now rewrite E.
      * unfold splice_nth in Hm. rewrite E in Hm. rewrite E in Hm. discriminate.
Qed.

Lemma parentPath_snoc P k : parentPath (P ++ [k]) = P.
Proof. apply removelast_last. Qed.

Lemma indexOf_snoc P k : indexOf (P ++ [k]) = k.
Proof. apply last_last. Qed.

Lemma walkUp_snoc_hit root P k cb n :
  nodeAt root (P ++ [k]) = Some n -> cb (P ++ [k]) n = true ->
  walkUp root (P ++ [k]) cb = Some (P ++ [k]).
Proof.
  intros Hn Hc. unfold walkUp. rewrite rev_unit. cbn [walkUpRev rev].
  rewrite rev_involutive, Hn, Hc. reflexivity.
Qed.

(** The state after wrapping a selection that spans at most one block. *)
Lemma toggle_wraps_single_block ed s tagName w :
  sel ed = Some s ->
  collapsed s = false ->
  isSelectionFullyWrapped tagName ed = false ->
  List.length (getBlocksInSelection (content ed) (rstart s) (rend s)) <= 1 ->
  w_wrapper (wrapRange (content ed) (rstart s) (rend s) tagName None) = Some w ->
  exists kids,
    nodeAt (w_tree (wrapRange (content ed) (rstart s) (rend s) tagName None)) w
      = Some (Elem (toUpperCase tagName) [] EmptyString kids) /\
    toggleElement tagName ed
      = mkEd (w_tree (wrapRange (content ed) (rstart s) (rend s) tagName None))
             (Some (mkSel (mkB w 0) (mkB w (List.length kids)) false)).
Proof.
  intros Hs Hc Hf Hb Hw.
  destruct (wrapRange_wrapper_node _ _ _ _ _ _ Hw) as (kids & Hn & _).
  exists kids. split; [exact Hn|].
  unfold toggleElement. rewrite Hs, Hc, Hf.
  unfold wrapSelectionPerBlock. rewrite Hs, Hc.
  apply Nat.leb_le in Hb. rewrite Hb. rewrite Hw.
  unfold restoreSelection. rewrite Hn. cbn [kidsOf].
  unfold setStartEnd, bcmp. cbn [container offset]. rewrite pos_cmp_same.
  destruct (List.length kids); reflexivity.
Qed.

(** A selection that holds the contents of an element of the tag is fully
    wrapped, and unwrapping takes that element. *)
Lemma wrapper_selected ed P k kids tagName len :
  nodeAt (content ed) (P ++ [k])
    = Some (Elem (toUpperCase tagName) [] EmptyString kids) ->
  len = List.length kids ->
  sel ed = Some (mkSel (mkB (P ++ [k]) 0) (mkB (P ++ [k]) len) false) ->
  isSelectionFullyWrapped tagName ed = true /\
  findAncestor (content ed) (P ++ [k]) tagName = Some (P ++ [k]).
Proof.
  intros Hn Hl Hs. split.
  - unfold isSelectionFullyWrapped. rewrite Hs.
    unfold commonAncestorContainer. cbn [rstart rend container offset].
    rewrite lcp_same, Hn.
    erewrite walkUp_snoc_hit; [reflexivity | exact Hn |].
    cbn [isElement tagOf kidsOf]. rewrite String.eqb_refl, !pos_cmp_same.
    rewrite <- Hl, !Nat.compare_refl. reflexivity.
  - unfold findAncestor. apply (walkUp_snoc_hit _ _ _ _ _ Hn).
    unfold isElementWithTag. cbn [isElement tagOf].
    now rewrite String.eqb_refl.
Qed.

Lemma track_unwrap_inside P k n o :
  track_unwrap (P ++ [k]) n (mkB (P ++ [k]) o) = mkB P (k + n).
Proof.
  unfold track_unwrap. rewrite parentPath_snoc, indexOf_snoc.
  cbn [container]. rewrite strip_prefix_app.
  now rewrite Nat.ltb_irrefl, Nat.eqb_refl.
Qed.

(** C5 (as amended).  Any number of applications of [toggleElement]
    leaves the text content of the tree identical.  For a selection of the
    tree that is not collapsed, not fully wrapped and spans at most one
    block, and whose wrapper the cleanup keeps, the first application
    makes the selection fully wrapped and the second makes it not fully
    wrapped again.  (Starting from a fully wrapped selection the answer is
    in general not restored.) *)
Theorem C5_repeated_toggle :
  forall (ed : editor) (tagName : string),
    (forall n,
        textContent (content (iterate n (toggleElement tagName) ed))
        = textContent (content ed)) /\
    (forall s w,
        sel ed = Some s ->
        collapsed s = false ->
        validBoundary (content ed) (rstart s) = true ->
        validBoundary (content ed) (rend s) = true ->
        isSelectionFullyWrapped tagName ed = false ->
        List.length (getBlocksInSelection (content ed) (rstart s) (rend s)) <= 1 ->
        w_wrapper (wrapRange (content ed) (rstart s) (rend s) tagName None)
          = Some w ->
        isSelectionFullyWrapped tagName (toggleElement tagName ed) = true /\
        isSelectionFullyWrapped tagName
          (iterate 2 (toggleElement tagName) ed) = false).
Proof.
  intros ed tagName. split; [intros n; apply textContent_iterate_toggle|].
  intros s w Hs Hc Hvs Hve Hoff Hb Hw.
  destruct (toggle_wraps_single_block ed s tagName w Hs Hc Hoff Hb Hw)
    as (kids & Hn & Htog).
  destruct (w_wrapper_child _ _ _ _ _ _ Hw) as [k Hk].
  set (P := wrapperParent (content ed) (rstart s) (rend s)) in *.
  set (t1 := w_tree (wrapRange (content ed) (rstart s) (rend s) tagName None)) in *.
  subst w.
  set (ed1 := toggleElement tagName ed) in *.
  assert (Hs1 : sel ed1 = Some (mkSel (mkB (P ++ [k]) 0)
                                      (mkB (P ++ [k]) (List.length kids)) false))
    by (now rewrite Htog).
  assert (Hc1 : content ed1 = t1) by (now rewrite Htog).
  assert (Hn1 : nodeAt (content ed1) (P ++ [k])
                = Some (Elem (toUpperCase tagName) [] EmptyString kids))
    by (now rewrite Hc1).
  destruct (wrapper_selected ed1 P k kids tagName _ Hn1 eq_refl Hs1) as [Hon Hfa].
  split; [exact Hon|].
  (* the second application unwraps the wrapper *)
  assert (H2 : iterate 2 (toggleElement tagName) ed
               = mkEd (spliceAt kidsOf (P ++ [k]) t1)
                      (Some (mkSel (mkB P (k + List.length kids))
                                   (mkB P (k + List.length kids)) false))).
  { cbn [iterate]. fold ed1.
    assert (Hun : unwrapSelection tagName ed1
                  = mkEd (spliceAt kidsOf (P ++ [k]) t1)
                         (Some (mkSel (mkB P (k + List.length kids))
                                      (mkB P (k + List.length kids)) false))).
    { unfold unwrapSelection. rewrite Hs1.
      unfold anchorNode, anchor. cbn [backward rstart container].
      rewrite Hfa, Hn1, Hc1. cbn [kidsOf]. unfold track_sel.
      cbn [rstart rend backward]. now rewrite !track_unwrap_inside. }
    assert (Hin : isInElement ed1 tagName = true).
    { unfold isInElement. rewrite Hs1.
      unfold anchorNode, anchor. cbn [backward rstart container].
      now rewrite Hfa. }
    unfold toggleElement. rewrite Hs1, Hin, Hon.
    match goal with
    | |- (if ?c then _ else _) = _ => destruct c
    end; exact Hun. }
  rewrite H2. clear H2.
  (* the tree after both steps is the old tree rewritten at [P] *)
  destruct (w_tree_normal (content ed) (rstart s) (rend s) tagName None)
    as (G & HG & HGk).
  fold t1 in HG. fold P in HG, HGk.
  rewrite spliceAt_as_updateAt, HG, updateAt_twice.
  match goal with
  | |- context [updateAt ?f P (content ed)] => set (F := f)
  end.
  assert (HF : forall c, nodeAt (content ed) P = Some c ->
                 isElement (F c) = isElement c /\ tagOf (F c) = tagOf c).
  { intros c Hc'. destruct (HGk c Hc') as (Ek & Et & _).
    destruct (cleanup_kind (G c)) as [Ck Ct]. unfold F.
    destruct (cleanupEmptyElements (G c)) as [d|t a al cs] eqn:E;
      cbn [isElement tagOf] in *; split; congruence. }
  (* the old tree has no element of the tag at or above [P] *)
  assert (Hnone : findAncestor (content ed) P tagName = None).
  { pose proof (isSelectionFullyWrapped_findAncestor ed s tagName Hs Hvs Hve) as E.
    rewrite Hoff in E. fold P in E.
    destruct (findAncestor (content ed) P tagName); [discriminate|reflexivity]. }
  assert (HP : exists par, nodeAt (content ed) P = Some par).
  { destruct (nodeAt (content ed) P) as [par|] eqn:E; [eauto|].
    exfalso. rewrite HG, updateAt_invalid in Hn by exact E.
    rewrite nodeAt_app, E in Hn. discriminate. }
  destruct HP as [par HP].
  unfold isSelectionFullyWrapped. cbn [sel content].
  unfold commonAncestorContainer. cbn [rstart rend container offset].
  rewrite lcp_same.
  rewrite (nodeAt_updateAt_self F P _ _ HP).
  assert (Hanc : match F par with Text _ => parentPath P | _ => P end = P).
  { destruct (HF par HP) as [Ek _].
    assert (Hpe : isElement par = true).
    { rewrite HG in Hn. rewrite (nodeAt_updateAt _ _ _ _ [k] HP) in Hn.
      destruct (HGk par HP) as (Gk & _ & _).
      destruct (cleanup_kind (G par)) as [Ck _].
      destruct (cleanupEmptyElements (G par)) as [d|t a al cs]; [discriminate|].
      cbn [isElement] in Ck. congruence. }
    destruct (F par); [cbn [isElement] in Ek; congruence | reflexivity]. }
  rewrite Hanc. unfold walkUp.
  rewrite walkUpRev_all_None; [reflexivity|].
  intros q n' Hq Hne Hn'. rewrite rev_involutive in Hq.
  destruct (updateAt_path_kind F P (content ed) q n' HF Hq Hn')
    as (m & Hm & Ek & Et).
  unfold findAncestor, walkUp in Hnone.
  pose proof (walkUpRev_None_all _ _ _ Hnone) as Hall.
  rewrite rev_involutive in Hall.
  assert (Hv : nodeAt (content ed) P <> None) by congruence.
  specialize (Hall Hv q m Hq Hne Hm). unfold isElementWithTag in Hall.
  rewrite Ek, Et, Hall. reflexivity.
Qed.

Lemma C5_repeated_toggle_witness :
  collapsed (mkSel (mkB [0; 0] 6) (mkB [0; 0] 11) false) = false /\
  isSelectionFullyWrapped "strong" Sample.plainWorld = false /\
  isSelectionFullyWrapped "strong" (toggleElement "strong" Sample.plainWorld)
    = true /\
  isSelectionFullyWrapped "strong"
    (iterate 2 (toggleElement "strong") Sample.plainWorld) = false.
Proof.
  split; [reflexivity|]. split; [reflexivity|].
  destruct (C5_repeated_toggle Sample.plainWorld "strong") as [_ H].
  apply (H (mkSel (mkB [0; 0] 6) (mkB [0; 0] 11) false) [0; 1]);
    try reflexivity.
  simpl. lia.
Defined.

(** ** C6: what the wrapper holds *)




(** *** The text of the extracted fragment *)

Lemma pos_cmp_app P : forall a x b y,
  pos_cmp (P ++ a) x (P ++ b) y = pos_cmp a x b y.
Proof.
  induction P as [|i P IH]; intros a x b y; simpl; [reflexivity|].
  now rewrite Nat.compare_refl.
Qed.

Lemma validBoundary_nodeAt root b :
  validBoundary root b = true -> nodeAt root (container b) <> None.
Proof.
  unfold validBoundary. destruct (nodeAt root (container b)); congruence.
Qed.

























(** ** The scenarios of the specification and of the test suite *)

(** Simple wrap: "world" in [<p>hello world</p>] becomes bold; the split
    leaves an empty text node behind the wrapper, and the selection holds
    the wrapper's contents. *)
Example scenario_simple_wrap :
  toggleElement "strong" Sample.plainWorld
  = mkEd (el "DIV" [el "P" [Text "hello "; el "STRONG" [Text "world"];
                            Text ""]])
         (select [0; 1] 0 [0; 1] 1).
Proof. reflexivity. Qed.

(** Cross-boundary wrap: two bold runs, "he" and "llo wo", and "rld"
    unstyled; the text is still "hello world". *)
Example scenario_cross_boundary_wrap :
  content (toggleElement "strong" Sample.crossBoundary)
  = el "DIV" [el "P" [el "STRONG" [Text "he"];
                      el "STRONG" [Text "llo"; Text " wo"];
                      Text "rld"]] /\
  textContent (content (toggleElement "strong" Sample.crossBoundary))
  = "hello world".
Proof. split; reflexivity. Qed.

(** A selection across three list items is wrapped item by item; the new
    selection runs from the first wrapper to the end of the last. *)
Example scenario_wrap_per_list_item :
  toggleElement "strong" Sample.acrossItems
  = mkEd (el "DIV"
            [el "UL" [el "LI" [Text "item "; el "STRONG" [Text "one"]];
                      el "LI" [el "STRONG" [Text "item two"]];
                      el "LI" [el "STRONG" [Text "item"]; Text " three"]]])
         (select [0; 0; 1] 0 [0; 2; 0] 1).
Proof. reflexivity. Qed.

(** Interior list-item extraction: the first item's list, a paragraph
    "item two", and a new list with the third item, in that order; the
    cursor at the end of the paragraph. *)
Example scenario_interior_extraction :
  setBlockType Sample.browser "p" Sample.threeItems
  = Inside (mkEd (el "DIV" [el "UL" [el "LI" [Text "item one"]];
                            el "P" [Text "item two"];
                            el "UL" [el "LI" [Text "item three"]]])
                 (select [1] 1 [1] 1)).
Proof. reflexivity. Qed.

(** Single-item list removal: no list container remains. *)
Example scenario_single_item_list :
  inside (toggleList Sample.browser "ul" Sample.onlyItem)
  = Some (mkEd (el "DIV" [el "P" [Text "only item"]])
               (select [0] 1 [0] 1)).
Proof. reflexivity. Qed.

(** A block type change after a wrap: the paragraph goes through
    [innerHTML], so the empty text node the wrap left behind the wrapper
    is not in the heading, which has two children and the cursor at
    offset 2. *)
Example scenario_block_change_after_wrap :
  setBlockType Sample.browser "h1"
    (toggleElement "strong" Sample.plainWorld)
  = Inside (mkEd (el "DIV" [el "H1" [Text "hello ";
                                     el "STRONG" [Text "world"]]])
                 (select [0] 2 [0] 2)).
Proof. reflexivity. Qed.

(** A list item directly below the editor element: [toggleList] takes the
    editor element for the list, moves its children into a new list and
    puts that list in the editor element's place.  The editor is left
    empty and the cursor is in the new list, outside it. *)
Example scenario_item_below_editor_root :
  toggleList Sample.browser "ul"
    (mkEd (el "DIV" [el "LI" [Text "x"]]) (select [0; 0] 0 [0; 0] 0))
  = Outside (el "DIV" [])
            [el "UL" [el "LI" [Text "x"]]]
            (Some ([0; 0], 1)).
Proof. reflexivity. Qed.

(** The style engine ignores a value that is no alignment. *)
Example scenario_alignment_ignored :
  setAlignment Sample.browser "bogus"
    (setAlignment Sample.browser "center" Sample.cursorInStrong)
  = setAlignment Sample.browser "center" Sample.cursorInStrong /\
  setAlignment Sample.browser "bogus" Sample.cursorInStrong
  = Sample.cursorInStrong.
Proof. split; reflexivity. Qed.

(** Unwrapping leaves the live selection collapsed behind the children
    that moved out of the element. *)
Example scenario_unwrap_collapses_selection :
  toggleElement "strong" Sample.worldSelected
  = mkEd (el "DIV" [el "P" [Text "hello "; Text "world"]])
         (select [0] 2 [0] 2).
Proof. reflexivity. Qed.

(* ===================================================================== *)
(** * Further properties of the engine *)
(* ===================================================================== *)

(** ** Tag names are compared without regard to case *)

Lemma upper_lower_ascii c : upper_ascii (lower_ascii c) = upper_ascii c.
Proof.
  destruct c as [[] [] [] [] [] [] [] []]; vm_compute; reflexivity.
Qed.

Lemma lower_upper_ascii c : lower_ascii (upper_ascii c) = lower_ascii c.
Proof.
  destruct c as [[] [] [] [] [] [] [] []]; vm_compute; reflexivity.
Qed.

Lemma upper_upper_ascii c : upper_ascii (upper_ascii c) = upper_ascii c.
Proof.
  destruct c as [[] [] [] [] [] [] [] []]; vm_compute; reflexivity.
Qed.

Lemma toUpperCase_toLowerCase s : toUpperCase (toLowerCase s) = toUpperCase s.
Proof.
  induction s as [|c s IH]; simpl; [reflexivity|].
  now rewrite upper_lower_ascii, IH.
Qed.

Lemma toLowerCase_toUpperCase s : toLowerCase (toUpperCase s) = toLowerCase s.
Proof.
  induction s as [|c s IH]; simpl; [reflexivity|].
  now rewrite lower_upper_ascii, IH.
Qed.

Lemma toUpperCase_idem s : toUpperCase (toUpperCase s) = toUpperCase s.
Proof.
  induction s as [|c s IH]; simpl; [reflexivity|].
  now rewrite upper_upper_ascii, IH.
Qed.

(** X1.  [findAncestor] and [isInElement] do not depend on the case of the
    tag name they are given: the upper-cased and the lower-cased name give
    the same answer as the name itself. *)
Theorem X1_findAncestor_ignores_case :
  forall (root : node) (p : path) (ed : editor) (tagName : string),
    findAncestor root p (toUpperCase tagName) = findAncestor root p tagName /\
    findAncestor root p (toLowerCase tagName) = findAncestor root p tagName /\
    isInElement ed (toUpperCase tagName) = isInElement ed tagName /\
    isInElement ed (toLowerCase tagName) = isInElement ed tagName.
Proof.
  intros root p ed tagName.
  assert (U : forall r q, findAncestor r q (toUpperCase tagName)
                          = findAncestor r q tagName).
  { intros r q. unfold findAncestor, isElementWithTag.
    now rewrite toUpperCase_idem. }
  assert (L : forall r q, findAncestor r q (toLowerCase tagName)
                          = findAncestor r q tagName).
  { intros r q. unfold findAncestor, isElementWithTag.
    now rewrite toUpperCase_toLowerCase. }
  repeat split; auto; unfold isInElement; destruct (sel ed); auto.
  - now rewrite U.
  - now rewrite L.
Qed.

(** ** The walk returns the nearest match and stays below the root *)

Lemma isPrefix_snoc q l i :
  isPrefix q (l ++ [i]) -> q = l ++ [i] \/ isPrefix q l.
Proof.
  intros [r Hr]. destruct r as [|x r] using rev_ind.
  - left. now rewrite app_nil_r in Hr.
  - right. rewrite app_assoc in Hr. apply app_inj_tail in Hr as [Hr _].
    now exists r.
Qed.

Lemma isPrefix_antisym a b : isPrefix a b -> isPrefix b a -> a = b.
Proof.
  intros [r Hr] [r' Hr']. rewrite Hr in Hr'. rewrite <- app_assoc in Hr'.
  rewrite <- (app_nil_r a) in Hr' at 1. apply app_inv_head in Hr'.
  symmetry in Hr'. apply app_eq_nil in Hr' as [-> _].
  now rewrite app_nil_r in Hr.
Qed.

Lemma walkUpRev_nearest root cb : forall rp q,
  walkUpRev root rp cb = Some q ->
  forall q' n, isPrefix q q' -> isPrefix q' (rev rp) -> q' <> q ->
               nodeAt root q' = Some n -> cb q' n = false.
Proof.
  induction rp as [|i rp IH]; intros q H q' n Hq Hq' Hne Hn;
    [discriminate|].
  cbn [walkUpRev rev] in *.
  destruct (nodeAt root (rev rp ++ [i])) as [m|] eqn:E; [|discriminate].
  destruct (cb (rev rp ++ [i]) m) eqn:C.
  - inversion H; subst q. exfalso. apply Hne.
    now apply isPrefix_antisym.
  - destruct (isPrefix_snoc _ _ _ Hq') as [->|Hp].
    + rewrite E in Hn. now inversion Hn; subst.
    + now apply (IH q H q' n).
Qed.

(** X2.  When [findAncestor] finds a node, it is an element of the tag
    (compared in upper case), an inclusive ancestor of the start node and
    not the editor root, and it is the nearest one: no node between it and
    the start node is an element of the tag.  When it finds nothing from a
    node of the tree, no inclusive ancestor below the root has the tag;
    the root itself is never looked at. *)
Theorem X2_findAncestor_nearest_below_root :
  forall (root : node) (p : path) (tagName : string),
    (forall q, findAncestor root p tagName = Some q ->
       q <> [] /\ isPrefix q p /\
       (exists a al cs,
           nodeAt root q = Some (Elem (toUpperCase tagName) a al cs)) /\
       (forall q' n, isPrefix q q' -> isPrefix q' p -> q' <> q ->
                     nodeAt root q' = Some n ->
                     isElementWithTag n tagName = false)) /\
    (findAncestor root p tagName = None ->
     nodeAt root p <> None ->
     forall q n, isPrefix q p -> q <> [] -> nodeAt root q = Some n ->
                 isElementWithTag n tagName = false).
Proof.
  intros root p tagName. split.
  - intros q Hq.
    destruct (findAncestor_Some _ _ _ _ Hq) as (t & a & al & cs & Hn & Ht & Hne).
    subst t. repeat split; eauto using findAncestor_prefix.
    intros q' n H1 H2 H3 H4. unfold findAncestor, walkUp in Hq.
    apply (walkUpRev_nearest _ _ _ _ Hq q' n); auto.
    now rewrite rev_involutive.
  - intros Hnone Hv q n Hq Hne Hn. unfold findAncestor, walkUp in Hnone.
    pose proof (walkUpRev_None_all _ _ _ Hnone) as Hall.
    rewrite rev_involutive in Hall. now apply (Hall Hv q n).
Qed.

Lemma X2_findAncestor_nearest_below_root_witness :
  findAncestor (content Sample.nestedStrong) [0; 0; 0; 0] "strong"
    = Some [0; 0; 0] /\
  isPrefix [0; 0; 0] [0; 0; 0; 0] /\
  exists a al cs,
    nodeAt (content Sample.nestedStrong) [0; 0; 0]
    = Some (Elem "STRONG" a al cs).
Proof.
  split; [reflexivity|].
  destruct (X2_findAncestor_nearest_below_root
              (content Sample.nestedStrong) [0; 0; 0; 0] "strong") as [H _].
  destruct (H [0; 0; 0] eq_refl) as (_ & Hp & He & _).
  split; assumption.
Defined.

(** X3.  [findParentBlock] returns, if anything, the nearest inclusive
    ancestor below the editor root that is an element with a tag of
    [BLOCK_TAGS]; so [getBlockType] answers nothing or one of p, h1, h2,
    blockquote, pre, li, figure. *)
Theorem X3_findParentBlock_block_tags :
  forall (root : node) (p : path) (ed : editor),
    (forall q, findParentBlock root p = Some q ->
       q <> [] /\ isPrefix q p /\
       (exists t a al cs, nodeAt root q = Some (Elem t a al cs) /\
                          In t BLOCK_TAGS) /\
       (forall q' t a al cs,
           isPrefix q q' -> isPrefix q' p -> q' <> q ->
           nodeAt root q' = Some (Elem t a al cs) -> ~ In t BLOCK_TAGS)) /\
    (forall t, getBlockType ed = Some t ->
       In t ["p"; "h1"; "h2"; "blockquote"; "pre"; "li"; "figure"]).
Proof.
  intros root p ed.
  assert (G : forall r x q, findParentBlock r x = Some q ->
            q <> [] /\ isPrefix q x /\
            exists t a al cs, nodeAt r q = Some (Elem t a al cs) /\
                              In t BLOCK_TAGS).
  { intros r x q Hq. unfold findParentBlock in Hq.
    pose proof (walkUpRev_prefix _ _ _ _ Hq) as Hp.
    rewrite rev_involutive in Hp.
    apply walkUp_Some in Hq as (n & Hn & Hc & Hne).
    apply andb_prop in Hc as [He Ht].
    destruct n as [d|t a al cs]; [discriminate|].
    repeat split; auto. exists t, a, al, cs. split; auto.
    now apply includes_In. }
  split.
  - intros q Hq. destruct (G _ _ _ Hq) as (Hne & Hp & He).
    repeat split; auto.
    intros q' t a al cs H1 H2 H3 H4 Hin. unfold findParentBlock, walkUp in Hq.
    pose proof (walkUpRev_nearest _ _ _ _ Hq q' (Elem t a al cs) H1) as Hn.
    rewrite rev_involutive in Hn. specialize (Hn H2 H3 H4).
    cbn [isElement tagOf andb] in Hn.
    unfold includes in Hn. assert (existsb (String.eqb t) BLOCK_TAGS = true).
    { apply existsb_exists. exists t. split; auto. apply String.eqb_refl. }
    congruence.
  - intros t Ht. unfold getBlockType in Ht.
    destruct (sel ed) as [s|]; [|discriminate].
    destruct (findParentBlock (content ed) (anchorNode s)) as [b|] eqn:Hb;
      [|discriminate].
    destruct (G _ _ _ Hb) as (_ & _ & bt & a & al & cs & Hn & Hin).
    rewrite Hn in Ht. inversion Ht; subst t. cbn [tagOf].
    simpl in Hin.
    repeat (destruct Hin as [<-|Hin]; [simpl; auto 10|]). destruct Hin.
Qed.

Lemma X3_findParentBlock_block_tags_witness :
  findParentBlock (content Sample.cursorInStrong) [0; 1; 0] = Some [0] /\
  getBlockType Sample.cursorInStrong = Some "p" /\
  In "p" ["p"; "h1"; "h2"; "blockquote"; "pre"; "li"; "figure"].
Proof.
  split; [reflexivity|]. split; [reflexivity|].
  destruct (X3_findParentBlock_block_tags
              (content Sample.cursorInStrong) [0; 1; 0] Sample.cursorInStrong)
    as [_ H].
  apply H. reflexivity.
Defined.

(** ** cleanupEmptyElements and removeTagsFromFragment as normal forms *)

Lemma pruneTag_id tag : forall n, noDoomed tag n = true -> pruneTag tag n = n.
Proof.
  induction n as [s|t a al cs IH] using node_rect'; intros H; [reflexivity|].
  rewrite pruneTag_Elem. f_equal. rewrite noDoomed_Elem in H. unfold pruneKids.
  induction IH as [|c cs Hc _ IHcs]; [reflexivity|].
  cbn [forallb] in H. apply andb_prop in H as [H1 H2].
  apply andb_prop in H1 as [Hd Hn]. cbn [filter]. rewrite Hd. cbn [map].
  now rewrite (Hc Hn), (IHcs H2).
Qed.

Lemma passes_id : forall tags n,
  (forall t, In t tags -> noDoomed t n = true) ->
  fold_left (fun acc t => pruneTag t acc) tags n = n.
Proof.
  induction tags as [|t ts IH]; intros n H; simpl; [reflexivity|].
  rewrite pruneTag_id by (apply H; now left).
  apply IH. intros t' Hin. apply H. now right.
Qed.

Lemma cleanup_id n : noEmptyInline n = true -> cleanupEmptyElements n = n.
Proof.
  intros H. apply passes_id. intros t Hin.
  unfold noEmptyInline in H. rewrite forallb_forall in H. now apply H.
Qed.

(** X4.  [cleanupEmptyElements] changes nothing in a container that holds
    no empty inline element, so running it a second time changes nothing;
    and it never changes the container's text. *)
Theorem X4_cleanup_is_idempotent :
  forall (container : node),
    (noEmptyInline container = true ->
     cleanupEmptyElements container = container) /\
    cleanupEmptyElements (cleanupEmptyElements container)
      = cleanupEmptyElements container /\
    textContent (cleanupEmptyElements container) = textContent container.
Proof.
  intros n. split; [apply cleanup_id|]. split.
  - apply cleanup_id, noEmptyInline_cleanup.
  - apply textContent_cleanup.
Qed.

Lemma X4_cleanup_is_idempotent_witness :
  noEmptyInline (content Sample.worldSelected) = true /\
  cleanupEmptyElements (content Sample.worldSelected)
    = content Sample.worldSelected.
Proof.
  split; [reflexivity|].
  destruct (X4_cleanup_is_idempotent (content Sample.worldSelected))
    as [H _].
  apply H. reflexivity.
Defined.

Lemma countElems_Elem p t a al cs :
  countElems p (Elem t a al cs) = (if p t then 1 else 0) + countList p cs.
Proof.
  simpl. f_equal. induction cs as [|c cs IH]; simpl; [reflexivity|].
  now rewrite IH.
Qed.

Lemma countList_app p l1 l2 :
  countList p (l1 ++ l2) = countList p l1 + countList p l2.
Proof. induction l1 as [|c l1 IH]; simpl; [reflexivity|]. rewrite IH. lia. Qed.

Lemma stripTag_id tag : forall n, noTag tag n = true -> stripTag tag n = [n].
Proof.
  induction n as [s|t a al cs IH] using node_rect'; intros H; [reflexivity|].
  cbn [noTag stripTag] in *. apply andb_prop in H as [Ht Hcs].
  apply negb_true_iff in Ht. rewrite Ht. do 2 f_equal.
  induction IH as [|c cs Hc _ IHcs]; [reflexivity|].
  cbn [forallb] in Hcs. apply andb_prop in Hcs as [H1 H2].
  cbn [flat_map]. now rewrite (Hc H1), (IHcs H2).
Qed.

Lemma flat_map_stripTag_id tag l :
  forallb (noTag tag) l = true -> flat_map (stripTag tag) l = l.
Proof.
  induction l as [|c l IH]; intros H; [reflexivity|].
  cbn [forallb] in H. apply andb_prop in H as [H1 H2].
  cbn [flat_map]. now rewrite (stripTag_id _ _ H1), (IH H2).
Qed.

Lemma countList_stripTag p tag : p tag = false -> forall n,
  countList p (stripTag tag n) = countElems p n.
Proof.
  intros Hp. induction n as [s|t a al cs IH] using node_rect'; [reflexivity|].
  rewrite countElems_Elem. cbn [stripTag].
  assert (H : countList p (flat_map (stripTag tag) cs) = countList p cs).
  { induction IH as [|c cs Hc _ IHcs]; [reflexivity|].
    cbn [flat_map countList]. now rewrite countList_app, Hc, IHcs. }
  destruct (String.eqb t tag) eqn:E.
  - apply String.eqb_eq in E. subst t. rewrite Hp. exact H.
  - cbn [countList]. rewrite countElems_Elem, H. lia.
Qed.

(** X5.  [removeTagsFromFragment] leaves a fragment without elements of
    the tag as it is, so stripping twice is stripping once; it keeps the
    text of the fragment; and it keeps every element of any other tag:
    for a set of tags that does not hold the stripped one, the number of
    elements with a tag of the set is the same before and after. *)
Theorem X5_removeTags_keeps_the_rest :
  forall (fragment : list node) (tagName : string) (p : string -> bool),
    (forallb (noTag (toUpperCase tagName)) fragment = true ->
     removeTagsFromFragment fragment tagName = fragment) /\
    removeTagsFromFragment (removeTagsFromFragment fragment tagName) tagName
      = removeTagsFromFragment fragment tagName /\
    textOfList (removeTagsFromFragment fragment tagName) = textOfList fragment /\
    (p (toUpperCase tagName) = false ->
     countList p (removeTagsFromFragment fragment tagName)
       = countList p fragment).
Proof.
  intros fragment tagName p. split; [apply flat_map_stripTag_id|]. split.
  { apply flat_map_stripTag_id, noTag_removeTags. }
  split; [apply textOfList_removeTags|].
  intros Hp. unfold removeTagsFromFragment.
  induction fragment as [|c l IH]; [reflexivity|].
  cbn [flat_map countList].
  now rewrite countList_app, (countList_stripTag p _ Hp), IH.
Qed.

Lemma X5_removeTags_keeps_the_rest_witness :
  forallb (noTag "STRONG") [el "EM" [Text "italic"]; Text " normal"] = true /\
  String.eqb "EM" "STRONG" = false /\
  removeTagsFromFragment [el "EM" [Text "italic"]; Text " normal"] "strong"
    = [el "EM" [Text "italic"]; Text " normal"] /\
  countList (String.eqb "EM")
    (removeTagsFromFragment
       [el "STRONG" [Text "bold"]; el "EM" [Text "italic"]] "strong") = 1.
Proof.
  split; [reflexivity|]. split; [reflexivity|].
  split.
  - destruct (X5_removeTags_keeps_the_rest
                [el "EM" [Text "italic"]; Text " normal"] "strong"
                (String.eqb "EM")) as [H _].
    apply H. reflexivity.
  - destruct (X5_removeTags_keeps_the_rest
                [el "STRONG" [Text "bold"]; el "EM" [Text "italic"]] "strong"
                (String.eqb "EM")) as (_ & _ & _ & H).
    rewrite H; reflexivity.
Defined.

(** ** What unwrapping removes *)

Lemma countList_splice_nth p f i cs c :
  nth_error cs i = Some c ->
  countList p (splice_nth f i cs) + countElems p c
  = countList p cs + countList p (f c).
Proof.
  intros H. apply nth_error_decompose in H as (l1 & l2 & -> & <-).
  rewrite splice_nth_middle, !countList_app. cbn [countList]. lia.
Qed.

Lemma countElems_spliceAt P f : forall p n c,
  p <> [] -> nodeAt n p = Some c ->
  countElems P (spliceAt f p n) + countElems P c
  = countElems P n + countList P (f c).
Proof.
  induction p as [|i p IH]; intros n c Hne Hc; [congruence|].
  destruct n as [s|t a al cs]; [discriminate|].
  cbn [nodeAt] in Hc. destruct (nth_error cs i) as [d|] eqn:E; [|discriminate].
  cbn [spliceAt]. destruct p as [|j p'].
  - cbn [nodeAt] in Hc. inversion Hc; subst d.
    rewrite !countElems_Elem.
    pose proof (countList_splice_nth P f i cs c E). lia.
  - rewrite !countElems_Elem.
    pose proof (countList_splice_nth P
                  (fun x => [spliceAt f (j :: p') x]) i cs d E) as H1.
    cbn [countList] in H1.
    assert (Hne' : j :: p' <> []) by discriminate.
    pose proof (IH d c Hne' Hc) as H2. lia.
Qed.

(** X6.  When the anchor is inside an element of the tag,
    [unwrapSelection] removes exactly one element, and it is an element of
    that tag: for every set of tags, the number of elements of the editor
    whose tag is in the set drops by one if the set holds the tag and is
    unchanged otherwise.  The text of the editor is the same. *)
Theorem X6_unwrap_removes_one_element :
  forall (tagName : string) (ed : editor) (p : string -> bool),
    isInElement ed tagName = true ->
    countElems p (content (unwrapSelection tagName ed))
      + (if p (toUpperCase tagName) then 1 else 0)
    = countElems p (content ed) /\
    textContent (content (unwrapSelection tagName ed))
    = textContent (content ed).
Proof.
  intros tagName ed p H. unfold isInElement in H. unfold unwrapSelection.
  destruct (sel ed) as [s|]; [|discriminate].
  destruct (findAncestor (content ed) (anchorNode s) tagName) as [q|] eqn:F;
    [|discriminate].
  destruct (findAncestor_Some _ _ _ _ F) as (t & a & al & cs & Hn & Ht & Hq).
  rewrite Hn. cbn [content]. split.
  - pose proof (countElems_spliceAt p kidsOf q (content ed) _ Hq Hn) as E.
    rewrite countElems_Elem in E. cbn [kidsOf] in E. subst t. lia.
  - apply textContent_spliceAt. intros c Hc. rewrite Hn in Hc.
    inversion Hc; subst c. cbn [kidsOf]. now rewrite textContent_Elem.
Qed.

Lemma X6_unwrap_removes_one_element_witness :
  isInElement Sample.cursorInStrong "strong" = true /\
  countElems (String.eqb "STRONG")
    (content (unwrapSelection "strong" Sample.cursorInStrong)) + 1
  = countElems (String.eqb "STRONG") (content Sample.cursorInStrong).
Proof.
  split; [reflexivity|].
  destruct (X6_unwrap_removes_one_element "strong" Sample.cursorInStrong
              (String.eqb "STRONG")) as [H _]; [reflexivity|].
  exact H.
Defined.

(** ** The two tests of toggleElement *)

Lemma walkUp_snoc_miss root P k cb n :
  nodeAt root (P ++ [k]) = Some n -> cb (P ++ [k]) n = false ->
  walkUp root (P ++ [k]) cb = walkUp root P cb.
Proof.
  intros Hn Hc. unfold walkUp. rewrite rev_unit. cbn [walkUpRev rev].
  rewrite rev_involutive, Hn, Hc. reflexivity.
Qed.

(** X7.  For a selection inside the editor, [isSelectionFullyWrapped]
    implies [isInElement]: an element of the tag around the whole range is
    also around its anchor.  For a cursor the two tests give the same
    answer. *)
Theorem X7_fully_wrapped_implies_in_element :
  forall (tagName : string) (ed : editor) (s : selection),
    sel ed = Some s ->
    validBoundary (content ed) (rstart s) = true ->
    validBoundary (content ed) (rend s) = true ->
    (isSelectionFullyWrapped tagName ed = true ->
     isInElement ed tagName = true) /\
    (collapsed s = true ->
     isSelectionFullyWrapped tagName ed = isInElement ed tagName).
Proof.
  intros tagName ed s Hs Hvs Hve.
  rewrite (isSelectionFullyWrapped_findAncestor ed s tagName Hs Hvs Hve).
  unfold isInElement. rewrite Hs. split.
  - intros H.
    destruct (findAncestor (content ed)
                (wrapperParent (content ed) (rstart s) (rend s)) tagName)
      as [q|] eqn:F; [|discriminate].
    assert (Hp : isPrefix (wrapperParent (content ed) (rstart s) (rend s))
                   (anchorNode s) /\ nodeAt (content ed) (anchorNode s) <> None).
    { destruct (wrapperParent_prefix (content ed) (rstart s) (rend s))
        as [H1 H2].
      unfold anchorNode, anchor. destruct (backward s); split; auto;
        now apply validBoundary_nodeAt. }
    destruct Hp as [[r Hr] Hv]. rewrite Hr in Hv |- *.
    destruct (walkUp_extend _ _ _ r q F Hv) as [a' Ha'].
    unfold findAncestor. now rewrite Ha'.
  - intros Hc. unfold collapsed, boundary_eqb in Hc.
    apply andb_prop in Hc as [Hc _]. unfold nat_list_eqb in Hc.
    destruct (list_eq_dec Nat.eq_dec (container (rstart s)) (container (rend s)))
      as [E|]; [|discriminate].
    assert (Ha : anchorNode s = container (rstart s)).
    { unfold anchorNode, anchor. now destruct (backward s). }
    rewrite Ha. unfold wrapperParent, commonAncestorContainer.
    rewrite <- E, lcp_same.
    pose proof (validBoundary_nodeAt _ _ Hvs) as Hv.
    destruct (nodeAt (content ed) (container (rstart s))) as [[d|t a al cs]|] eqn:N;
      try congruence.
    + destruct (container (rstart s)) as [|i l] eqn:C using rev_ind.
      * reflexivity.
      * clear IHl. rewrite parentPath_snoc. unfold findAncestor.
        rewrite (walkUp_snoc_miss _ _ _ _ _ N) by reflexivity.
        now destruct (walkUp _ _ _).
    + now destruct (findAncestor _ _ _).
Qed.

Lemma X7_fully_wrapped_implies_in_element_witness :
  isSelectionFullyWrapped "strong" Sample.cursorInStrong = true /\
  isInElement Sample.cursorInStrong "strong" = true.
Proof.
  split; [reflexivity|].
  destruct (X7_fully_wrapped_implies_in_element "strong"
              Sample.cursorInStrong
              (mkSel (mkB [0; 1; 0] 2) (mkB [0; 1; 0] 2) false))
    as [H _]; [reflexivity | reflexivity | reflexivity |].
  apply H. reflexivity.
Defined.

(** ** wrapSelection and createLink *)

Lemma nodeAt_snoc_lt root P k n :
  nodeAt root (P ++ [k]) = Some n ->
  exists par, nodeAt root P = Some par /\ nth_error (kidsOf par) k = Some n.
Proof.
  rewrite nodeAt_app. destruct (nodeAt root P) as [par|]; [|discriminate].
  intros H. exists par. split; [reflexivity|].
  destruct par as [d|t a al cs]; [discriminate|]. cbn [nodeAt kidsOf] in *.
  destruct (nth_error cs k); [assumption | discriminate].
Qed.

(** X8.  [createLink] does nothing without a selection or on a cursor, and
    never changes the text of the editor.  On a range, where [wrapRange]
    reports the wrapper the tree holds an [A] element whose only attribute
    is [href] with the given url and which holds no [A] element; the new
    selection is the content of the wrapper's parent and so covers the
    link. *)
Theorem X8_createLink_wraps_in_anchor :
  forall (url : string) (ed : editor),
    (forall s, sel ed = Some s -> collapsed s = true ->
               createLink url ed = ed) /\
    textContent (content (createLink url ed)) = textContent (content ed) /\
    (forall s w,
        sel ed = Some s -> collapsed s = false ->
        w_wrapper (wrapRange (content ed) (rstart s) (rend s) "a"
                     (Some [("href", url)])) = Some w ->
        exists kids len,
          nodeAt (content (createLink url ed)) w
          = Some (Elem "A" [("href", url)] EmptyString kids) /\
          forallb (noTag "A") kids = true /\
          sel (createLink url ed)
          = Some (mkSel (mkB (parentPath w) 0) (mkB (parentPath w) len) false) /\
          indexOf w < len).
Proof.
  intros url ed. unfold createLink, wrapSelection. split; [|split].
  - intros s Hs Hc. now rewrite Hs, Hc.
  - destruct (sel ed) as [s|]; [|reflexivity].
    destruct (collapsed s); [reflexivity|]. apply textContent_wrapRange.
  - intros s w Hs Hc Hw. rewrite Hs, Hc. cbn [content sel].
    destruct (wrapRange_wrapper_node _ _ _ _ _ _ Hw) as (kids & Hn & Hk).
    destruct (w_wrapper_child _ _ _ _ _ _ Hw) as [k Ek].
    rewrite Ek in Hn |- *. rewrite parentPath_snoc, indexOf_snoc.
    destruct (nodeAt_snoc_lt _ _ _ _ Hn) as (par & Hp & Hnth).
    rewrite Hp. exists kids, (List.length (kidsOf par)).
    repeat split; try assumption.
    apply nth_error_Some. congruence.
Qed.

Lemma X8_createLink_wraps_in_anchor_witness :
  exists kids len,
    nodeAt (content (createLink "https://example.com" Sample.plainWorld)) [0; 1]
    = Some (Elem "A" [("href", "https://example.com")] EmptyString kids) /\
    forallb (noTag "A") kids = true /\
    sel (createLink "https://example.com" Sample.plainWorld)
    = Some (mkSel (mkB (parentPath [0; 1]) 0) (mkB (parentPath [0; 1]) len) false) /\
    indexOf [0; 1] < len.
Proof.
  destruct (X8_createLink_wraps_in_anchor "https://example.com"
              Sample.plainWorld) as (_ & _ & H).
  apply (H (mkSel (mkB [0; 0] 6) (mkB [0; 0] 11) false) [0; 1]);
    reflexivity.
Defined.

(** ** insertFigure *)

Lemma textContent_insertNode root b n :
  textContent n = EmptyString ->
  textContent (fst (insertNode root b n)) = textContent root.
Proof.
  intros Hn. unfold insertNode.
  destruct (nodeAt root (container b)) as [[data|t a al cs]|] eqn:E;
    cbn [fst]; [| |reflexivity].
  - apply textContent_spliceAt. intros c Hc. rewrite E in Hc.
    inversion Hc; subst c. cbn [textOfList textContent]. rewrite Hn.
    cbn. rewrite str_app_nil_r. apply str_take_drop.
  - apply textContent_updateAt. intros c Hc. rewrite E in Hc.
    inversion Hc; subst c. rewrite !textContent_Elem.
    rewrite <- (firstn_skipn (offset b) cs) at 3.
    rewrite !textOfList_app. cbn [textOfList]. now rewrite Hn.
Qed.

Lemma findParentBlock_Some root p q :
  findParentBlock root p = Some q ->
  exists t a al cs,
    nodeAt root q = Some (Elem t a al cs) /\
    includes BLOCK_TAGS t = true /\ q <> [].
Proof.
  intros H. apply walkUp_Some in H as (n & Hn & Hc & Hq).
  apply andb_prop in Hc as [He Ht].
  destruct n as [s|t a al cs]; [discriminate|]. now exists t, a, al, cs.
Qed.

(** The tree after a node was given a new next sibling. *)
Lemma nodeAt_insert_after root P i x fig :
  nodeAt root (P ++ [i]) = Some x ->
  nodeAt (spliceAt (fun b => [b; fig]) (P ++ [i]) root) (P ++ [i]) = Some x /\
  nodeAt (spliceAt (fun b => [b; fig]) (P ++ [i]) root) (P ++ [S i]) = Some fig.
Proof.
  intros Hx. destruct (nodeAt_snoc_lt _ _ _ _ Hx) as (par & Hp & Hnth).
  destruct par as [d|t a al cs]; [destruct i; discriminate|].
  cbn [kidsOf] in Hnth.
  pose proof (nodeAt_spliceAt (fun b => [b; fig]) i P root t a al cs Hp) as E.
  rewrite !nodeAt_app, E. cbn [nodeAt].
  apply nth_error_decompose in Hnth as (l1 & l2 & -> & <-).
  rewrite splice_nth_middle.
  change (l1 ++ [x; fig] ++ l2) with (l1 ++ x :: fig :: l2).
  rewrite nth_error_middle. split; [reflexivity|].
  replace (l1 ++ x :: fig :: l2) with ((l1 ++ [x]) ++ fig :: l2)
    by (now rewrite <- app_assoc).
  replace (S (List.length l1)) with (List.length (l1 ++ [x]))
    by (rewrite length_app; simpl; lia).
  now rewrite nth_error_middle.
Qed.

(** X9.  With the anchor in a block, [insertFigure] leaves the block in
    place and makes the figure its next sibling: a [FIGURE] holding an
    [IMG] with the url as [src] and an empty, editable [FIGCAPTION].  The
    cursor is put at the start of the caption, and the block type reported
    afterwards is "figure". *)
Theorem X9_insertFigure_after_block :
  forall (url : string) (ed : editor) (s : selection) (block : path),
    sel ed = Some s ->
    getParentBlock (content ed) (anchorNode s) = Some block ->
    let ed' := insertFigure url ed in
    let fig := parentPath block ++ [S (indexOf block)] in
    nodeAt (content ed') block = nodeAt (content ed) block /\
    nodeAt (content ed') fig
    = Some (Elem "FIGURE" [] EmptyString
              [Elem "IMG" [("src", url)] EmptyString [];
               Elem "FIGCAPTION" [("contenteditable", "true")] EmptyString []]) /\
    sel ed' = Some (mkSel (mkB (fig ++ [1]) 0) (mkB (fig ++ [1]) 0) false) /\
    getBlockType ed' = Some "figure".
Proof.
  intros url ed s block Hs Hb ed' fig. subst ed' fig.
  destruct (findParentBlock_Some _ _ _ Hb) as (t & a & al & cs & Hn & _ & Hq).
  unfold insertFigure. rewrite Hs, Hb. cbn [content sel].
  rewrite (parent_index block Hq) in Hn.
  destruct (nodeAt_insert_after _ _ _ _
              (Elem (toUpperCase "figure") [] EmptyString
                 [Elem (toUpperCase "img") [("src", url)] EmptyString [];
                  Elem (toUpperCase "figcaption")
                       [("contenteditable", "true")] EmptyString []]) Hn)
    as [H1 H2].
  rewrite <- (parent_index block Hq) in H1, Hn.
  rewrite <- (parent_index block Hq) in H2 at 1.
  split; [now rewrite H1, Hn|]. split; [exact H2|]. split; [reflexivity|].
  unfold getBlockType, findParentBlock. cbn [sel content anchorNode anchor
    backward rstart container].
  erewrite walkUp_snoc_miss.
  - erewrite walkUp_snoc_hit; [rewrite H2; reflexivity | exact H2 | reflexivity].
  - rewrite nodeAt_app, H2. reflexivity.
  - reflexivity.
Qed.

Lemma X9_insertFigure_after_block_witness :
  nodeAt (content (insertFigure "cat.png" Sample.cursorInStrong)) [1]
  = Some (Elem "FIGURE" [] EmptyString
            [Elem "IMG" [("src", "cat.png")] EmptyString [];
             Elem "FIGCAPTION" [("contenteditable", "true")] EmptyString []]) /\
  getBlockType (insertFigure "cat.png" Sample.cursorInStrong) = Some "figure".
Proof.
  destruct (X9_insertFigure_after_block "cat.png" Sample.cursorInStrong
              (mkSel (mkB [0; 1; 0] 2) (mkB [0; 1; 0] 2) false) [0])
    as (_ & H2 & _ & H4); [reflexivity | reflexivity |].
  split; [exact H2 | exact H4].
Defined.

(** X10.  [insertFigure] never changes the text of the editor, wherever
    the figure lands, and with a selection it always leaves a cursor at
    offset 0. *)
Theorem X10_insertFigure_keeps_text :
  forall (url : string) (ed : editor),
    textContent (content (insertFigure url ed)) = textContent (content ed) /\
    (forall s, sel ed = Some s ->
       exists c, sel (insertFigure url ed)
                 = Some (mkSel (mkB c 0) (mkB c 0) false)).
Proof.
  intros url ed. unfold insertFigure. split.
  - destruct (sel ed) as [s|]; [|reflexivity].
    destruct (getParentBlock (content ed) (anchorNode s)) as [block|].
    + cbn [content]. apply textContent_spliceAt. intros c Hc.
      cbn. now rewrite !str_app_nil_r.
    + match goal with
      |- context [insertNode ?r ?b ?f] =>
        pose proof (textContent_insertNode r b f eq_refl) as H;
        destruct (insertNode r b f) as [t p]
      end. exact H.
  - intros s Hs. rewrite Hs.
    destruct (getParentBlock (content ed) (anchorNode s)) as [block|].
    + eexists. reflexivity.
    + match goal with
      |- context [insertNode ?r ?b ?f] => destruct (insertNode r b f) as [t p]
      end. eexists. reflexivity.
Qed.

Lemma X10_insertFigure_keeps_text_witness :
  sel Sample.cursorInStrong
  = Some (mkSel (mkB [0; 1; 0] 2) (mkB [0; 1; 0] 2) false) /\
  exists c, sel (insertFigure "cat.png" Sample.cursorInStrong)
            = Some (mkSel (mkB c 0) (mkB c 0) false).
Proof.
  split; [reflexivity|].
  destruct (X10_insertFigure_keeps_text "cat.png" Sample.cursorInStrong)
    as [_ H].
  apply (H (mkSel (mkB [0; 1; 0] 2) (mkB [0; 1; 0] 2) false)).
  reflexivity.
Defined.

(** ** setAlignment *)

Lemma nth_error_splice_single_other g i cs j :
  j <> i ->
  nth_error (splice_nth (fun x => [g x]) i cs) j = nth_error cs j.
Proof.
  intros Hj. destruct (nth_error cs i) as [c|] eqn:E.
  - apply nth_error_decompose in E as (l1 & l2 & -> & <-).
    rewrite splice_nth_middle.
    destruct (Nat.lt_ge_cases j (List.length l1)) as [Hlt|Hge].
    + now rewrite !nth_error_app1 by assumption.
    + rewrite (nth_error_app2 l1 (c :: l2)) by assumption.
      rewrite (nth_error_app2 l1 ([g c] ++ l2)) by assumption.
      destruct (j - List.length l1) as [|m] eqn:Em; [lia | reflexivity].
  - unfold splice_nth. now rewrite E.
Qed.

Lemma nodeAt_cons_kids n j q :
  nodeAt n (j :: q)
  = match nth_error (kidsOf n) j with Some c => nodeAt c q | None => None end.
Proof. destruct n as [d|t a al cs]; [now destruct j | reflexivity]. Qed.

(** Rewriting one node without touching its kind, tag or children leaves
    every path of the tree pointing at a node of the same kind and tag. *)
Lemma nodeAt_updateAt_shape f :
  (forall c, isElement (f c) = isElement c /\ tagOf (f c) = tagOf c /\
             kidsOf (f c) = kidsOf c) ->
  forall P root q,
    (nodeAt (updateAt f P root) q = None /\ nodeAt root q = None) \/
    (exists a b, nodeAt (updateAt f P root) q = Some a /\
                 nodeAt root q = Some b /\
                 isElement a = isElement b /\ tagOf a = tagOf b).
Proof.
  intros Hf. induction P as [|i P IH]; intros root q.
  - cbn [updateAt]. destruct (Hf root) as (He & Ht & Hk).
    destruct q as [|j q].
    + right. exists (f root), root. auto.
    + rewrite !nodeAt_cons_kids, Hk.
      destruct (nth_error (kidsOf root) j) as [c|]; [|now left].
      destruct (nodeAt c q) as [x|]; [right; exists x, x; auto | now left].
  - destruct root as [d|t a al cs].
    + cbn [updateAt]. destruct (nodeAt (Text d) q) as [x|];
        [right; exists x, x; auto | now left].
    + cbn [updateAt]. destruct q as [|j q].
      * right. eexists _, _. cbn [nodeAt]. auto.
      * cbn [nodeAt]. destruct (Nat.eq_dec j i) as [->|Hne].
        -- destruct (nth_error cs i) as [c|] eqn:E.
           ++ rewrite (nth_error_splice_single _ _ _ _ E). apply IH.
           ++ unfold splice_nth. rewrite E, E. now left.
        -- rewrite nth_error_splice_single_other by assumption.
           destruct (nth_error cs j) as [c|]; [|now left].
           destruct (nodeAt c q) as [x|]; [right; exists x, x; auto | now left].
Qed.

Lemma walkUpRev_same_shape root root' cb :
  (forall q,
      (nodeAt root' q = None /\ nodeAt root q = None) \/
      (exists a b, nodeAt root' q = Some a /\ nodeAt root q = Some b /\
                   isElement a = isElement b /\ tagOf a = tagOf b)) ->
  (forall q n n', isElement n = isElement n' -> tagOf n = tagOf n' ->
                  cb q n = cb q n') ->
  forall rp, walkUpRev root' rp cb = walkUpRev root rp cb.
Proof.
  intros Hs Hcb. induction rp as [|i rp IH]; [reflexivity|].
  cbn [walkUpRev].
  destruct (Hs (rev (i :: rp))) as [[-> ->]|(a & b & -> & -> & He & Ht)];
    [reflexivity|].
  rewrite (Hcb _ a b He Ht), IH. reflexivity.
Qed.

Lemma updateAt_ext f g : (forall x, f x = g x) ->
  forall P n, updateAt f P n = updateAt g P n.
Proof.
  intros H. induction P as [|i P IH]; intros n; simpl; [apply H|].
  destruct n as [d|t a al cs]; [reflexivity|]. f_equal. unfold splice_nth.
  destruct (nth_error cs i); [now rewrite IH | reflexivity].
Qed.

(** X11.  With the anchor in a block, [setAlignment] with a value the
    style engine ignores leaves the editor as it is.  With a value it
    accepts, the text alignment of that block changes and nothing else
    that the engine reports: [hasAlignment] returns what the style engine
    made of the value (nothing when that is the empty string), while the
    block type, the answer of [isInElement] for every tag, the selection
    and the text stay as they were.  A later accepted alignment replaces
    an earlier one; a later ignored one leaves the earlier in place. *)
Theorem X11_setAlignment_sets_only_alignment :
  forall (h : host) (value value2 : string) (ed : editor) (s : selection)
         (block : path),
    sel ed = Some s ->
    getParentBlock (content ed) (anchorNode s) = Some block ->
    (cssTextAlign h value = None -> setAlignment h value ed = ed) /\
    (forall v, cssTextAlign h value = Some v ->
       hasAlignment (setAlignment h value ed)
       = (if String.eqb v EmptyString then None else Some v) /\
       getBlockType (setAlignment h value ed) = getBlockType ed /\
       (forall tagName,
           isInElement (setAlignment h value ed) tagName
           = isInElement ed tagName) /\
       sel (setAlignment h value ed) = sel ed /\
       textContent (content (setAlignment h value ed))
       = textContent (content ed) /\
       (cssTextAlign h value2 <> None ->
        setAlignment h value2 (setAlignment h value ed)
        = setAlignment h value2 ed) /\
       (cssTextAlign h value2 = None ->
        setAlignment h value2 (setAlignment h value ed)
        = setAlignment h value ed)).
Proof.
  intros h value value2 ed s block Hs Hb. split.
  { intros Hv. unfold setAlignment. now rewrite Hs, Hb, Hv. }
  intros v Hv.
  destruct (findParentBlock_Some _ _ _ Hb) as (t & a & al & cs & Hn & _ & Hq).
  set (f := fun v n => match n with
                       | Elem t a _ cs => Elem t a v cs
                       | Text _ => n
                       end).
  assert (Hf : forall v c, isElement (f v c) = isElement c /\
                           tagOf (f v c) = tagOf c /\
                           kidsOf (f v c) = kidsOf c).
  { intros v0 [d|t' a' al' cs']; simpl; auto. }
  assert (Hed : setAlignment h value ed
                = mkEd (updateAt (f v) block (content ed)) (Some s)).
  { unfold setAlignment. now rewrite Hs, Hb, Hv. }
  assert (Hw : forall cb,
             (forall q n n', isElement n = isElement n' -> tagOf n = tagOf n' ->
                             cb q n = cb q n') ->
             walkUp (updateAt (f v) block (content ed)) (anchorNode s) cb
             = walkUp (content ed) (anchorNode s) cb).
  { intros cb Hcb. unfold walkUp. apply walkUpRev_same_shape; [|exact Hcb].
    apply nodeAt_updateAt_shape. apply Hf. }
  assert (Hfb : findParentBlock (updateAt (f v) block (content ed))
                  (anchorNode s) = Some block).
  { unfold getParentBlock, findParentBlock in *. rewrite Hw; [exact Hb|].
    intros q n n' He Ht. now rewrite He, Ht. }
  assert (Hnew : nodeAt (updateAt (f v) block (content ed)) block
                 = Some (Elem t a v cs)).
  { now rewrite (nodeAt_updateAt_self _ _ _ _ Hn). }
  rewrite Hed. repeat split.
  - unfold hasAlignment. cbn [sel content]. now rewrite Hfb, Hnew.
  - unfold getBlockType. cbn [sel content]. rewrite Hfb, Hnew, Hs.
    unfold getParentBlock in Hb. now rewrite Hb, Hn.
  - intros tagName. unfold isInElement, findAncestor. cbn [sel content].
    rewrite Hs, Hw; [reflexivity|].
    intros q n n' He Ht. unfold isElementWithTag. now rewrite He, Ht.
  - now rewrite Hs.
  - cbn [content]. apply textContent_updateAt. intros c Hc.
    rewrite Hn in Hc. inversion Hc; subst c. cbn [f].
    now rewrite !textContent_Elem.
  - intros Hv2. destruct (cssTextAlign h value2) as [v2|] eqn:E2;
      [|congruence].
    unfold setAlignment at 1. cbn [sel content].
    unfold getParentBlock. rewrite Hfb, E2. unfold setAlignment.
    rewrite Hs, Hb, E2. f_equal. fold (f v2). rewrite updateAt_twice.
    apply updateAt_ext. intros [d|t' a' al' cs']; reflexivity.
  - intros Hv2. unfold setAlignment at 1. cbn [sel content].
    unfold getParentBlock. now rewrite Hfb, Hv2.
Qed.

Lemma X11_setAlignment_sets_only_alignment_witness :
  cssTextAlign Sample.browser "center" = Some "center" /\
  hasAlignment (setAlignment Sample.browser "center" Sample.cursorInStrong)
  = Some "center" /\
  setAlignment Sample.browser "right"
    (setAlignment Sample.browser "center" Sample.cursorInStrong)
  = setAlignment Sample.browser "right" Sample.cursorInStrong.
Proof.
  split; [reflexivity|].
  destruct (X11_setAlignment_sets_only_alignment Sample.browser
              "center" "right" Sample.cursorInStrong
              (mkSel (mkB [0; 1; 0] 2) (mkB [0; 1; 0] 2) false) [0])
    as [_ H]; [reflexivity | reflexivity |].
  destruct (H "center") as (H1 & _ & _ & _ & _ & H6 & _); [reflexivity|].
  split; [exact H1|]. apply H6. discriminate.
Defined.

(** ** setBlockType and getBlockType *)

Lemma extractItem_pos nb lt la lal lkids k :
  nth_error (fst (extractItem nb (Elem lt la lal lkids) k))
            (snd (extractItem nb (Elem lt la lal lkids) k)) = Some nb.
Proof.
  unfold extractItem.
  destruct (List.length (children lkids) =? 1); [reflexivity|].
  destruct (childIndex k lkids =? 0); [reflexivity|].
  destruct (childIndex k lkids =? List.length (children lkids) - 1);
    reflexivity.
Qed.

(** The node found at position [pos] of what replaced a child. *)
Lemma nodeAt_replaced root P m x repl pos nb :
  nodeAt root (P ++ [m]) = Some x ->
  nth_error repl pos = Some nb ->
  nodeAt (spliceAt (fun _ => repl) (P ++ [m]) root) (P ++ [m + pos]) = Some nb.
Proof.
  intros Hx Hnb. destruct (nodeAt_snoc_lt _ _ _ _ Hx) as (par & Hp & Hnth).
  destruct par as [d|t a al cs]; [destruct m; discriminate|].
  cbn [kidsOf] in Hnth.
  rewrite nodeAt_app, (nodeAt_spliceAt (fun _ => repl) m P root t a al cs Hp).
  cbn [nodeAt].
  apply nth_error_decompose in Hnth as (l1 & l2 & -> & <-).
  rewrite splice_nth_middle.
  rewrite (nth_error_app2 l1 (repl ++ l2)) by lia.
  replace (List.length l1 + pos - List.length l1) with pos by lia.
  rewrite nth_error_app1 by (apply nth_error_Some; congruence).
  now rewrite Hnb.
Qed.

(** A cursor at the end of a block whose tag is a block tag: the block
    type reported is that tag, and asking for it again changes nothing. *)
Lemma caret_in_new_block h tagName root q al kids :
  q <> [] ->
  nodeAt root q = Some (Elem (toUpperCase tagName) [] al kids) ->
  includes BLOCK_TAGS (toUpperCase tagName) = true ->
  getBlockType
    (mkEd root (Some (caretAtEnd q (Elem (toUpperCase tagName) [] al kids))))
  = Some (toLowerCase tagName) /\
  setBlockType h tagName
    (mkEd root (Some (caretAtEnd q (Elem (toUpperCase tagName) [] al kids))))
  = Inside
      (mkEd root (Some (caretAtEnd q (Elem (toUpperCase tagName) [] al kids)))).
Proof.
  intros Hq Hn Hb.
  assert (Hf : findParentBlock root q = Some q).
  { unfold findParentBlock. rewrite (parent_index q Hq) in Hn |- *.
    eapply walkUp_snoc_hit; [exact Hn|]. cbn [isElement tagOf]. now rewrite Hb. }
  split.
  - unfold getBlockType. cbn [sel content anchorNode anchor caretAtEnd
      backward rstart container]. rewrite Hf, Hn. cbn [tagOf].
    now rewrite toLowerCase_toUpperCase.
  - unfold setBlockType, getParentBlock. cbn [sel content anchorNode anchor
      caretAtEnd backward rstart container]. rewrite Hf, Hn.
    now rewrite toLowerCase_toUpperCase, String.eqb_refl.
Qed.

(** X12.  Round trip of [setBlockType] and [getBlockType].  The anchor is
    in a block of another type, the requested tag is a block tag, and a
    list item's list is not the editor root.  Then the call stays inside
    the editor and leaves the cursor at the end of a new element of the
    requested tag without attributes; its children are what the host
    parses from the old block's [innerHTML].  [getBlockType] reports the
    requested tag, and asking for the same type again changes nothing. *)
Theorem X12_setBlockType_round_trip :
  forall (h : host) (tagName : string) (ed : editor) (s : selection)
         (block : path) bt ba bal bkids,
    sel ed = Some s ->
    getParentBlock (content ed) (anchorNode s) = Some block ->
    nodeAt (content ed) block = Some (Elem bt ba bal bkids) ->
    toLowerCase bt <> toLowerCase tagName ->
    includes BLOCK_TAGS (toUpperCase tagName) = true ->
    (bt = "LI" -> parentPath block <> []) ->
    let kids := htmlRoundTrip h (toUpperCase tagName) bkids in
    exists ed',
      setBlockType h tagName ed = Inside ed' /\
      getBlockType ed' = Some (toLowerCase tagName) /\
      (exists q al,
          sel ed' = Some (mkSel (mkB q (List.length kids))
                                (mkB q (List.length kids)) false) /\
          nodeAt (content ed') q
          = Some (Elem (toUpperCase tagName) [] al kids)) /\
      setBlockType h tagName ed' = Inside ed'.
Proof.
  intros h tagName ed s block bt ba bal bkids Hs Hb Hn Hne Hblk Hli kids.
  assert (Hq : block <> []).
  { destruct (findParentBlock_Some _ _ _ Hb) as (? & ? & ? & ? & _ & _ & H).
    exact H. }
  assert (Hfin : forall root q al,
    q <> [] ->
    nodeAt root q = Some (Elem (toUpperCase tagName) [] al kids) ->
    setBlockType h tagName ed
    = Inside (mkEd root
                (Some (caretAtEnd q (Elem (toUpperCase tagName) [] al kids)))) ->
    exists ed',
      setBlockType h tagName ed = Inside ed' /\
      getBlockType ed' = Some (toLowerCase tagName) /\
      (exists q al,
          sel ed' = Some (mkSel (mkB q (List.length kids))
                                (mkB q (List.length kids)) false) /\
          nodeAt (content ed') q
          = Some (Elem (toUpperCase tagName) [] al kids)) /\
      setBlockType h tagName ed' = Inside ed').
  { intros root q al Hqne Hnode E.
    destruct (caret_in_new_block h tagName root q al kids Hqne Hnode Hblk)
      as [H1 H2].
    eexists. split; [exact E|]. split; [exact H1|]. split; [|exact H2].
    exists q, al. split; [reflexivity | exact Hnode]. }
  assert (Hstd : nodeAt (spliceAt
                   (fun _ => [Elem (toUpperCase tagName) [] bal kids])
                   block (content ed)) block
                 = Some (Elem (toUpperCase tagName) [] bal kids)).
  { pose proof Hn as Hn'. rewrite (parent_index block Hq) in Hn'.
    pose proof (nodeAt_replaced _ _ _ _
                  [Elem (toUpperCase tagName) [] bal kids] 0 _ Hn' eq_refl)
      as E.
    rewrite Nat.add_0_r, <- (parent_index block Hq) in E. exact E. }
  assert (Hstandard :
    setBlockType h tagName ed
    = Inside (mkEd (spliceAt (fun _ => [Elem (toUpperCase tagName) [] bal kids])
                      block (content ed))
                   (Some (caretAtEnd block
                            (Elem (toUpperCase tagName) [] bal kids)))) ->
    exists ed',
      setBlockType h tagName ed = Inside ed' /\
      getBlockType ed' = Some (toLowerCase tagName) /\
      (exists q al,
          sel ed' = Some (mkSel (mkB q (List.length kids))
                                (mkB q (List.length kids)) false) /\
          nodeAt (content ed') q
          = Some (Elem (toUpperCase tagName) [] al kids)) /\
      setBlockType h tagName ed' = Inside ed').
  { intros E. exact (Hfin _ block bal Hq Hstd E). }
  assert (Hed : exists o, setBlockType h tagName ed = o /\
                          o = setBlockType h tagName ed) by eauto.
  destruct Hed as (o & Ho & Hed). rewrite Ho in Hfin, Hstandard |- *.
  unfold setBlockType in Hed. rewrite Hs, Hb, Hn in Hed.
  rewrite (string_eqb_neq _ _ Hne) in Hed. fold kids in Hed.
  destruct (String.eqb bt "LI") eqn:Eli; [|exact (Hstandard Hed)].
  apply String.eqb_eq in Eli. specialize (Hli Eli).
  destruct (nodeAt (content ed) (parentPath block)) as [listEl|] eqn:El;
    [|exact (Hstandard Hed)].
  destruct (String.eqb (tagOf listEl) "UL" || String.eqb (tagOf listEl) "OL")
    eqn:Elist; [|exact (Hstandard Hed)].
  destruct (parentPath block) as [|x r] eqn:Epp; [congruence|].
  destruct listEl as [d|lt la lal lkids]; [discriminate|].
  unfold extractFromList in Hed. rewrite Epp in Hed.
  pose proof (extractItem_pos (Elem (toUpperCase tagName) [] EmptyString kids)
                lt la lal lkids (indexOf block)) as Hpos.
  destruct (extractItem (Elem (toUpperCase tagName) [] EmptyString kids)
              (Elem lt la lal lkids) (indexOf block)) as [repl pos].
  cbn [fst snd] in Hpos.
  assert (Hlp : x :: r <> []) by discriminate.
  refine (Hfin _ _ EmptyString _ _ Hed).
  - destruct (parentPath (x :: r)); discriminate.
  - pose proof El as El'. rewrite (parent_index _ Hlp) in El'.
    pose proof (nodeAt_replaced _ _ _ _ repl pos _ El' Hpos) as E.
    rewrite <- (parent_index _ Hlp) in E. exact E.
Qed.

Lemma X12_setBlockType_round_trip_witness :
  exists ed',
    setBlockType Sample.browser "h1" Sample.cursorInStrong = Inside ed' /\
    getBlockType ed' = Some "h1" /\
    setBlockType Sample.browser "h1" ed' = Inside ed'.
Proof.
  destruct (X12_setBlockType_round_trip Sample.browser "h1"
              Sample.cursorInStrong
              (mkSel (mkB [0; 1; 0] 2) (mkB [0; 1; 0] 2) false) [0]
              "P" [] EmptyString [Text "hello "; el "STRONG" [Text "world"]])
    as (ed' & H0 & H1 & _ & H3);
    [reflexivity | reflexivity | reflexivity | discriminate | reflexivity
    | discriminate |].
  exists ed'. split; [exact H0|]. split; [exact H1 | exact H3].
Defined.

(** ** toggleList on a block outside a list *)

Lemma spliceAt_const_twice (a b : node) : forall q root,
  q <> [] ->
  spliceAt (fun _ => [a]) q (spliceAt (fun _ => [b]) q root)
  = spliceAt (fun _ => [a]) q root.
Proof.
  intros q root Hq. rewrite (parent_index q Hq), !spliceAt_as_updateAt.
  rewrite updateAt_twice. apply updateAt_ext.
  intros [d|t x al cs]; [reflexivity|]. f_equal.
  apply (splice_nth_single_twice (fun _ => a) (fun _ => b)).
Qed.

(** X13.  [toggleList] on a block that is not a list item stays inside
    the editor and puts, in the block's place, a new list of the requested
    kind with a single item; the item's children are what the host parses
    from the block's [innerHTML].  The engine then reports the block type
    "li" and the list type as active.  Toggling the same list type again
    turns that item into a paragraph, again through [innerHTML]: after the
    two steps the block has become a paragraph, whatever it was before,
    with the cursor at its end. *)
Theorem X13_toggleList_promote_then_demote :
  forall (h : host) (type : string) (ed : editor) (s : selection)
         (block : path) bt ba bal bkids,
    sel ed = Some s ->
    getParentBlock (content ed) (anchorNode s) = Some block ->
    nodeAt (content ed) block = Some (Elem bt ba bal bkids) ->
    bt <> "LI" ->
    type = "ul" \/ type = "ol" ->
    let item := htmlRoundTrip h "LI" bkids in
    let para := Elem "P" [] EmptyString (htmlRoundTrip h "P" item) in
    exists ed',
      toggleList h type ed = Inside ed' /\
      nodeAt (content ed') block
      = Some (Elem (toUpperCase type) [] EmptyString
                [Elem "LI" [] EmptyString item]) /\
      getBlockType ed' = Some "li" /\
      isInListType ed' type = true /\
      toggleList h type ed'
      = Inside (mkEd (spliceAt (fun _ => [para]) block (content ed))
                     (Some (caretAtEnd block para))).
Proof.
  intros h type ed s block bt ba bal bkids Hs Hb Hn Hli Hty item para.
  assert (Hq : block <> []).
  { destruct (findParentBlock_Some _ _ _ Hb) as (? & ? & ? & ? & _ & _ & H).
    exact H. }
  set (li := Elem "LI" [] EmptyString item).
  set (list := Elem (toUpperCase type) [] EmptyString [li]).
  set (ed' := mkEd (spliceAt (fun _ => [list]) block (content ed))
                   (Some (caretAtEnd (block ++ [0]) li))).
  assert (Hed : toggleList h type ed = Inside ed').
  { unfold toggleList. rewrite Hs, Hb, Hn.
    now rewrite (string_eqb_neq _ _ Hli). }
  assert (Hlist : nodeAt (content ed') block = Some list).
  { cbn [ed' content]. pose proof Hn as Hn'.
    rewrite (parent_index block Hq) in Hn'.
    pose proof (nodeAt_replaced _ _ _ _ [list] 0 _ Hn' eq_refl) as E.
    rewrite Nat.add_0_r, <- (parent_index block Hq) in E. exact E. }
  assert (Hitem : nodeAt (content ed') (block ++ [0]) = Some li).
  { now rewrite nodeAt_app, Hlist. }
  assert (Hfb : findParentBlock (content ed') (block ++ [0])
                = Some (block ++ [0])).
  { unfold findParentBlock. eapply walkUp_snoc_hit; [exact Hitem|reflexivity]. }
  assert (Hup : toLowerCase (toUpperCase type) = type)
    by (destruct Hty; subst; reflexivity).
  assert (Hanchor : sel ed' = Some (caretAtEnd (block ++ [0]) li))
    by reflexivity.
  exists ed'. split; [exact Hed|]. split; [exact Hlist|]. split; [|split].
  - unfold getBlockType. rewrite Hanchor.
    cbn [anchorNode anchor caretAtEnd backward rstart container].
    now rewrite Hfb, Hitem.
  - unfold isInListType, isInElement, findAncestor. rewrite Hanchor.
    cbn [anchorNode anchor caretAtEnd backward rstart container].
    rewrite (walkUp_snoc_miss _ _ _ _ _ Hitem)
      by (destruct Hty; subst; reflexivity).
    pose proof Hlist as Hl'. rewrite (parent_index block Hq) in Hl' |- *.
    rewrite (walkUp_snoc_hit _ _ _ _ _ Hl'); [reflexivity|].
    unfold isElementWithTag. cbn [list isElement tagOf].
    now rewrite String.eqb_refl.
  - assert (Hc : content ed' = spliceAt (fun _ => [list]) block (content ed))
      by reflexivity.
    clearbody ed'.
    unfold toggleList at 1. rewrite Hanchor. unfold getParentBlock.
    cbn [anchorNode anchor caretAtEnd backward rstart container].
    rewrite Hfb, Hitem. cbn [li]. change (String.eqb "LI" "LI") with true.
    cbv iota. rewrite parentPath_snoc, Hlist.
    cbn [list tagOf]. rewrite Hup, String.eqb_refl.
    destruct block as [|x r] eqn:Eb; [congruence|]. rewrite <- Eb in *.
    unfold extractFromList. rewrite parentPath_snoc, indexOf_snoc.
    change (toUpperCase "p") with "P". fold para.
    change (extractItem para list 0) with ([para], 0).
    cbv iota beta.
    rewrite Nat.add_0_r, <- (parent_index block Hq).
    rewrite Hc. now rewrite spliceAt_const_twice.
Qed.

Lemma X13_toggleList_promote_then_demote_witness :
  exists ed',
    toggleList Sample.browser "ul" Sample.cursorInStrong = Inside ed' /\
    getBlockType ed' = Some "li" /\
    isInListType ed' "ul" = true /\
    toggleList Sample.browser "ul" ed'
    = Inside (mkEd (el "DIV" [el "P" [Text "hello ";
                                      el "STRONG" [Text "world"]]])
                   (select [0] 2 [0] 2)).
Proof.
  destruct (X13_toggleList_promote_then_demote Sample.browser "ul"
              Sample.cursorInStrong
              (mkSel (mkB [0; 1; 0] 2) (mkB [0; 1; 0] 2) false) [0]
              "P" [] EmptyString [Text "hello "; el "STRONG" [Text "world"]])
    as (ed' & H1 & _ & H2 & H3 & H4);
    [reflexivity | reflexivity | reflexivity | discriminate | now left |].
  exists ed'. split; [exact H1|]. split; [exact H2|]. split; [exact H3|].
  rewrite H4. reflexivity.
Defined.

(** ** insertFigure with the cursor in a list *)

(** X14.  When the anchor's block is a child of a list element, the figure
    [insertFigure] creates becomes a child of that list, next to the
    block; a list then holds a child that is not a list item. *)
Theorem X14_insertFigure_lands_inside_list :
  forall (url : string) (ed : editor) (s : selection) (block : path)
         lt la lal lkids,
    sel ed = Some s ->
    getParentBlock (content ed) (anchorNode s) = Some block ->
    nodeAt (content ed) (parentPath block) = Some (Elem lt la lal lkids) ->
    isListContainer lt = true ->
    (exists kids,
        nodeAt (content (insertFigure url ed)) (parentPath block)
        = Some (Elem lt la lal kids) /\
        exists fig, nth_error kids (S (indexOf block)) = Some fig /\
                    tagOf fig = "FIGURE") /\
    listsHoldItems (content (insertFigure url ed)) = false.
Proof.
  intros url ed s block lt la lal lkids Hs Hb Hl Hlt.
  destruct (findParentBlock_Some _ _ _ Hb) as (t & a & al & cs & Hn & _ & Hq).
  unfold insertFigure. rewrite Hs, Hb. cbn [content].
  set (figure := Elem (toUpperCase "figure") [] EmptyString _).
  pose proof Hn as Hn'. rewrite (parent_index block Hq) in Hn'.
  destruct (nodeAt_insert_after _ _ _ _ figure Hn') as [_ H2].
  pose proof (nodeAt_spliceAt (fun b => [b; figure]) (indexOf block)
                (parentPath block) (content ed) lt la lal lkids Hl) as Hp.
  rewrite <- (parent_index block Hq) in H2, Hp.
  assert (Hfig : nth_error (splice_nth (fun b => [b; figure]) (indexOf block)
                              lkids) (S (indexOf block)) = Some figure).
  { rewrite nodeAt_app, Hp in H2. cbn [nodeAt] in H2.
    destruct (nth_error _ (S (indexOf block))) as [x|]; [|discriminate].
    exact H2. }
  split.
  - eexists. split; [exact Hp|]. exists figure. split; [exact Hfig|reflexivity].
  - destruct (listsHoldItems (spliceAt _ block (content ed))) eqn:E;
      [|reflexivity].
    pose proof (listsHoldItems_nodeAt _ _ _ E Hp) as Hpar.
    cbn [listsHoldItems] in Hpar. rewrite Hlt in Hpar.
    apply andb_prop in Hpar as [Hall _].
    rewrite forallb_forall in Hall.
    specialize (Hall figure (nth_error_In _ _ Hfig)). discriminate.
Qed.

Lemma X14_insertFigure_lands_inside_list_witness :
  listsHoldItems (content Sample.twoItems) = true /\
  listsHoldItems (content (insertFigure "cat.png" Sample.twoItems)) = false.
Proof.
  split; [reflexivity|].
  destruct (X14_insertFigure_lands_inside_list "cat.png" Sample.twoItems
              (mkSel (mkB [0; 0; 0] 0) (mkB [0; 0; 0] 4) false) [0; 0]
              "UL" [] EmptyString
              [el "LI" [Text "item one"]; el "LI" [Text "item two"]])
    as [_ H]; [reflexivity | reflexivity | reflexivity | reflexivity |].
  exact H.
Defined.

(** ** Which blocks a selection reaches *)

Lemma filter_none {A} (f : A -> bool) l :
  (forall x, In x l -> f x = false) -> filter f l = [].
Proof.
  induction l as [|x l IH]; intros H; simpl; [reflexivity|].
  rewrite (H x) by now left. apply IH. intros y Hy. apply H. now right.
Qed.

(** X15.  Every block [getBlocksInSelection] returns lies strictly below
    the walker's root (the common ancestor of the range, or its parent for
    a text node) and intersects the range.  The root itself is never
    returned. *)
Theorem X15_blocks_lie_below_common_ancestor :
  forall (root : node) (s e : boundary) (q : path),
    In q (getBlocksInSelection root s e) ->
    (exists rel, rel <> [] /\ q = wrapperParent root s e ++ rel) /\
    q <> wrapperParent root s e /\
    intersectsNode s e q = true.
Proof.
  intros root s e q H. unfold getBlocksInSelection in H.
  fold (wrapperParent root s e) in H.
  destruct (nodeAt root (wrapperParent root s e)) as [r|]; [|destruct H].
  apply in_map_iff in H as ((q', n) & Hq & Hin). simpl in Hq; subst q'.
  apply filter_In in Hin as [Hd Hf]. cbn [fst snd] in Hf.
  apply andb_prop in Hf as [_ Hi].
  destruct (descendants_spec _ _ _ _ Hd) as (rel & Hne & Hq & _).
  split; [now exists rel|]. split; [|exact Hi].
  intros E. rewrite E in Hq. rewrite <- (app_nil_r (wrapperParent root s e)) in Hq at 1.
  apply app_inv_head in Hq. congruence.
Qed.

Lemma X15_blocks_lie_below_common_ancestor_witness :
  In [0; 0] (getBlocksInSelection (content Sample.acrossItems)
               (mkB [0; 0; 0] 5) (mkB [0; 2; 0] 4)) /\
  intersectsNode (mkB [0; 0; 0] 5) (mkB [0; 2; 0] 4) [0; 0] = true.
Proof.
  assert (H : In [0; 0] (getBlocksInSelection (content Sample.acrossItems)
                           (mkB [0; 0; 0] 5) (mkB [0; 2; 0] 4)))
    by (vm_compute; auto).
  split; [exact H|].
  apply (X15_blocks_lie_below_common_ancestor _ _ _ _ H).
Defined.

(** X16.  A range inside one text node reaches no block: the walker
    starts at the text node's parent and the only node below it that
    intersects the range is the text node.  [wrapSelectionPerBlock] then
    wraps the range with a single [wrapRange]. *)
Theorem X16_range_in_one_text_node_has_no_blocks :
  forall (ed : editor) (s : selection) (data : string) (tagName : string)
         (attributes : option (list (string * string))),
    sel ed = Some s ->
    container (rstart s) = container (rend s) ->
    nodeAt (content ed) (container (rstart s)) = Some (Text data) ->
    getBlocksInSelection (content ed) (rstart s) (rend s) = [] /\
    (collapsed s = false ->
     content (wrapSelectionPerBlock tagName attributes ed)
     = w_tree (wrapRange (content ed) (rstart s) (rend s) tagName attributes)).
Proof.
  intros ed s data tagName attributes Hs Hc Hn.
  assert (Hnone : getBlocksInSelection (content ed) (rstart s) (rend s) = []).
  { unfold getBlocksInSelection, commonAncestorContainer.
    rewrite <- Hc, lcp_same, Hn.
    destruct (container (rstart s)) as [|i P _] eqn:Ec using rev_ind.
    { cbn [parentPath removelast]. cbn [nodeAt] in Hn |- *.
      inversion Hn as [Hroot]. rewrite Hroot. reflexivity. }
    rewrite parentPath_snoc.
    destruct (nodeAt (content ed) P) as [r|] eqn:Hr; [|reflexivity].
    rewrite filter_none; [reflexivity|].
    intros [q n] Hin. cbn [fst snd].
    destruct (descendants_spec _ _ _ _ Hin) as (rel & Hne & Hq & Hrel).
    destruct n as [x|t a al cs]; [reflexivity|].
    cbn [isElement]. destruct (includes blockTags _); [|reflexivity].
    cbn [andb]. unfold intersectsNode. rewrite <- Hc, Ec.
    assert (Htext : nodeAt r [i] = Some (Text data)).
    { rewrite nodeAt_app, Hr in Hn. exact Hn. }
    destruct rel as [|j rel' _] using rev_ind; [congruence|].
    rewrite Hq, app_assoc, parentPath_snoc, indexOf_snoc, !pos_cmp_app.
    destruct rel' as [|k rest].
    - cbn [pos_cmp].
      destruct (i <? j) eqn:E1; [reflexivity|].
      destruct (i <? S j) eqn:E2; [|reflexivity].
      apply Nat.ltb_ge in E1. apply Nat.ltb_lt in E2.
      assert (j = i) by lia. subst j.
      cbn [app] in Hrel. rewrite Htext in Hrel. discriminate.
    - cbn [pos_cmp].
      destruct (k ?= i) eqn:E; try reflexivity.
      apply Nat.compare_eq in E. subst k.
      change ((i :: rest) ++ [j]) with ([i] ++ (rest ++ [j])) in Hrel.
      rewrite nodeAt_app, Htext in Hrel.
      destruct (rest ++ [j]) eqn:Er; [|discriminate].
      destruct rest; discriminate. }
  split; [exact Hnone|].
  intros Hcol. unfold wrapSelectionPerBlock. rewrite Hs, Hcol, Hnone.
  reflexivity.
Qed.

Lemma X16_range_in_one_text_node_has_no_blocks_witness :
  getBlocksInSelection (content Sample.plainWorld)
    (mkB [0; 0] 6) (mkB [0; 0] 11) = [].
Proof.
  destruct (X16_range_in_one_text_node_has_no_blocks Sample.plainWorld
              (mkSel (mkB [0; 0] 6) (mkB [0; 0] 11) false) "hello world"
              "em" None) as [H _]; [reflexivity | reflexivity | reflexivity |].
  exact H.
Defined.

(** ** toggleList on an item of the same list type *)

(** X17.  On a list item whose list is of the requested type,
    [toggleList] does exactly what [setBlockType] does for a paragraph:
    the two functions share the extraction of the item, the paragraph that
    takes its place and the cursor at its end, on every host and also
    when the list is the editor element itself. *)
Theorem X17_toggleList_demotes_like_setBlockType :
  forall (h : host) (type : string) (ed : editor) (s : selection)
         (block : path) ba bal bkids lt la lal lkids,
    sel ed = Some s ->
    getParentBlock (content ed) (anchorNode s) = Some block ->
    nodeAt (content ed) block = Some (Elem "LI" ba bal bkids) ->
    nodeAt (content ed) (parentPath block) = Some (Elem lt la lal lkids) ->
    (lt = "UL" /\ type = "ul") \/ (lt = "OL" /\ type = "ol") ->
    toggleList h type ed = setBlockType h "p" ed.
Proof.
  intros h type ed s block ba bal bkids lt la lal lkids Hs Hb Hn Hl Hty.
  unfold toggleList, setBlockType. rewrite Hs, Hb, Hn, Hl.
  change (String.eqb "LI" "LI") with true.
  change (String.eqb (toLowerCase "LI") (toLowerCase "p")) with false.
  cbv iota. cbn [tagOf].
  destruct (parentPath block) as [|x r].
  - destruct Hty as [[-> ->]|[-> ->]]; reflexivity.
  - destruct Hty as [[-> ->]|[-> ->]]; reflexivity.
Qed.

Lemma X17_toggleList_demotes_like_setBlockType_witness :
  toggleList Sample.browser "ul" Sample.threeItems
  = setBlockType Sample.browser "p" Sample.threeItems.
Proof.
  apply (X17_toggleList_demotes_like_setBlockType Sample.browser "ul"
           Sample.threeItems
           (mkSel (mkB [0; 1; 0] 0) (mkB [0; 1; 0] 8) false) [0; 1]
           [] EmptyString [Text "item two"] "UL" [] EmptyString
           [el "LI" [Text "item one"]; el "LI" [Text "item two"];
            el "LI" [Text "item three"]]);
    try reflexivity.
  left. split; reflexivity.
Defined.
